(** * map-of-reddit: the geospatial interaction core of [WorldMap.tsx]

    A shallow embedding of [src/app/components/WorldMap.tsx] (and of the part
    of [InfoPanel.tsx] that wires its buttons to the map), with the
    properties stated about it.

    Conventions of the embedding.
    - A JavaScript [number] is an IEEE 754 binary64 value. Its finite
      values are rationals, so a number is a [Q]; the subtraction and the
      additions of [makeContinuous] round their exact result to the nearest
      binary64 number ([sub64], [add64]). A radius, an opacity or a stroke
      weight is a [Q] as well; zoom levels and subscriber counts are
      integers [Z].
    - A leaflet [L.Path] object is a cell of a heap (a list indexed by
      allocation order); a reference to it is its index, and [!==] on
      references is inequality of indices.
    - React state ([selected], [zoom]) is a field of the component state;
      every event handler runs against the settled state, and the marker
      effect re-runs after a handler that called [setSelected] or
      [setZoom].
    - The leaflet map itself, its tiles and the markup of the panel are not
      embedded; the zoom buttons and the wheel reach the component as the
      [zoomend] event. *)

From Stdlib Require Import QArith Qabs Qminmax Qround Qpower Lqa ZArith Lia List.
From Stdlib Require Qcanon.
From Stdlib Require Import Ascii String Sorted.
From stdpp Require Import base option list strings gmap.
Import ListNotations.

Local Open Scope Q_scope.

(** ** Numbers *)

(** [a > b] and [a < b] on numbers, as booleans. *)
Definition Qgtb (a b : Q) : bool := negb (Qle_bool a b).
Definition Qltb (a b : Q) : bool := negb (Qle_bool b a).

(** *** Binary64 arithmetic *)

(** [2^e], for an exponent of either sign. *)
Definition pow2 (e : Z) : Q := 2 ^ e.

(** The binary exponent of a non-zero [x]: [2^e <= |x| < 2^(e+1)]. The
    difference of the two bit lengths is [e] or [e + 1]. *)
Definition exponent (x : Q) : Z :=
  let a := (Z.log2 (Z.abs (Qnum x)) - Z.log2 (Zpos (Qden x)))%Z in
  if Qle_bool (pow2 a) (Qabs x) then a else (a - 1)%Z.

(** The integer nearest to [y]; of two equally near, the even one. *)
Definition nearest_even (y : Q) : Z :=
  let f := Qfloor y in
  match Qcompare (y - inject_Z f) (1 # 2) with
  | Lt => f
  | Gt => (f + 1)%Z
  | Eq => if Z.even f then f else (f + 1)%Z
  end.

(** The binary64 number nearest to [x], in lowest terms: [x] is rounded to
    53 significant bits, ties to the even mantissa (the rounding of every
    arithmetic operation of the language). The exponent range is not
    bounded: a sum or difference of two finite binary64 numbers that falls
    below [2^-1022] is exact, and one that reaches [2^1024] is [Infinity]
    in the code, which compares with 180 and -180 as the large rational
    here does; only the difference of two longitudes can get there, the
    offset and the shifted longitude cannot. [NaN] and the infinities are
    not coordinates of a parsed geometry, and [-0] is the number [0], as
    [===] has it. *)
Definition round64 (x : Q) : Q :=
  let x := Qred x in
  let ulp := pow2 (exponent x - 52) in
  Qred (inject_Z (nearest_even (x / ulp)) * ulp).

(** [a + b] and [a - b] on numbers. *)
Definition add64 (a b : Q) : Q := round64 (a + b).
Definition sub64 (a b : Q) : Q := round64 (a - b).

(** [x] is a binary64 number (written in lowest terms). *)
Definition binary64 (x : Q) : Prop := round64 x = x.

(** ** Geometry: the antimeridian correction *)

(** A GeoJSON position, two-dimensional: [(longitude, latitude)]. *)
Definition Position : Type := Q * Q.

Definition lon (p : Position) : Q := fst p.
Definition lat (p : Position) : Q := snd p.

(** [ring[i]] for an index in range; the default is never read by
    [makeContinuous], whose loop stays below [ring.length]. *)
Definition at_ (ring : list Position) (i : nat) : Position :=
  nth i ring (0, 0).

(** One iteration of the [for] loop of [makeContinuous]: the loop state is
    the running [offset] and the array [out]. *)
Definition makeContinuous_body (ring : list Position)
    (st : Q * list Position) (i : nat) : Q * list Position :=
  let '(offset, out) := st in
  let diff := sub64 (lon (at_ ring i)) (lon (at_ ring (i - 1))) in
  let offset :=
    if Qgtb diff 180 then sub64 offset 360
    else if Qltb diff (-180) then add64 offset 360
    else offset in
  (offset, out ++ [(add64 (lon (at_ ring i)) offset, lat (at_ ring i))]).

Definition makeContinuous (ring : list Position) : list Position :=
  if (length ring <? 2)%nat then ring
  else
    snd (fold_left (makeContinuous_body ring)
           (seq 1 (length ring - 1)) (0, [at_ ring 0])).

(** The geometry of a feature, as far as [fixGeom] tells the kinds apart. *)
Inductive Geometry : Type :=
  | Polygon (coordinates : list (list Position))
  | MultiPolygon (coordinates : list (list (list Position)))
  | OtherGeometry.

Definition fixGeom (geom : Geometry) : Geometry :=
  match geom with
  | Polygon cs => Polygon (map makeContinuous cs)
  | MultiPolygon cs => MultiPolygon (map (fun poly => map makeContinuous poly) cs)
  | OtherGeometry => geom
  end.

(** *** The corrector as the specification words it *)

(** The running offset after a raw consecutive difference [diff]. *)
Definition next_offset (offset diff : Q) : Q :=
  if Qgtb diff 180 then sub64 offset 360
  else if Qltb diff (-180) then add64 offset 360
  else offset.

(** The points after the first one: [prev] is the raw longitude of the
    point before, [offset] the running offset so far. *)
Fixpoint corrected_tail (prev offset : Q) (rest : list Position)
    : list Position :=
  match rest with
  | [] => []
  | p :: rest' =>
      let offset' := next_offset offset (sub64 (lon p) prev) in
      (add64 (lon p) offset', lat p) :: corrected_tail (lon p) offset' rest'
  end.

Definition makeContinuous_ref (ring : list Position) : list Position :=
  match ring with
  | [] => []
  | p0 :: rest => p0 :: corrected_tail (lon p0) 0 rest
  end.

(** *** Consecutive differences *)

(** The differences below are the exact ones, of the rationals the numbers
    are. *)
Fixpoint jumps (prev : Q) (l : list Position) : list Q :=
  match l with
  | [] => []
  | p :: l' => (lon p - prev) :: jumps (lon p) l'
  end.

(** [lon[i] - lon[i-1]] for [i = 1 .. length - 1]. *)
Definition lonDiffs (ring : list Position) : list Q :=
  match ring with
  | [] => []
  | p :: l => jumps (lon p) l
  end.

(** Every consecutive pair of the ring is at most [bound] apart in
    longitude. *)
Definition jumps_within (bound : Q) (ring : list Position) : Prop :=
  Forall (fun d => Qabs d <= bound) (lonDiffs ring).

Definition continuous (ring : list Position) : Prop := jumps_within 180 ring.

Definition continuousb (ring : list Position) : bool :=
  forallb (fun d => Qle_bool (Qabs d) 180) (lonDiffs ring).

(** Every longitude of the ring is a binary64 number. *)
Definition binary64_ring (ring : list Position) : Prop :=
  Forall (fun p => binary64 (lon p)) ring.

(** The largest error of one rounded addition, with the raw longitude in
    [-180, 180] and the offset at most [b] turns: half a unit in the last
    place of [180 + 360 b]. *)
Definition rounding_unit (b : Z) : Q := (180 + 360 * inject_Z b) * (1 # 2 ^ 53).

(** What the roundings of [makeContinuous] can add to a consecutive
    difference of a ring of [n] points with longitudes in [-180, 180]. *)
Definition rounding_slack (n : nat) : Q := Z.of_nat n # 2 ^ 43.

(** The rings used below: the one of the specification's scenario A; one
    with a raw jump of more than one turn and a half; and one of binary64
    longitudes within [-180, 180] whose third raw difference, 180 + 2^-46,
    rounds to 180. *)
Definition scenario_A_ring : list Position :=
  [(170, 10); (-170, 10); (170, -10)].

Definition far_jump_ring : list Position := [(0, 0); (1000, 0)].

Definition rounding_ring : list Position :=
  [(170, 0); (-170, 0);
   (-6333186975989763 # 70368744177664, 0);
   (3166593487994879 # 35184372088832, 0)].

(** ** The dataset *)

(** Modelled from the spec: the record types of [@/app/data/subreddits],
    which is not among the sources; every level has an identifier or name,
    a community identifier, a member count and a geographic point, and the
    fields are the ones the two components read. *)
Record PlaceSubreddit : Type := {
  place_name : string;
  place_subreddit : string;
  place_subscribers : Z;
  place_coordinates : Position;
}.

Record CitySubreddit : Type := {
  city_name : string;
  city_subreddit : string;
  city_subscribers : Z;
  city_coordinates : Position;
  city_places : option (list PlaceSubreddit);
}.

Record CountrySubreddit : Type := {
  country_id : string;
  country_name : string;
  country_subreddit : string;
  country_subscribers : Z;
  country_cities : list CitySubreddit;
}.

(** ** Leaflet objects *)

(** A number that may be [Infinity] (the label thresholds). *)
Inductive Num : Type :=
  | Finite (n : Z)
  | Infinity.

(** [n >= t] for a finite [n]. *)
Definition geNum (n : Z) (t : Num) : bool :=
  match t with
  | Finite m => (m <=? n)%Z
  | Infinity => false
  end.

Record PathOptions : Type := {
  fillColor : string;
  fillOpacity : Q;
  color : string;
  weight : Q;
}.

(** [setStyle({ fillOpacity, weight })]: the two given options are
    overwritten, the others are kept. *)
Definition setStyle (fo w : Q) (o : PathOptions) : PathOptions :=
  {| fillColor := fillColor o; fillOpacity := fo; color := color o; weight := w |}.

Record Tooltip : Type := {
  content : string;
  permanent : bool;
  sticky : bool;
  direction : string;
  offset : option (Q * Q);
  className : string;
}.

(** A feature of the fetched collection: [String(f.id)] and its geometry. *)
Record Feature : Type := {
  feature_id : string;
  feature_geometry : Geometry;
}.

Definition fixAntimeridian (fc : list Feature) : list Feature :=
  map (fun f => {| feature_id := feature_id f;
                   feature_geometry := fixGeom (feature_geometry f) |}) fc.

(** A country drawable. [pathCountry] is the [country] its three handlers
    close over; a feature outside the dataset gets no handler. *)
Record Path : Type := {
  options : PathOptions;
  pathCountry : option CountrySubreddit;
  pathTooltip : option Tooltip;
  pathGeometry : Geometry;
}.

(** What the click handler of a marker calls. *)
Inductive MarkerClick : Type :=
  | ClickCity (country : CountrySubreddit) (city : CitySubreddit)
  | ClickPlace (country : CountrySubreddit) (city : CitySubreddit)
      (place : PlaceSubreddit).

(** A circle marker. [hover] holds the [r] and [isActive] that the
    mouseover/mouseout handlers of a place marker close over; a city marker
    has no such handlers. *)
Record CircleMarker : Type := {
  latlng : Q * Q;
  radius : Q;
  markerOptions : PathOptions;
  pane : option string;
  markerTooltip : Tooltip;
  hover : option (Q * bool);
  onClick : MarkerClick;
}.

(** ** The component state *)

Record Selected : Type := {
  country : option CountrySubreddit;
  city : option CitySubreddit;
  place : option PlaceSubreddit;
}.

Definition noSelection : Selected :=
  {| country := None; city := None; place := None |}.

(** The refs and the React state of [WorldMap]. [layers] is the heap of
    [L.Path] objects in allocation order, [front] their stacking order
    (last is topmost); a group ref is [None] while it is [null]. *)
Record State : Type := {
  selected : Selected;
  zoom : Z;
  zoomRef : Z;
  selectedLayerRef : option nat;
  countryLayersRef : gmap string nat;
  layers : list Path;
  front : list nat;
  cityGroupRef : option (list CircleMarker);
  placeGroupRef : option (list CircleMarker);
}.

Definition with_selected (x : Selected) (s : State) : State :=
  {| selected := x; zoom := zoom s; zoomRef := zoomRef s;
     selectedLayerRef := selectedLayerRef s;
     countryLayersRef := countryLayersRef s; layers := layers s;
     front := front s; cityGroupRef := cityGroupRef s; placeGroupRef := placeGroupRef s |}.

Definition with_zoom (x : Z) (s : State) : State :=
  {| selected := selected s; zoom := x; zoomRef := zoomRef s;
     selectedLayerRef := selectedLayerRef s;
     countryLayersRef := countryLayersRef s; layers := layers s;
     front := front s; cityGroupRef := cityGroupRef s; placeGroupRef := placeGroupRef s |}.

Definition with_zoomRef (x : Z) (s : State) : State :=
  {| selected := selected s; zoom := zoom s; zoomRef := x;
     selectedLayerRef := selectedLayerRef s;
     countryLayersRef := countryLayersRef s; layers := layers s;
     front := front s; cityGroupRef := cityGroupRef s; placeGroupRef := placeGroupRef s |}.

Definition with_selectedLayerRef (x : option nat) (s : State) : State :=
  {| selected := selected s; zoom := zoom s; zoomRef := zoomRef s;
     selectedLayerRef := x;
     countryLayersRef := countryLayersRef s; layers := layers s;
     front := front s; cityGroupRef := cityGroupRef s; placeGroupRef := placeGroupRef s |}.

Definition with_countryLayersRef (x : gmap string nat) (s : State) : State :=
  {| selected := selected s; zoom := zoom s; zoomRef := zoomRef s;
     selectedLayerRef := selectedLayerRef s;
     countryLayersRef := x; layers := layers s;
     front := front s; cityGroupRef := cityGroupRef s; placeGroupRef := placeGroupRef s |}.

Definition with_layers (x : list Path) (s : State) : State :=
  {| selected := selected s; zoom := zoom s; zoomRef := zoomRef s;
     selectedLayerRef := selectedLayerRef s;
     countryLayersRef := countryLayersRef s; layers := x;
     front := front s; cityGroupRef := cityGroupRef s; placeGroupRef := placeGroupRef s |}.

Definition with_front (x : list nat) (s : State) : State :=
  {| selected := selected s; zoom := zoom s; zoomRef := zoomRef s;
     selectedLayerRef := selectedLayerRef s;
     countryLayersRef := countryLayersRef s; layers := layers s;
     front := x; cityGroupRef := cityGroupRef s; placeGroupRef := placeGroupRef s |}.

Definition with_groups (cg pg : option (list CircleMarker)) (s : State) : State :=
  {| selected := selected s; zoom := zoom s; zoomRef := zoomRef s;
     selectedLayerRef := selectedLayerRef s;
     countryLayersRef := countryLayersRef s; layers := layers s;
     front := front s; cityGroupRef := cg; placeGroupRef := pg |}.

Definition DEFAULT_ZOOM : Z := 3.

(** The three styles the handlers put on a country drawable. *)
Definition restoreStyle : PathOptions -> PathOptions := setStyle 0.08 1.
Definition highlightStyle : PathOptions -> PathOptions := setStyle 0.2 2.
Definition hoverStyle : PathOptions -> PathOptions := setStyle 0.3 1.5.

(** [layer.setStyle(..)], on a drawable and on the heap. *)
Definition restyle (f : PathOptions -> PathOptions) (p : Path) : Path :=
  {| options := f (options p); pathCountry := pathCountry p;
     pathTooltip := pathTooltip p; pathGeometry := pathGeometry p |}.

Definition styleLayer (f : PathOptions -> PathOptions) (layer : nat)
    (s : State) : State :=
  with_layers (alter (restyle f) layer (layers s)) s.

(** [path.bringToFront()]. *)
Definition bringToFront (layer : nat) (s : State) : State :=
  with_front (filter (fun l => l <> layer) (front s) ++ [layer]) s.

(** A drawable carries the highlight style: the fill opacity and stroke
    weight that [selectCountry] sets. *)
Definition highlighted (p : Path) : Prop :=
  fillOpacity (options p) == 0.2 /\ weight (options p) == 2.

Definition highlightedb (p : Path) : bool :=
  Qeq_bool (fillOpacity (options p)) 0.2 && Qeq_bool (weight (options p)) 2.

(** ** What the component imports *)

(** The data module [@/app/data/subreddits] exports the list
    [countrySubreddits] and the lookup table [countryMap]; neither is among
    the sources, so both are parameters, together with [Math.log10] on
    member counts. *)
Class Imports : Type := {
  countrySubreddits : list CountrySubreddit;
  countryMap : gmap string CountrySubreddit;
  log10 : Z -> Q;
}.

(** ** Events of the rendering surface *)

Inductive Event : Type :=
  | GeoLoaded (fc : list Feature)      (* the fetch of GEO_URL resolved *)
  | PathMouseOver (layer : nat)
  | PathMouseOut (layer : nat)
  | PathClick (layer : nat)
  | CityMarkerClick (k : nat)          (* k-th marker of the city group *)
  | PlaceMarkerOver (k : nat)
  | PlaceMarkerOut (k : nat)
  | PlaceMarkerClick (k : nat)
  | PanelCityClick (k : nat)           (* k-th button of the "Cities" list *)
  | PanelPlaceClick (k : nat)          (* k-th button of "Neighborhoods" *)
  | PanelBack
  | PanelClose
  | ResetView
  | KeyDown (key : string)
  | ZoomEnd (z : Z).

(** ** InfoPanel: the two sub-lists *)

(** [[...items].sort((a, b) => b.subscribers - a.subscribers)]: a stable
    sort by descending member count. *)
Fixpoint insertDesc {A} (subs : A -> Z) (x : A) (l : list A) : list A :=
  match l with
  | [] => [x]
  | y :: l' =>
      if (subs x <? subs y)%Z then y :: insertDesc subs x l' else x :: l
  end.

Definition sortDesc {A} (subs : A -> Z) (l : list A) : list A :=
  fold_right (insertDesc subs) [] l.

(** The buttons of the "Cities" list, top to bottom. *)
Definition panelCities (sel : Selected) : list CitySubreddit :=
  match city sel, place sel, country sel with
  | None, None, Some co =>
      if (0 <? length (country_cities co))%nat
      then sortDesc city_subscribers (country_cities co) else []
  | _, _, _ => []
  end.

(** The buttons of the "Neighborhoods" list. *)
Definition panelPlaces (sel : Selected) : list PlaceSubreddit :=
  match city sel, place sel with
  | Some ci, None =>
      match city_places ci with
      | Some places =>
          if (0 <? length places)%nat
          then sortDesc place_subscribers places else []
      | None => []
      end
  | _, _ => []
  end.

Section Component.
Context {imports : Imports}.

(** ** The marker effect *)

Definition labelMinSubs (zoom : Z) : Num :=
  if (zoom >=? 10)%Z then Finite 0
  else if (zoom >=? 8)%Z then Finite 30000
  else if (zoom >=? 6)%Z then Finite 100000
  else Infinity.

Definition placeLabelMin (zoom : Z) : Num :=
  if (zoom >=? 14)%Z then Finite 0
  else if (zoom >=? 12)%Z then Finite 3000
  else Infinity.

(** [selected.city?.name === city.name && selected.country?.id === country.id] *)
Definition cityIsActive (sel : Selected) (co : CountrySubreddit)
    (ci : CitySubreddit) : bool :=
  bool_decide (city_name <$> city sel = Some (city_name ci))
  && bool_decide (country_id <$> country sel = Some (country_id co)).

(** [selected.place?.name === place.name && selected.city?.name === city.name] *)
Definition placeIsActive (sel : Selected) (ci : CitySubreddit)
    (pl : PlaceSubreddit) : bool :=
  bool_decide (place_name <$> place sel = Some (place_name pl))
  && bool_decide (city_name <$> city sel = Some (city_name ci)).

Definition cityRadius (ci : CitySubreddit) : Q :=
  Qmax 4 (log10 (city_subscribers ci) * 2).

Definition placeRadius (pl : PlaceSubreddit) : Q :=
  Qmax 10 ((log10 (place_subscribers pl) - 2) * 4).

Definition cityMarker (zoom : Z) (sel : Selected) (co : CountrySubreddit)
    (ci : CitySubreddit) : CircleMarker :=
  let r := cityRadius ci in
  let isActive := cityIsActive sel co ci in
  {| latlng := (snd (city_coordinates ci), fst (city_coordinates ci));
     radius := if isActive then r + 3 else r;
     markerOptions :=
       {| fillColor := if isActive then "#FFD700" else "#FF6B35";
          fillOpacity := 0.85;
          color := if isActive then "#fff" else "#FF8C00";
          weight := if isActive then 2 else 1 |};
     pane := None;
     markerTooltip :=
       if geNum (city_subscribers ci) (labelMinSubs zoom)
       then {| content := city_name ci; permanent := true; sticky := false;
               direction := "top"; offset := Some (0, - (r + 4));
               className := "city-label" |}
       else {| content := "r/" +:+ city_subreddit ci; permanent := false;
               sticky := false; direction := "top"; offset := None;
               className := "subreddit-tooltip" |};
     hover := None;
     onClick := ClickCity co ci |}.

Definition placeMarker (zoom : Z) (sel : Selected) (co : CountrySubreddit)
    (ci : CitySubreddit) (pl : PlaceSubreddit) : CircleMarker :=
  let r := placeRadius pl in
  let isActive := placeIsActive sel ci pl in
  {| latlng := (snd (place_coordinates pl), fst (place_coordinates pl));
     radius := if isActive then r + 3 else r;
     markerOptions :=
       {| fillColor := if isActive then "#e9d5ff" else "#c084fc";
          fillOpacity := 0.8;
          color := if isActive then "#fff" else "#a855f7";
          weight := if isActive then 2 else 1 |};
     pane := Some "markerPane";
     markerTooltip :=
       if geNum (place_subscribers pl) (placeLabelMin zoom)
       then {| content := place_name pl; permanent := true; sticky := false;
               direction := "top"; offset := Some (0, - (r + 3));
               className := "place-label" |}
       else {| content := "r/" +:+ place_subreddit pl; permanent := false;
               sticky := false; direction := "top"; offset := None;
               className := "subreddit-tooltip" |};
     hover := Some (r, isActive);
     onClick := ClickPlace co ci pl |}.

(** The two nested [for .. of] loops; [marker.addTo(group)] appends. *)
Definition cityLoop (zoom : Z) (sel : Selected)
    (group : list CircleMarker) : list CircleMarker :=
  fold_left
    (fun group co =>
       fold_left (fun group ci => group ++ [cityMarker zoom sel co ci])
         (country_cities co) group)
    countrySubreddits group.

Definition placeLoop (zoom : Z) (sel : Selected)
    (group : list CircleMarker) : list CircleMarker :=
  fold_left
    (fun group co =>
       fold_left
         (fun group ci =>
            match city_places ci with
            | None => group                      (* continue *)
            | Some places =>
                fold_left
                  (fun group pl => group ++ [placeMarker zoom sel co ci pl])
                  places group
            end)
         (country_cities co) group)
    countrySubreddits group.

(** The effect with dependencies [[zoom, selected]]. *)
Definition markerEffect (s : State) : State :=
  match cityGroupRef s, placeGroupRef s with
  | Some _, Some _ =>
      let cleared : list CircleMarker := [] in         (* clearLayers() *)
      let cityGroup :=
        if (zoom s >=? 4)%Z then cityLoop (zoom s) (selected s) cleared
        else cleared in
      let placeGroup :=
        if (zoom s >=? 10)%Z then placeLoop (zoom s) (selected s) cleared
        else cleared in
      with_groups (Some cityGroup) (Some placeGroup) s
  | _, _ => s                                          (* return *)
  end.

(** A state setter re-renders the component, and the marker effect runs
    again; [setZoom] with the current value bails out of the render. *)
Definition setSelected (x : Selected) (s : State) : State :=
  markerEffect (with_selected x s).

Definition setZoom (z : Z) (s : State) : State :=
  if (z =? zoom s)%Z then s else markerEffect (with_zoom z s).

(** ** The selection actions *)

(** A handler body is a sequence of statements; [exec] runs it and
    [observe] lists the state after each statement. *)
Definition exec (body : list (State -> State)) (s : State) : State :=
  fold_left (fun s stmt => stmt s) body s.


Definition unhighlightPrevious (layer : nat) (s : State) : State :=
  match selectedLayerRef s with
  | Some old =>
      if bool_decide (old <> layer) then styleLayer restoreStyle old s else s
  | None => s
  end.

Definition selectCountry_body (co : CountrySubreddit) (layer : nat)
    : list (State -> State) :=
  [ unhighlightPrevious layer;
    with_selectedLayerRef (Some layer);
    styleLayer highlightStyle layer;
    setSelected {| country := Some co; city := None; place := None |} ].

Definition selectCountry (id : string) (layer : nat) (s : State) : State :=
  match countryMap !! id with
  | None => s
  | Some co => exec (selectCountry_body co layer) s
  end.

Definition selectCity (co : CountrySubreddit) (ci : CitySubreddit)
    (s : State) : State :=
  setSelected {| country := Some co; city := Some ci; place := None |} s.

Definition selectPlace (co : CountrySubreddit) (ci : CitySubreddit)
    (pl : PlaceSubreddit) (s : State) : State :=
  setSelected {| country := Some co; city := Some ci; place := Some pl |} s.

Definition resetSelectedLayer (s : State) : State :=
  match selectedLayerRef s with
  | Some layer =>
      with_selectedLayerRef None (styleLayer restoreStyle layer s)
  | None => s
  end.

Definition handleBack (s : State) : State :=
  match place (selected s) with
  | Some _ =>
      setSelected {| country := country (selected s);
                     city := city (selected s); place := None |} s
  | None =>
      match city (selected s) with
      | Some _ =>
          setSelected {| country := country (selected s);
                         city := None; place := None |} s
      | None => setSelected noSelection (resetSelectedLayer s)
      end
  end.

Definition handleClose (s : State) : State :=
  setSelected noSelection (resetSelectedLayer s).

(** ** The geometry layer *)

(** The [style] option of [L.geoJSON]. *)
Definition countryStyle (c : option CountrySubreddit) : PathOptions :=
  match c with
  | Some _ => {| fillColor := "#FF4500"; fillOpacity := 0.08;
                 color := "rgba(255,69,0,0.3)"; weight := 1 |}
  | None => {| fillColor := "transparent"; fillOpacity := 0;
               color := "transparent"; weight := 0 |}
  end.

(** [id.replace(/^0+/, "") || "0"] *)
Fixpoint stripLeadingZeros (id : string) : string :=
  match id with
  | String "0"%char rest => stripLeadingZeros rest
  | _ => id
  end.

Definition strippedId (id : string) : string :=
  let stripped := stripLeadingZeros id in
  if bool_decide (stripped = "") then "0" else stripped.

(** [onEachFeature(f, layer)]: a feature of the dataset is registered under
    both spellings of its country's id and gets a tooltip and its three
    handlers. *)
Definition onEachFeature (f : Feature) (layer : nat) (s : State) : State :=
  match countryMap !! feature_id f with
  | None => s
  | Some co =>
      let s :=
        with_countryLayersRef
          (<[strippedId (country_id co) := layer]>
             (<[country_id co := layer]> (countryLayersRef s))) s in
      with_layers
        (alter
           (fun p =>
              {| options := options p; pathCountry := Some co;
                 pathTooltip :=
                   Some {| content := "r/" +:+ country_subreddit co;
                           permanent := false; sticky := true;
                           direction := "top"; offset := Some (0, -8);
                           className := "subreddit-tooltip" |};
                 pathGeometry := pathGeometry p |})
           layer (layers s)) s
  end.

(** One feature of [L.geoJSON(geo, ..)]: a new drawable, styled, then handed
    to [onEachFeature], and drawn on top of the earlier ones. *)
Definition addFeature (s : State) (f : Feature) : State :=
  let layer := length (layers s) in
  let path := {| options := countryStyle (countryMap !! feature_id f);
                 pathCountry := None; pathTooltip := None;
                 pathGeometry := feature_geometry f |} in
  let s := with_layers (layers s ++ [path]) s in
  let s := onEachFeature f layer s in
  with_front (front s ++ [layer]) s.

Definition geoLoaded (raw : list Feature) (s : State) : State :=
  fold_left addFeature (fixAntimeridian raw) s.

(** The handlers of a registered drawable [path], for [country]. *)
Definition pathMouseOver (path : nat) (s : State) : State :=
  let s :=
    if bool_decide (selectedLayerRef s <> Some path)
    then styleLayer hoverStyle path s else s in
  bringToFront path s.

Definition pathMouseOut (path : nat) (s : State) : State :=
  if bool_decide (selectedLayerRef s <> Some path)
  then styleLayer restoreStyle path s else s.

Definition pathClick (co : CountrySubreddit) (path : nat) (s : State) : State :=
  selectCountry (country_id co) path s.

(** Dispatch of a pointer event on a drawable: only a drawable that
    [onEachFeature] registered has handlers. *)
Definition onPath (handler : CountrySubreddit -> nat -> State -> State)
    (path : nat) (s : State) : State :=
  match layers s !! path with
  | Some p =>
      match pathCountry p with
      | Some co => handler co path s
      | None => s
      end
  | None => s
  end.

(** ** Marker handlers *)

Definition markerClick (m : CircleMarker) (s : State) : State :=
  match onClick m with
  | ClickCity co ci => selectCity co ci s
  | ClickPlace co ci pl => selectPlace co ci pl s
  end.

Definition onMarker (group : option (list CircleMarker)) (k : nat)
    (s : State) : State :=
  match group with
  | Some markers =>
      match markers !! k with
      | Some m => markerClick m s
      | None => s
      end
  | None => s
  end.

(** [marker.setRadius(..); marker.setStyle({ fillOpacity, weight })] *)
Definition restyleMarker (r fo w : Q) (m : CircleMarker) : CircleMarker :=
  {| latlng := latlng m; radius := r;
     markerOptions := setStyle fo w (markerOptions m);
     pane := pane m; markerTooltip := markerTooltip m;
     hover := hover m; onClick := onClick m |}.

Definition markerMouseOver (m : CircleMarker) : CircleMarker :=
  match hover m with
  | Some (r, _) => restyleMarker (r + 4) 1 2 m
  | None => m
  end.

Definition markerMouseOut (m : CircleMarker) : CircleMarker :=
  match hover m with
  | Some (r, isActive) =>
      restyleMarker (if isActive then r + 3 else r) 0.8
        (if isActive then 2 else 1) m
  | None => m
  end.

Definition onPlaceHover (f : CircleMarker -> CircleMarker) (k : nat)
    (s : State) : State :=
  with_groups (cityGroupRef s) (alter f k <$> placeGroupRef s) s.

(** ** The wiring of InfoPanel *)

Definition onCityClick (ci : CitySubreddit) (s : State) : State :=
  match country (selected s) with
  | Some co => selectCity co ci s
  | None => s
  end.

Definition onPlaceClick (pl : PlaceSubreddit) (s : State) : State :=
  match country (selected s), city (selected s) with
  | Some co, Some ci => selectPlace co ci pl s
  | _, _ => s
  end.

(** ** The component as a transition system *)

(** The state once both mount effects have run: the map and its two empty
    layer groups exist, nothing is selected, no geometry has arrived. *)
Definition mounted : State :=
  {| selected := noSelection; zoom := DEFAULT_ZOOM; zoomRef := DEFAULT_ZOOM;
     selectedLayerRef := None; countryLayersRef := ∅; layers := [];
     front := []; cityGroupRef := Some []; placeGroupRef := Some [] |}.

Definition step (s : State) (e : Event) : State :=
  match e with
  | GeoLoaded fc => geoLoaded fc s
  | PathMouseOver l => onPath (fun _ => pathMouseOver) l s
  | PathMouseOut l => onPath (fun _ => pathMouseOut) l s
  | PathClick l => onPath pathClick l s
  | CityMarkerClick k => onMarker (cityGroupRef s) k s
  | PlaceMarkerOver k => onPlaceHover markerMouseOver k s
  | PlaceMarkerOut k => onPlaceHover markerMouseOut k s
  | PlaceMarkerClick k => onMarker (placeGroupRef s) k s
  | PanelCityClick k =>
      match panelCities (selected s) !! k with
      | Some ci => onCityClick ci s
      | None => s
      end
  | PanelPlaceClick k =>
      match panelPlaces (selected s) !! k with
      | Some pl => onPlaceClick pl s
      | None => s
      end
  | PanelBack => handleBack s
  | PanelClose => handleClose s
  | ResetView =>
      match country (selected s) with
      | Some _ => handleClose s
      | None => s
      end
  | KeyDown key => if bool_decide (key = "Escape") then handleBack s else s
  | ZoomEnd z => setZoom z (with_zoomRef z s)
  end.

Definition run (events : list Event) (s : State) : State :=
  fold_left step events s.

End Component.

(** ** The marker plan as the specification words it *)

Definition T_city (z : Z) : Num :=
  if (10 <=? z)%Z then Finite 0
  else if ((8 <=? z) && (z <? 10))%Z then Finite 30000
  else if ((6 <=? z) && (z <? 8))%Z then Finite 100000
  else Infinity.

Definition T_place (z : Z) : Num :=
  if (14 <=? z)%Z then Finite 0
  else if ((12 <=? z) && (z <? 14))%Z then Finite 3000
  else Infinity.

(** The label of a marker: permanent, or shown on hover only. *)
Inductive LabelMode : Type :=
  | PermanentLabel (text : string)
  | HoverLabel (text : string).

Definition labelOf (t : Tooltip) : LabelMode :=
  if permanent t then PermanentLabel (content t) else HoverLabel (content t).

(** The name, permanently, when the member count reaches the threshold;
    otherwise the community identifier, on hover. *)
Definition planned_label (threshold : Num) (subscribers : Z)
    (name subreddit : string) : LabelMode :=
  if geNum subscribers threshold then PermanentLabel name
  else HoverLabel ("r/" +:+ subreddit).

Definition planned_label_of (z : Z) (owner : MarkerClick) : LabelMode :=
  match owner with
  | ClickCity _ ci =>
      planned_label (T_city z) (city_subscribers ci) (city_name ci)
        (city_subreddit ci)
  | ClickPlace _ _ pl =>
      planned_label (T_place z) (place_subscribers pl) (place_name pl)
        (place_subreddit pl)
  end.

(** Every city of the dataset under its country, and every place under its
    city and country, in dataset order. *)
Definition allCities `{Imports} : list MarkerClick :=
  flat_map (fun co => map (ClickCity co) (country_cities co)) countrySubreddits.

Definition allPlaces `{Imports} : list MarkerClick :=
  flat_map
    (fun co =>
       flat_map
         (fun ci =>
            match city_places ci with
            | Some places => map (ClickPlace co ci) places
            | None => []
            end)
         (country_cities co))
    countrySubreddits.

(** One marker per city, and one per place of a city that declares
    places, in dataset order. *)
Definition plannedCities `{Imports} (z : Z) (sel : Selected)
    : list CircleMarker :=
  flat_map (fun co => map (cityMarker z sel co) (country_cities co))
    countrySubreddits.

Definition plannedPlaces `{Imports} (z : Z) (sel : Selected)
    : list CircleMarker :=
  flat_map
    (fun co =>
       flat_map
         (fun ci =>
            match city_places ci with
            | Some places => map (placeMarker z sel co ci) places
            | None => []
            end)
         (country_cities co))
    countrySubreddits.

(** The label of a marker is the one planned for the entity it stands
    for. *)
Definition labelled_as_planned (z : Z) (m : CircleMarker) : Prop :=
  labelOf (markerTooltip m) = planned_label_of z (onClick m).

(** The entity a marker stands for is the selected one. *)
Definition owner_selected (sel : Selected) (owner : MarkerClick) : Prop :=
  match owner with
  | ClickCity co ci => country sel = Some co /\ city sel = Some ci
  | ClickPlace co ci pl =>
      country sel = Some co /\ city sel = Some ci /\ place sel = Some pl
  end.

(** The marker is drawn in the colours of the selected marker. *)
Definition drawn_selected (m : CircleMarker) : Prop :=
  match onClick m with
  | ClickCity _ _ =>
      fillColor (markerOptions m) = "#FFD700" /\ color (markerOptions m) = "#fff"
  | ClickPlace _ _ _ =>
      fillColor (markerOptions m) = "#e9d5ff" /\ color (markerOptions m) = "#fff"
  end.

(** ** The selection nesting *)

(** The selected city is a city of the selected country, and the selected
    place a place of the selected city. *)
Definition nested (sel : Selected) : Prop :=
  match place sel, city sel, country sel with
  | Some pl, Some ci, Some co =>
      (exists places, city_places ci = Some places /\ In pl places)
      /\ In ci (country_cities co)
  | Some _, _, _ => False
  | None, Some ci, Some co => In ci (country_cities co)
  | None, Some _, None => False
  | None, None, _ => True
  end.

(** The selected country is a country of the dataset. *)
Definition known_country `{Imports} (sel : Selected) : Prop :=
  forall co, country sel = Some co ->
    In co countrySubreddits \/ exists id, countryMap !! id = Some co.

(** ** A small dataset, for the scenarios *)

Definition montmartre : PlaceSubreddit :=
  {| place_name := "Montmartre"; place_subreddit := "montmartre";
     place_subscribers := 2500; place_coordinates := (2.34, 48.89) |}.

Definition paris : CitySubreddit :=
  {| city_name := "Paris"; city_subreddit := "paris";
     city_subscribers := 250000; city_coordinates := (2.35, 48.86);
     city_places := Some [montmartre] |}.

Definition lyon : CitySubreddit :=
  {| city_name := "Lyon"; city_subreddit := "lyon";
     city_subscribers := 40000; city_coordinates := (4.84, 45.76);
     city_places := None |}.

Definition france : CountrySubreddit :=
  {| country_id := "250"; country_name := "France";
     country_subreddit := "france"; country_subscribers := 2000000;
     country_cities := [paris; lyon] |}.

Definition berlin : CitySubreddit :=
  {| city_name := "Berlin"; city_subreddit := "berlin";
     city_subscribers := 300000; city_coordinates := (13.40, 52.52);
     city_places := None |}.

Definition germany : CountrySubreddit :=
  {| country_id := "276"; country_name := "Germany";
     country_subreddit := "de"; country_subscribers := 1000000;
     country_cities := [berlin] |}.

(** A rational stand-in for [Math.log10], to evaluate the scenarios: the
    binary logarithm, rounded down, times 0.3. *)
Definition roughLog10 (n : Z) : Q := inject_Z (Z.log2 n) * 0.3.

Definition demoImports : Imports :=
  {| countrySubreddits := [france; germany];
     countryMap := <["276" := germany]> (<["250" := france]> ∅);
     log10 := roughLog10 |}.

(** The boundary features of the two countries and of one territory outside
    the dataset. *)
Definition demoFeatures : list Feature :=
  [ {| feature_id := "250";
       feature_geometry := Polygon [[(2, 51); (8, 49); (3, 42); (2, 51)]] |};
    {| feature_id := "276";
       feature_geometry := Polygon [[(6, 51); (14, 54); (13, 47); (6, 51)]] |};
    {| feature_id := "010"; feature_geometry := OtherGeometry |} ].

(** France selected, by a click on its drawable. *)
Definition franceSelected : State :=
  run (imports := demoImports) [GeoLoaded demoFeatures; PathClick 0] mounted.

(** Montmartre selected: France by a click on its drawable, then Paris and
    Montmartre through the panel. *)
Definition montmartreEvents : list Event :=
  [GeoLoaded demoFeatures; PathClick 0; ZoomEnd 11; PanelCityClick 0;
   PanelPlaceClick 0].

Definition montmartreSelected : State :=
  run (imports := demoImports) montmartreEvents mounted.

(** Two countries with a city of the same name, each with a place of the
    same name. *)
Definition sohoUK : PlaceSubreddit :=
  {| place_name := "Soho"; place_subreddit := "soho";
     place_subscribers := 4000; place_coordinates := (-0.13, 51.51) |}.

Definition londonUK : CitySubreddit :=
  {| city_name := "London"; city_subreddit := "london";
     city_subscribers := 900000; city_coordinates := (-0.12, 51.5);
     city_places := Some [sohoUK] |}.

Definition unitedKingdom : CountrySubreddit :=
  {| country_id := "826"; country_name := "United Kingdom";
     country_subreddit := "unitedkingdom"; country_subscribers := 1500000;
     country_cities := [londonUK] |}.

Definition sohoON : PlaceSubreddit :=
  {| place_name := "Soho"; place_subreddit := "sohoLdnOnt";
     place_subscribers := 1200; place_coordinates := (-81.24, 42.98) |}.

Definition londonON : CitySubreddit :=
  {| city_name := "London"; city_subreddit := "londonontario";
     city_subscribers := 90000; city_coordinates := (-81.25, 42.98);
     city_places := Some [sohoON] |}.

Definition canada : CountrySubreddit :=
  {| country_id := "124"; country_name := "Canada";
     country_subreddit := "canada"; country_subscribers := 3000000;
     country_cities := [londonON] |}.

Definition twoLondons (log10 : Z -> Q) : Imports :=
  {| countrySubreddits := [unitedKingdom; canada];
     countryMap := <["124" := canada]> (<["826" := unitedKingdom]> ∅);
     log10 := log10 |}.

(** Soho in London, United Kingdom, selected by a click on its marker (the
    first of the place group) at zoom 14. *)
Definition sohoUKSelected (log10 : Z -> Q) : State :=
  run (imports := twoLondons log10) [ZoomEnd 14; PlaceMarkerClick 0] mounted.

(** ** Highlighting *)

(** Only the drawable stored in [selectedLayerRef] is highlighted, and it
    is. *)
Definition highlight_is_stored (s : State) : Prop :=
  forall l p, layers s !! l = Some p ->
    (highlighted p <-> selectedLayerRef s = Some l).

(** No two drawables are highlighted. *)
Definition no_two_highlighted (s : State) : Prop :=
  forall l1 l2 p1 p2,
    layers s !! l1 = Some p1 -> layers s !! l2 = Some p2 ->
    highlighted p1 -> highlighted p2 -> l1 = l2.

(** A highlighted drawable belongs to a feature of the dataset, and the
    selected country is the one [countryMap] holds under the id of that
    feature's country. *)
Definition highlight_matches_selection `{Imports} (s : State) : Prop :=
  forall l p, layers s !! l = Some p -> highlighted p ->
    exists co co',
      pathCountry p = Some co
      /\ countryMap !! country_id co = Some co'
      /\ country (selected s) = Some co'.

(** The operations on the country drawables and the navigation: every event
    but a click on a marker or on a button of the panel's lists. *)
Definition drawableOp (e : Event) : bool :=
  match e with
  | CityMarkerClick _ | PlaceMarkerClick _
  | PanelCityClick _ | PanelPlaceClick _ => false
  | _ => true
  end.

(** The events of the scenario: hover Germany, select France, leave
    Germany, select Germany, cancel. *)
Definition demoEvents : list Event :=
  [GeoLoaded demoFeatures; PathMouseOver 1; PathClick 0; PathMouseOut 1;
   PathClick 1; PathMouseOver 0; KeyDown "Escape"].

(** ** Invariants of the transition system *)

(** What one event can do to the stored reference and the heap of
    drawables: nothing; add drawables that are not highlighted; put a
    style other than the highlight on a drawable that is not the stored one;
    restore the stored drawable and clear the reference; or restore the
    stored drawable, unless it is [layer], then store and highlight
    [layer]. *)
Inductive heap_move (ref : option nat) (ls : list Path)
    : option nat -> list Path -> Prop :=
  | move_none : heap_move ref ls ref ls
  | move_load news :
      Forall (fun p => ~ highlighted p) news ->
      heap_move ref ls ref (ls ++ news)
  | move_hover l f :
      ref <> Some l ->
      (forall p, ~ highlighted (restyle f p)) ->
      heap_move ref ls ref (alter (restyle f) l ls)
  | move_reset :
      heap_move ref ls None
        (match ref with
         | Some old => alter (restyle restoreStyle) old ls
         | None => ls
         end)
  | move_select layer :
      (layer < length ls)%nat ->
      heap_move ref ls (Some layer)
        (alter (restyle highlightStyle) layer
           (match ref with
            | Some old =>
                if bool_decide (old <> layer)
                then alter (restyle restoreStyle) old ls else ls
            | None => ls
            end)).

(** The stored reference points into the heap, and it is the one
    highlighted drawable. *)
Definition highlight_inv (ref : option nat) (ls : list Path) : Prop :=
  (forall l p, ls !! l = Some p -> (highlighted p <-> ref = Some l))
  /\ (forall l, ref = Some l -> (l < length ls)%nat).

(** The entity a marker stands for is in the dataset, under its parents. *)
Definition parents_ok `{Imports} (owner : MarkerClick) : Prop :=
  match owner with
  | ClickCity co ci => In co countrySubreddits /\ In ci (country_cities co)
  | ClickPlace co ci pl =>
      In co countrySubreddits /\ In ci (country_cities co)
      /\ exists places, city_places ci = Some places /\ In pl places
  end.

Definition group_ok `{Imports} (group : option (list CircleMarker)) : Prop :=
  forall markers, group = Some markers ->
    Forall (fun m => parents_ok (onClick m)) markers.

Definition nesting_inv `{Imports} (s : State) : Prop :=
  nested (selected s) /\ known_country (selected s)
  /\ group_ok (cityGroupRef s) /\ group_ok (placeGroupRef s).



(** ** The markers follow the state *)

(** Both groups hold the plan for the current zoom and selection: the city
    group exactly, the place group up to the radius and style that hovering
    changes. *)
Definition markers_in_sync `{Imports} (s : State) : Prop :=
  cityGroupRef s
  = Some (if (zoom s >=? 4)%Z then plannedCities (zoom s) (selected s) else [])
  /\ exists places,
       placeGroupRef s = Some places
       /\ map onClick places = (if (zoom s >=? 10)%Z then allPlaces else [])
       /\ Forall (labelled_as_planned (zoom s)) places.

(** What one event can do to the markers: rebuild both groups by the
    effect; leave them, with the zoom and the selection; or restyle one
    place marker. *)
Inductive marker_move `{Imports} (s : State) : State -> Prop :=
  | markers_rebuilt s0 :
      cityGroupRef s0 = cityGroupRef s -> placeGroupRef s0 = placeGroupRef s ->
      marker_move s (markerEffect s0)
  | markers_kept s' :
      zoom s' = zoom s -> selected s' = selected s ->
      cityGroupRef s' = cityGroupRef s -> placeGroupRef s' = placeGroupRef s ->
      marker_move s s'
  | markers_hovered f k :
      (forall m, onClick (f m) = onClick m
                 /\ markerTooltip (f m) = markerTooltip m) ->
      marker_move s (onPlaceHover f k s).

(** ** Shapes of geometries *)

(** A ring with every longitude forgotten, and a geometry likewise: what is
    left is the kind, the number of polygons and rings, the number of points
    of each ring and the latitudes. *)
Definition ringSkeleton (ring : list Position) : list Position :=
  map (fun p => (0, lat p)) ring.

Definition skeleton (geom : Geometry) : Geometry :=
  match geom with
  | Polygon cs => Polygon (map ringSkeleton cs)
  | MultiPolygon cs => MultiPolygon (map (map ringSkeleton) cs)
  | OtherGeometry => OtherGeometry
  end.

(** All the rings of a geometry. *)
Definition ringsOf (geom : Geometry) : list (list Position) :=
  match geom with
  | Polygon cs => cs
  | MultiPolygon cs => concat cs
  | OtherGeometry => []
  end.

(** The point [q] is the point [p] moved east or west by whole turns: its
    longitude is the sum, as the code adds, of the longitude of [p] and a
    multiple of 360. *)
Definition shifted_by_turns (p q : Position) : Prop :=
  lat q = lat p /\ exists k : Z, lon q = add64 (lon p) (360 * inject_Z k).

(** A ring across the antimeridian, as the boundary data has them: the
    longitudes wrap from 179 to -179 and back. *)
Definition crossing_ring : list Position :=
  [(178, 65); (179, 66); (-179, 66); (-178, 65); (179, 64); (178, 65)].

(** A ring away from the antimeridian, with longitudes that are not whole
    degrees: -73.5, -73.25, -70.125. *)
Definition plain_ring : list Position :=
  [(-147 # 2, 45); (-293 # 4, 46); (-561 # 8, 46); (-561 # 8, 45);
   (-147 # 2, 45)].

(** ** The geometry layer, summarised *)

(** The drawable that [L.geoJSON] makes for a feature, once [onEachFeature]
    has seen it. *)
Definition drawableOf `{Imports} (f : Feature) : Path :=
  {| options := countryStyle (countryMap !! feature_id f);
     pathCountry := countryMap !! feature_id f;
     pathTooltip :=
       (fun co =>
          {| content := "r/" +:+ country_subreddit co; permanent := false;
             sticky := true; direction := "top"; offset := Some (0, -8);
             className := "subreddit-tooltip" |})
       <$> countryMap !! feature_id f;
     pathGeometry := feature_geometry f |}.

(** The registry once the drawable [layer] of the feature [f] is
    registered. *)
Definition registered `{Imports} (f : Feature) (layer : nat)
    (registry : gmap string nat) : gmap string nat :=
  match countryMap !! feature_id f with
  | Some co =>
      <[strippedId (country_id co) := layer]>
        (<[country_id co := layer]> registry)
  | None => registry
  end.

(** What one handler (or one feature of the geometry load) does to the
    drawables, their stacking order, the stored reference and the registry:
    nothing; add the drawable of a feature on top; hover styles on a
    registered drawable that is not the stored one, raising it; restore the
    stored drawable and forget it; or select a registered drawable whose
    country id [countryMap] knows. *)
Inductive surface_move `{Imports} (s s' : State) : Prop :=
  | surface_kept :
      selectedLayerRef s' = selectedLayerRef s -> layers s' = layers s ->
      front s' = front s -> countryLayersRef s' = countryLayersRef s ->
      surface_move s s'
  | surface_added f :
      selectedLayerRef s' = selectedLayerRef s ->
      layers s' = layers s ++ [drawableOf f] ->
      front s' = front s ++ [length (layers s)] ->
      countryLayersRef s'
      = registered f (length (layers s)) (countryLayersRef s) ->
      surface_move s s'
  | surface_over l p co :
      layers s !! l = Some p -> pathCountry p = Some co ->
      selectedLayerRef s' = selectedLayerRef s ->
      layers s'
      = (if bool_decide (selectedLayerRef s <> Some l)
         then alter (restyle hoverStyle) l (layers s) else layers s) ->
      front s' = filter (fun h => h <> l) (front s) ++ [l] ->
      countryLayersRef s' = countryLayersRef s ->
      surface_move s s'
  | surface_out l p co :
      layers s !! l = Some p -> pathCountry p = Some co ->
      selectedLayerRef s' = selectedLayerRef s ->
      layers s'
      = (if bool_decide (selectedLayerRef s <> Some l)
         then alter (restyle restoreStyle) l (layers s) else layers s) ->
      front s' = front s -> countryLayersRef s' = countryLayersRef s ->
      surface_move s s'
  | surface_reset :
      selectedLayerRef s' = None ->
      layers s'
      = match selectedLayerRef s with
        | Some old => alter (restyle restoreStyle) old (layers s)
        | None => layers s
        end ->
      front s' = front s -> countryLayersRef s' = countryLayersRef s ->
      surface_move s s'
  | surface_selected l p co co' :
      layers s !! l = Some p -> pathCountry p = Some co ->
      countryMap !! country_id co = Some co' ->
      selectedLayerRef s' = Some l ->
      layers s'
      = alter (restyle highlightStyle) l
          (match selectedLayerRef s with
           | Some old =>
               if bool_decide (old <> l)
               then alter (restyle restoreStyle) old (layers s) else layers s
           | None => layers s
           end) ->
      front s' = front s -> countryLayersRef s' = countryLayersRef s ->
      surface_move s s'.

(** Every entry of the registry leads to a drawable of a country that
    has the key as its id, as written or stripped of leading zeros; and
    every registered drawable's country has both spellings in the
    registry. *)
Definition registry_inv (s : State) : Prop :=
  (forall key layer, countryLayersRef s !! key = Some layer ->
     exists p co,
       layers s !! layer = Some p /\ pathCountry p = Some co
       /\ (key = country_id co \/ key = strippedId (country_id co)))
  /\ (forall layer p co,
        layers s !! layer = Some p -> pathCountry p = Some co ->
        is_Some (countryLayersRef s !! country_id co)
        /\ is_Some (countryLayersRef s !! strippedId (country_id co))).

(** The style of a drawable: the colours it was created with; nothing to
    see for a feature outside the dataset; the default, hover or highlight
    opacity and weight for a feature of the dataset. *)
Definition style_ok (p : Path) : Prop :=
  fillColor (options p) = fillColor (countryStyle (pathCountry p))
  /\ color (options p) = color (countryStyle (pathCountry p))
  /\ match pathCountry p with
     | None => fillOpacity (options p) = 0 /\ weight (options p) = 0
     | Some _ =>
         (fillOpacity (options p) = 0.08 /\ weight (options p) = 1)
         \/ (fillOpacity (options p) = 0.3 /\ weight (options p) = 1.5)
         \/ (fillOpacity (options p) = 0.2 /\ weight (options p) = 2)
     end.

(** The stored reference is a registered drawable whose country id
    [countryMap] knows. *)
Definition stored_registered `{Imports} (s : State) : Prop :=
  forall l, selectedLayerRef s = Some l ->
    exists p co,
      layers s !! l = Some p /\ pathCountry p = Some co
      /\ is_Some (countryMap !! country_id co).

(** A click on a marker or on a button of the panel's lists. *)
Definition drillDown (e : Event) : bool := negb (drawableOp e).

(** ** The groups the effect builds *)

(** [cityGroup] and [placeGroup] after the effect has run at zoom [z] with
    the selection [sel]. *)
Definition builtCities `{Imports} (z : Z) (sel : Selected) : list CircleMarker :=
  if (z >=? 4)%Z then cityLoop z sel [] else [].

Definition builtPlaces `{Imports} (z : Z) (sel : Selected) : list CircleMarker :=
  if (z >=? 10)%Z then placeLoop z sel [] else [].

(** Country ids are unique in the dataset, and city names within each
    country. *)
Definition unique_cities `{Imports} : Prop :=
  NoDup (map country_id countrySubreddits)
  /\ forall co, In co countrySubreddits ->
       NoDup (map city_name (country_cities co)).

(** The country id and the city name a marker was built from. *)
Definition cityKey (m : CircleMarker) : string * string :=
  match onClick m with
  | ClickCity co ci => (country_id co, city_name ci)
  | ClickPlace co ci _ => (country_id co, city_name ci)
  end.

(** ** InfoPanel: the header *)

(** [place ?? city ?? country], the entity the panel shows. *)
Inductive Entity : Type :=
  | PlaceEntity (pl : PlaceSubreddit)
  | CityEntity (ci : CitySubreddit)
  | CountryEntity (co : CountrySubreddit).

Definition entity_name (e : Entity) : string :=
  match e with
  | PlaceEntity pl => place_name pl
  | CityEntity ci => city_name ci
  | CountryEntity co => country_name co
  end.

Definition active (sel : Selected) : option Entity :=
  match place sel with
  | Some pl => Some (PlaceEntity pl)
  | None =>
      match city sel with
      | Some ci => Some (CityEntity ci)
      | None => CountryEntity <$> country sel
      end
  end.

(** [!!country] *)
Definition isOpen (sel : Selected) : bool :=
  match country sel with Some _ => true | None => false end.

(** [place ? city?.name : city ? country?.name : "World"]; [None] is
    [undefined]. *)
Definition backLabel (sel : Selected) : option string :=
  match place sel with
  | Some _ => city_name <$> city sel
  | None =>
      match city sel with
      | Some _ => country_name <$> country sel
      | None => Some "World"
      end
  end.

(* ================================================================== *)
(** * Properties *)
(* ================================================================== *)

(** ** Numbers *)

Lemma Qgtb_spec a b : Qgtb a b = true <-> b < a.
Proof.
  unfold Qgtb. rewrite negb_true_iff, <- not_true_iff_false, Qle_bool_iff.
  split; [apply Qnot_le_lt | apply Qlt_not_le].
Qed.

Lemma Qltb_spec a b : Qltb a b = true <-> a < b.
Proof. unfold Qltb. apply (Qgtb_spec b a). Qed.

Lemma Qgtb_false a b : Qgtb a b = false <-> a <= b.
Proof.
  unfold Qgtb. rewrite negb_false_iff. apply Qle_bool_iff.
Qed.

Lemma Qltb_false a b : Qltb a b = false <-> b <= a.
Proof. unfold Qltb. apply (Qgtb_false b a). Qed.

(** *** Powers of two *)

Lemma pow2_pos e : 0 < pow2 e.
Proof. apply Qpower_0_lt. reflexivity. Qed.

Lemma pow2_plus a b : pow2 (a + b) == pow2 a * pow2 b.
Proof. apply Qpower_plus. discriminate. Qed.

Lemma pow2_minus a b : pow2 (a - b) == pow2 a / pow2 b.
Proof. apply Qpower_minus. discriminate. Qed.

Lemma pow2_le a b : (a <= b)%Z -> pow2 a <= pow2 b.
Proof. intros H. apply Qpower_le_compat_l; [exact H | discriminate]. Qed.

Lemma pow2_lt_inv a b : pow2 a < pow2 b -> (a < b)%Z.
Proof. intros H. apply (Qpower_lt_compat_l_inv 2); [exact H | reflexivity]. Qed.

Lemma pow2_Z e : (0 <= e)%Z -> pow2 e == inject_Z (2 ^ e).
Proof. intros H. unfold pow2. now rewrite Zpower_Qpower. Qed.

Lemma pow2_scale e : pow2 e == pow2 52 * pow2 (e - 52).
Proof. rewrite pow2_minus. field. pose proof (pow2_pos 52). lra. Qed.

(** Below [2^52] the spacing of the binary64 numbers is the inverse of an
    integer. *)
Lemma pow2_spacing (e : Z) :
  (e <= 52)%Z -> / pow2 (e - 52) == inject_Z (2 ^ (52 - e)).
Proof.
  intros He. rewrite <- pow2_Z by lia. unfold pow2.
  rewrite <- Qpower_opp. now replace (- (e - 52))%Z with (52 - e)%Z by lia.
Qed.

(** *** The exponent *)

Lemma log2_bounds (n : Z) :
  (0 < n)%Z ->
  pow2 (Z.log2 n) <= inject_Z n < pow2 (Z.log2 n + 1).
Proof.
  intros Hn. destruct (Z.log2_spec n Hn) as [Hlo Hhi].
  pose proof (Z.log2_nonneg n) as H0.
  rewrite !pow2_Z by lia. rewrite <- Zle_Qle, <- Zlt_Qlt.
  replace (Z.log2 n + 1)%Z with (Z.succ (Z.log2 n)) by lia. split; assumption.
Qed.

Lemma exponent_spec (x : Q) :
  ~ x == 0 -> pow2 (exponent x) <= Qabs x < pow2 (exponent x + 1).
Proof.
  intros Hx. destruct x as [n d].
  assert (Hn : (0 < Z.abs n)%Z).
  { destruct n; [exfalso; apply Hx; reflexivity | reflexivity | reflexivity]. }
  unfold exponent. cbn [Qnum Qden].
  set (ln := Z.log2 (Z.abs n)). set (ld := Z.log2 (Zpos d)).
  destruct (log2_bounds (Z.abs n) Hn) as [Hn1 Hn2]. fold ln in Hn1, Hn2.
  destruct (log2_bounds (Zpos d) eq_refl) as [Hd1 Hd2]. fold ld in Hd1, Hd2.
  assert (Habs : Qabs (n # d) == inject_Z (Z.abs n) / inject_Z (Zpos d)).
  { unfold Qabs. apply Qmake_Qdiv. }
  assert (HD : 0 < inject_Z (Zpos d)) by reflexivity.
  pose proof (pow2_pos ld) as Pld. pose proof (pow2_pos ln) as Pln.
  assert (Hup : Qabs (n # d) < pow2 (ln - ld + 1)).
  { rewrite Habs. apply Qlt_shift_div_r; [exact HD|].
    replace (ln - ld + 1)%Z with ((ln + 1) - ld)%Z by lia.
    rewrite pow2_minus.
    pose proof (pow2_pos (ln + 1)) as Pln1.
    assert (Hq : 1 <= inject_Z (Zpos d) / pow2 ld)
      by (apply Qle_shift_div_l; [exact Pld | lra]).
    setoid_replace (pow2 (ln + 1) / pow2 ld * inject_Z (Z.pos d))
      with (pow2 (ln + 1) * (inject_Z (Zpos d) / pow2 ld))
      using relation Qeq by (field; lra).
    nra. }
  assert (Hlow : pow2 (ln - ld - 1) <= Qabs (n # d)).
  { rewrite Habs. apply Qle_shift_div_l; [exact HD|].
    replace (ln - ld - 1)%Z with (ln - (ld + 1))%Z by lia.
    rewrite pow2_minus.
    pose proof (pow2_pos (ld + 1)) as Pld1.
    assert (Hq : inject_Z (Zpos d) / pow2 (ld + 1) <= 1)
      by (apply Qle_shift_div_r; [exact Pld1 | lra]).
    setoid_replace (pow2 ln / pow2 (ld + 1) * inject_Z (Z.pos d))
      with (pow2 ln * (inject_Z (Zpos d) / pow2 (ld + 1)))
      using relation Qeq by (field; lra).
    nra. }
  destruct (Qle_bool (pow2 (ln - ld)) (Qabs (n # d))) eqn:E.
  - apply Qle_bool_iff in E. split; assumption.
  - split; [exact Hlow|].
    replace (ln - ld - 1 + 1)%Z with (ln - ld)%Z by lia.
    apply Qnot_le_lt. intros H. apply Qle_bool_iff in H. congruence.
Qed.

(** *** The nearest integer *)

Lemma nearest_even_comp (x y : Q) : x == y -> nearest_even x = nearest_even y.
Proof.
  intros H. unfold nearest_even. rewrite (Qfloor_comp x y H).
  assert (E : (x - inject_Z (Qfloor y) ?= 1 # 2) = (y - inject_Z (Qfloor y) ?= 1 # 2))
    by now rewrite H.
  now rewrite E.
Qed.

Lemma nearest_even_cases (y : Q) :
  (nearest_even y = Qfloor y /\ y - inject_Z (Qfloor y) <= 1 # 2)
  \/ (nearest_even y = (Qfloor y + 1)%Z /\ 1 # 2 <= y - inject_Z (Qfloor y)).
Proof.
  unfold nearest_even.
  destruct (y - inject_Z (Qfloor y) ?= 1 # 2) eqn:E.
  - apply Qeq_alt in E. destruct (Z.even (Qfloor y)); [left | right]; split;
      try reflexivity; lra.
  - apply Qlt_alt in E. left. split; [reflexivity | lra].
  - apply Qgt_alt in E. right. split; [reflexivity | lra].
Qed.

Lemma nearest_even_error (y : Q) :
  Qabs (inject_Z (nearest_even y) - y) <= 1 # 2.
Proof.
  pose proof (Qfloor_le y) as Hlo. pose proof (Qlt_floor y) as Hhi.
  rewrite inject_Z_plus in Hhi. change (inject_Z 1) with 1 in Hhi.
  apply Qabs_Qle_condition.
  destruct (nearest_even_cases y) as [[-> H]|[-> H]].
  - lra.
  - rewrite inject_Z_plus. change (inject_Z 1) with 1. lra.
Qed.

Lemma nearest_even_le (y : Q) (c : Z) :
  y <= inject_Z c -> (nearest_even y <= c)%Z.
Proof.
  intros Hy. pose proof (Qfloor_le y) as Hlo.
  destruct (nearest_even_cases y) as [[-> H]|[-> H]].
  - rewrite Zle_Qle. lra.
  - assert (Hc : (Qfloor y < c)%Z) by (rewrite Zlt_Qlt; lra). lia.
Qed.

Lemma nearest_even_ge (y : Q) (c : Z) :
  inject_Z c <= y -> (c <= nearest_even y)%Z.
Proof.
  intros Hy. pose proof (Qlt_floor y) as Hhi.
  assert (Hc : (c < Qfloor y + 1)%Z) by (rewrite Zlt_Qlt; lra).
  destruct (nearest_even_cases y) as [[-> H]|[-> H]]; lia.
Qed.

Lemma nearest_even_Z (z : Z) : nearest_even (inject_Z z) = z.
Proof.
  apply Z.le_antisymm.
  - apply nearest_even_le, Qle_refl.
  - apply nearest_even_ge, Qle_refl.
Qed.

(** *** The rounding *)

Lemma round64_comp (x y : Q) : x == y -> round64 x = round64 y.
Proof. intros H. unfold round64. now rewrite (Qred_complete x y H). Qed.

Lemma round64_canonical (x : Q) : Qred (round64 x) = round64 x.
Proof. unfold round64. apply Qcanon.Qred_involutive. Qed.

Lemma round64_eq (x y : Q) : round64 x == y -> Qred y = y -> round64 x = y.
Proof.
  intros H Hy. rewrite <- (round64_canonical x), <- Hy. now apply Qred_complete.
Qed.

Lemma round64_zero (x : Q) : x == 0 -> round64 x = 0.
Proof. intros H. now rewrite (round64_comp x 0 H). Qed.

(** The rounding, unfolded: [e] is the exponent of [x], [2^(e-52)] the
    spacing of the binary64 numbers around [x], [m] the mantissa of the
    result. *)
Lemma round64_unfold (x : Q) :
  ~ x == 0 ->
  exists (e m : Z),
    pow2 e <= Qabs x < pow2 (e + 1)
    /\ m = nearest_even (x / pow2 (e - 52))
    /\ round64 x == inject_Z m * pow2 (e - 52).
Proof.
  intros Hx.
  exists (exponent (Qred x)),
         (nearest_even (Qred x / pow2 (exponent (Qred x) - 52))).
  split; [|split].
  - assert (Ha : Qabs (Qred x) == Qabs x) by (apply Qabs_wd, Qred_correct).
    rewrite <- Ha. apply exponent_spec.
    intros H. apply Hx. rewrite <- H. symmetry. apply Qred_correct.
  - apply nearest_even_comp. apply Qmult_comp; [apply Qred_correct | reflexivity].
  - unfold round64. apply Qred_correct.
Qed.

(** The rounding error is at most half a unit in the last place. *)
Lemma round64_error (x : Q) : Qabs (round64 x - x) <= Qabs x * (1 # 2 ^ 53).
Proof.
  destruct (Qeq_dec x 0) as [Hx|Hx].
  - rewrite (round64_zero x Hx), Hx. discriminate.
  - destruct (round64_unfold x Hx) as (e & m & [Hlo Hhi] & Hm & Hr).
    rewrite (pow2_scale e) in Hlo.
    set (u := pow2 (e - 52)) in *.
    assert (Hu : 0 < u) by apply pow2_pos.
    pose proof (nearest_even_error (x / u)) as Herr. rewrite <- Hm in Herr.
    assert (Hd : round64 x - x == (inject_Z m - x / u) * u).
    { rewrite Hr. field. lra. }
    rewrite Hd, Qabs_Qmult, (Qabs_pos u) by lra.
    assert (Hb : Qabs (inject_Z m - x / u) * u <= (1 # 2) * u).
    { apply Qmult_le_compat_r; lra. }
    change (1 # 2 ^ 53) with ((1 # 2) * / pow2 52).
    pose proof (pow2_pos 52) as H52.
    assert (Hx' : u <= Qabs x * / pow2 52).
    { apply Qle_shift_div_l; [exact H52 | lra]. }
    lra.
Qed.

Lemma round64_near (x bound : Q) :
  Qabs x <= bound -> Qabs (round64 x - x) <= bound * (1 # 2 ^ 53).
Proof.
  intros H. apply Qle_trans with (Qabs x * (1 # 2 ^ 53)); [apply round64_error|].
  apply Qmult_le_compat_r; [exact H | discriminate].
Qed.

(** Rounding does not cross an integer below [2^53]: every such integer is
    a binary64 number. *)
Lemma round64_le_Z (x : Q) (c : Z) :
  (Z.abs c < 2 ^ 53)%Z -> x <= inject_Z c -> round64 x <= inject_Z c.
Proof.
  intros Hc Hxc.
  destruct (Qeq_dec x 0) as [Hx|Hx].
  { rewrite (round64_zero x Hx). now rewrite <- Hx. }
  destruct (round64_unfold x Hx) as (e & m & [Hlo Hhi] & Hm & Hr).
  pose proof (pow2_scale e) as He'.
  set (u := pow2 (e - 52)) in *.
  assert (Hu : 0 < u) by apply pow2_pos.
  rewrite Hr.
  destruct (Z_le_gt_dec e 52) as [He|He].
  - assert (Hcu : inject_Z c / u == inject_Z (c * 2 ^ (52 - e))).
    { rewrite inject_Z_mult, <- (pow2_spacing e He). reflexivity. }
    assert (Hm' : (m <= c * 2 ^ (52 - e))%Z).
    { rewrite Hm. apply nearest_even_le. rewrite <- Hcu.
      apply Qmult_le_compat_r; [exact Hxc|]. apply Qlt_le_weak, Qinv_lt_0_compat, Hu. }
    rewrite Zle_Qle, <- Hcu in Hm'.
    assert (Hc2 : inject_Z c / u * u == inject_Z c) by (field; lra).
    rewrite <- Hc2. apply Qmult_le_compat_r; lra.
  - assert (H53 : pow2 53 <= pow2 e) by (apply pow2_le; lia).
    assert (Hc' : - pow2 53 < inject_Z c < pow2 53).
    { rewrite pow2_Z by lia. rewrite <- inject_Z_opp, <- !Zlt_Qlt. lia. }
    assert (Hneg : x <= - pow2 e).
    { revert Hlo. apply Qabs_case; intros; lra. }
    assert (Hm' : (m <= - 2 ^ 52)%Z).
    { rewrite Hm. apply nearest_even_le. rewrite inject_Z_opp, <- pow2_Z by lia.
      apply Qle_shift_div_r; [exact Hu|]. lra. }
    rewrite Zle_Qle, inject_Z_opp, <- pow2_Z in Hm' by lia.
    assert (inject_Z m * u <= - pow2 52 * u) by (apply Qmult_le_compat_r; lra).
    lra.
Qed.

Lemma round64_ge_Z (x : Q) (c : Z) :
  (Z.abs c < 2 ^ 53)%Z -> inject_Z c <= x -> inject_Z c <= round64 x.
Proof.
  intros Hc Hxc.
  destruct (Qeq_dec x 0) as [Hx|Hx].
  { rewrite (round64_zero x Hx). now rewrite <- Hx. }
  destruct (round64_unfold x Hx) as (e & m & [Hlo Hhi] & Hm & Hr).
  pose proof (pow2_scale e) as He'.
  set (u := pow2 (e - 52)) in *.
  assert (Hu : 0 < u) by apply pow2_pos.
  rewrite Hr.
  destruct (Z_le_gt_dec e 52) as [He|He].
  - assert (Hcu : inject_Z c / u == inject_Z (c * 2 ^ (52 - e))).
    { rewrite inject_Z_mult, <- (pow2_spacing e He). reflexivity. }
    assert (Hm' : (c * 2 ^ (52 - e) <= m)%Z).
    { rewrite Hm. apply nearest_even_ge. rewrite <- Hcu.
      apply Qmult_le_compat_r; [exact Hxc|]. apply Qlt_le_weak, Qinv_lt_0_compat, Hu. }
    rewrite Zle_Qle, <- Hcu in Hm'.
    assert (Hc2 : inject_Z c / u * u == inject_Z c) by (field; lra).
    rewrite <- Hc2. apply Qmult_le_compat_r; lra.
  - assert (H53 : pow2 53 <= pow2 e) by (apply pow2_le; lia).
    assert (Hc' : - pow2 53 < inject_Z c < pow2 53).
    { rewrite pow2_Z by lia. rewrite <- inject_Z_opp, <- !Zlt_Qlt. lia. }
    assert (Hpos : pow2 e <= x).
    { revert Hlo. apply Qabs_case; intros; lra. }
    assert (Hm' : (2 ^ 52 <= m)%Z).
    { rewrite Hm. apply nearest_even_ge. rewrite <- pow2_Z by lia.
      apply Qle_shift_div_l; [exact Hu|]. lra. }
    rewrite Zle_Qle, <- pow2_Z in Hm' by lia.
    assert (pow2 52 * u <= inject_Z m * u) by (apply Qmult_le_compat_r; lra).
    lra.
Qed.

(** A mantissa of 53 bits times a power of two is a binary64 number. *)
Lemma round64_grid (m t : Z) :
  (Z.abs m < 2 ^ 53)%Z ->
  round64 (inject_Z m * pow2 t) == inject_Z m * pow2 t.
Proof.
  intros Hm. set (y := inject_Z m * pow2 t).
  pose proof (pow2_pos t) as Ht.
  destruct (Qeq_dec y 0) as [Hy|Hy].
  { rewrite (round64_zero y Hy). now rewrite Hy. }
  destruct (round64_unfold y Hy) as (e & m' & [Hlo Hhi] & Hm' & Hr).
  assert (Habs : Qabs y == inject_Z (Z.abs m) * pow2 t).
  { unfold y. rewrite Qabs_Qmult, (Qabs_pos (pow2 t)) by lra.
    apply Qmult_comp; [|reflexivity]. unfold Qabs, inject_Z. reflexivity. }
  assert (He : (e < 53 + t)%Z).
  { apply pow2_lt_inv. apply Qle_lt_trans with (Qabs y); [exact Hlo|].
    rewrite Habs, pow2_plus. apply Qmult_lt_compat_r; [exact Ht|].
    rewrite pow2_Z by lia. rewrite <- Zlt_Qlt. exact Hm. }
  set (s := (52 + t - e)%Z).
  assert (Hs : pow2 t == inject_Z (2 ^ s) * pow2 (e - 52)).
  { rewrite <- pow2_Z by lia. rewrite <- pow2_plus.
    now replace (s + (e - 52))%Z with t by lia. }
  pose proof (pow2_pos (e - 52)) as Hu.
  assert (Hq : y / pow2 (e - 52) == inject_Z (m * 2 ^ s)).
  { unfold y. rewrite Hs, inject_Z_mult. field. lra. }
  rewrite (nearest_even_comp _ _ Hq), nearest_even_Z in Hm'.
  rewrite Hr, Hm', inject_Z_mult. unfold y. rewrite Hs. ring.
Qed.

(** Rounding twice is rounding once: the result of an operation is a
    binary64 number. *)
Lemma round64_idempotent (x : Q) : round64 (round64 x) = round64 x.
Proof.
  apply round64_eq; [|apply round64_canonical].
  destruct (Qeq_dec x 0) as [Hx|Hx].
  { now rewrite (round64_zero x Hx). }
  destruct (round64_unfold x Hx) as (e & m & [Hlo Hhi] & Hm & Hr).
  replace (e + 1)%Z with (53 + (e - 52))%Z in Hhi by lia.
  rewrite pow2_plus in Hhi. rewrite (pow2_scale e) in Hlo.
  set (u := pow2 (e - 52)) in *.
  assert (Hu : 0 < u) by apply pow2_pos.
  assert (Hxu : - pow2 53 <= x / u <= pow2 53).
  { assert (Hx' : x / u * u == x) by (field; lra).
    assert (Ha' : Qabs (x / u) * u == Qabs x).
    { transitivity (Qabs (x / u * u)); [|apply Qabs_wd, Hx'].
      rewrite Qabs_Qmult, (Qabs_pos u) by lra. reflexivity. }
    assert (Ha : Qabs (x / u) * u <= pow2 53 * u) by lra.
    assert (Hb : Qabs (x / u) <= pow2 53).
    { apply Qmult_le_r with (z := u); assumption. }
    now apply Qabs_Qle_condition. }
  rewrite pow2_Z, <- inject_Z_opp in Hxu by lia.
  assert (Hm1 : (m <= 2 ^ 53)%Z) by (rewrite Hm; apply nearest_even_le, Hxu).
  assert (Hm2 : (- 2 ^ 53 <= m)%Z) by (rewrite Hm; apply nearest_even_ge, Hxu).
  assert (Hcase : (Z.abs m < 2 ^ 53)%Z \/ (m = 2 * 2 ^ 52)%Z \/ (m = 2 * - 2 ^ 52)%Z)
    by lia.
  assert (Hu2 : pow2 (e - 51) == 2 * u).
  { replace (e - 51)%Z with (1 + (e - 52))%Z by lia. now rewrite pow2_plus. }
  destruct Hcase as [Hc | [-> | ->]].
  - rewrite (round64_comp _ _ Hr). rewrite Hr. now apply round64_grid.
  - assert (Hr' : round64 x == inject_Z (2 ^ 52) * pow2 (e - 51)).
    { rewrite Hr, Hu2, inject_Z_mult. change (inject_Z 2) with 2. ring. }
    rewrite (round64_comp _ _ Hr'). rewrite Hr'. now apply round64_grid.
  - assert (Hr' : round64 x == inject_Z (- 2 ^ 52) * pow2 (e - 51)).
    { rewrite Hr, Hu2, inject_Z_mult. change (inject_Z 2) with 2. ring. }
    rewrite (round64_comp _ _ Hr'). rewrite Hr'. now apply round64_grid.
Qed.

(** Integers below [2^53] are binary64 numbers. *)
Lemma round64_Z (z : Z) :
  (Z.abs z < 2 ^ 53)%Z -> round64 (inject_Z z) = inject_Z z.
Proof.
  intros Hz. apply round64_eq.
  - apply Qle_antisym.
    + apply round64_le_Z; [exact Hz | apply Qle_refl].
    + apply round64_ge_Z; [exact Hz | apply Qle_refl].
  - apply Qcanon.Qred_identity. simpl. apply Z.gcd_1_r.
Qed.

(** ** The antimeridian correction *)

Lemma at_app_middle (pre : list Position) p rest :
  at_ (pre ++ p :: rest) (length pre) = p.
Proof. unfold at_. rewrite app_nth2, Nat.sub_diag by lia. reflexivity. Qed.

(** The loop of [makeContinuous], started at index [length pre + 1] with
    [ring[length pre] = p], appends the corrected tail to [out]. *)
Lemma makeContinuous_loop rest : forall pre p offset out,
  snd (fold_left (makeContinuous_body (pre ++ p :: rest))
         (seq (S (length pre)) (length rest)) (offset, out))
  = out ++ corrected_tail (lon p) offset rest.
Proof.
  induction rest as [|q rest IH]; intros pre p offset out; simpl.
  - now rewrite app_nil_r.
  - replace (length pre - 0)%nat with (length pre) by lia.
    rewrite at_app_middle.
    replace (pre ++ p :: q :: rest) with ((pre ++ [p]) ++ q :: rest)
      by now rewrite <- app_assoc.
    replace (S (length pre)) with (length (pre ++ [p]))
      by (rewrite length_app; simpl; lia).
    rewrite at_app_middle.
    fold (next_offset offset (sub64 (lon q) (lon p))).
    rewrite IH, <- app_assoc. reflexivity.
Qed.

Lemma makeContinuous_eq_ref ring : makeContinuous ring = makeContinuous_ref ring.
Proof.
  destruct ring as [|p0 [|q rest]]; try reflexivity.
  unfold makeContinuous. cbn [length Nat.ltb Nat.leb Nat.sub].
  change (p0 :: q :: rest) with ([] ++ p0 :: q :: rest) at 1.
  change (S (length rest)) with (length (q :: rest)).
  change 1%nat with (S (length (@nil Position))).
  rewrite makeContinuous_loop. reflexivity.
Qed.

(** The running offset is a whole number of turns, and exact: a multiple of
    360 below [2^53] is a binary64 number. *)
Lemma next_offset_turns (z : Z) (d : Q) :
  (Z.abs z + 360 < 2 ^ 53)%Z ->
  exists z' : Z,
    next_offset (inject_Z z) d = inject_Z z'
    /\ ((z' = z - 360)%Z /\ 180 < d
        \/ (z' = z + 360)%Z /\ d < -180
        \/ z' = z /\ -180 <= d <= 180).
Proof.
  intros Hz. unfold next_offset.
  destruct (Qgtb d 180) eqn:Hgt; [|destruct (Qltb d (-180)) eqn:Hlt].
  - exists (z - 360)%Z. split.
    + unfold sub64. rewrite <- (round64_Z (z - 360)) by lia. apply round64_comp.
      unfold Z.sub. rewrite inject_Z_plus. reflexivity.
    + left. split; [reflexivity | now apply Qgtb_spec].
  - exists (z + 360)%Z. split.
    + unfold add64. rewrite <- (round64_Z (z + 360)) by lia. apply round64_comp.
      rewrite inject_Z_plus. reflexivity.
    + right. left. split; [reflexivity | now apply Qltb_spec].
  - exists z. split; [reflexivity|]. right. right. split; [reflexivity|].
    apply Qgtb_false in Hgt. apply Qltb_false in Hlt. split; assumption.
Qed.

Lemma Zabs_bound_Q (z b : Z) :
  (Z.abs z <= 360 * b)%Z ->
  - (360 * inject_Z b) <= inject_Z z <= 360 * inject_Z b.
Proof.
  intros H.
  change 360 with (inject_Z 360). rewrite <- inject_Z_mult, <- inject_Z_opp.
  rewrite <- !Zle_Qle. lia.
Qed.

(** The corrected points after the first: with the running offset [z] at
    most [b] turns, the output [prev_out] of the point before within
    [rounding_unit B] of its exact place, and every raw longitude in
    [-180, 180], each consecutive difference of the outputs is within 180,
    up to three roundings. *)
Lemma corrected_tail_near (B : Z) (rest : list Position) :
  (B <= 2 ^ 32)%Z ->
  forall (prev prev_out : Q) (z b : Z),
    (Z.abs z <= 360 * b)%Z -> (0 <= b)%Z ->
    (b + Z.of_nat (length rest) <= B)%Z ->
    -180 <= prev <= 180 ->
    (forall p, In p rest -> -180 <= lon p <= 180) ->
    Qabs (prev_out - (prev + inject_Z z)) <= rounding_unit B ->
    Forall (fun d => Qabs d <= 180 + 360 * (1 # 2 ^ 53) + 2 * rounding_unit B)
      (jumps prev_out (corrected_tail prev (inject_Z z) rest)).
Proof.
  intros HB32.
  induction rest as [|p rest IH]; intros prev prev_out z b Hz Hb HB Hprev Hrest Hout;
    cbn [corrected_tail jumps]; [constructor|].
  assert (Hp : -180 <= lon p <= 180) by (apply Hrest; now left).
  cbn [length] in HB. rewrite Nat2Z.inj_succ in HB.
  destruct (next_offset_turns z (sub64 (lon p) prev)) as (z' & -> & Hcase); [lia|].
  pose proof (round64_near (lon p - prev) 360
                ltac:(apply Qabs_Qle_condition; lra)) as Hd.
  fold (sub64 (lon p) prev) in Hd.
  assert (Hz' : (Z.abs z' <= 360 * (b + 1))%Z) by lia.
  pose proof (Zabs_bound_Q z b Hz) as Hzq.
  pose proof (Zabs_bound_Q z' (b + 1) Hz') as Hzq'.
  rewrite inject_Z_plus in Hzq'. change (inject_Z 1) with 1 in Hzq'.
  assert (HbB : inject_Z b + 1 <= inject_Z B).
  { change 1 with (inject_Z 1). rewrite <- inject_Z_plus, <- Zle_Qle. lia. }
  pose proof (round64_near (lon p + inject_Z z') (180 + 360 * inject_Z B)
                ltac:(apply Qabs_Qle_condition; lra)) as Ho.
  fold (add64 (lon p) (inject_Z z')) in Ho. fold (rounding_unit B) in Ho.
  assert (Hstep : inject_Z z' - inject_Z z == -360 /\ 180 < sub64 (lon p) prev
                  \/ inject_Z z' - inject_Z z == 360 /\ sub64 (lon p) prev < -180
                  \/ inject_Z z' - inject_Z z == 0 /\ -180 <= sub64 (lon p) prev <= 180).
  { destruct Hcase as [[-> H]|[[-> H]|[-> H]]]; [left | right; left | right; right];
      (split; [|exact H]).
    - unfold Z.sub. rewrite inject_Z_plus, inject_Z_opp.
      change (inject_Z 360) with 360. ring.
    - rewrite inject_Z_plus. change (inject_Z 360) with 360. ring.
    - ring. }
  constructor.
  - unfold lon at 1. cbn [fst]. unfold rounding_unit in *.
    apply Qabs_Qle_condition in Hd, Ho, Hout.
    apply Qabs_Qle_condition.
    destruct Hstep as [[Hs H]|[[Hs H]|[Hs H]]]; lra.
  - apply (IH (lon p) _ z' (b + 1)%Z); try assumption; try lia.
    intros q Hq. apply Hrest. now right.
Qed.

(** [jumps_within], read by index as the specification writes it. *)
Lemma jumps_nth l : forall prev i,
  (i < length l)%nat ->
  nth i (jumps prev l) 0
  = lon (at_ (((prev, 0) : Position) :: l) (S i)) - lon (at_ ((prev, 0) :: l) i).
Proof.
  induction l as [|p l IH]; intros prev i Hi; simpl in *; [lia|].
  destruct i as [|i]; [reflexivity|].
  rewrite (IH (lon p) i) by lia.
  unfold at_. simpl. destruct i; reflexivity.
Qed.

Lemma jumps_within_by_index bound ring :
  jumps_within bound ring <->
  forall i, (S i < length ring)%nat ->
    Qabs (lon (at_ ring (S i)) - lon (at_ ring i)) <= bound.
Proof.
  unfold jumps_within. rewrite (Forall_nth _ 0).
  destruct ring as [|[x y] l]; simpl.
  - split; intros; lia.
  - assert (Hlen : forall prev, length (jumps prev l) = length l).
    { induction l as [|p l IH]; intros prev; simpl; [|rewrite IH]; reflexivity. }
    rewrite Hlen. unfold lon at 1. simpl.
    split; intros H i Hi.
    + specialize (H i ltac:(lia)). rewrite jumps_nth in H by lia.
      unfold at_ in *. simpl in *. destruct i; exact H.
    + specialize (H i ltac:(lia)). rewrite (jumps_nth l x i) by lia.
      unfold at_ in *. simpl in *. destruct i; exact H.
Qed.

Lemma continuous_by_index ring :
  continuous ring <->
  forall i, (S i < length ring)%nat ->
    Qabs (lon (at_ ring (S i)) - lon (at_ ring i)) <= 180.
Proof. apply jumps_within_by_index. Qed.

Lemma continuousb_spec ring : continuousb ring = true <-> continuous ring.
Proof.
  unfold continuousb, continuous, jumps_within.
  rewrite forallb_forall, List.Forall_forall.
  split; intros H d Hd; apply Qle_bool_iff, H, Hd.
Qed.

Lemma corrected_tail_length rest : forall prev offset,
  length (corrected_tail prev offset rest) = length rest.
Proof. induction rest as [|p rest IH]; intros; simpl; [|rewrite IH]; reflexivity. Qed.

Lemma corrected_tail_lat rest : forall prev offset,
  map lat (corrected_tail prev offset rest) = map lat rest.
Proof. induction rest as [|p rest IH]; intros; simpl; [|rewrite IH]; reflexivity. Qed.

Lemma rounding_slack_covers (n : Z) :
  (0 <= n)%Z ->
  180 + 360 * (1 # 2 ^ 53) + 2 * rounding_unit n
  <= 180 + (n + 1 # 2 ^ 43).
Proof.
  intros Hn. unfold rounding_unit.
  assert (E : (n + 1 # 2 ^ 43) == (inject_Z n + 1) * (1 # 2 ^ 43)).
  { change (inject_Z n + 1) with (inject_Z n + inject_Z 1).
    rewrite <- inject_Z_plus.
    unfold Qeq, Qmult, inject_Z. cbn [Qnum Qden]. lia. }
  rewrite E. rewrite Zle_Qle in Hn. change (inject_Z 0) with 0 in Hn.
  change (1 # 2 ^ 53) with (1 # 9007199254740992).
  change (1 # 2 ^ 43) with (1 # 8796093022208). lra.
Qed.

(** C1 (as amended): when every input longitude lies in [-180, 180], for
    all consecutive point pairs of the ring returned by [makeContinuous] the
    absolute difference of the longitudes, [|lon[i+1] - lon[i]|], is at
    most 180 up to the rounding of the binary64 additions: at most
    [180 + n / 2^43] for a ring of [n] points (an array holds fewer than
    [2^32]). *)
Theorem makeContinuous_continuous (ring : list Position) :
  (Z.of_nat (length ring) <= 2 ^ 32)%Z ->
  (forall p, In p ring -> -180 <= lon p <= 180) ->
  forall i, (S i < length (makeContinuous ring))%nat ->
    Qabs (lon (at_ (makeContinuous ring) (S i)) - lon (at_ (makeContinuous ring) i))
    <= 180 + rounding_slack (length ring).
Proof.
  intros Hlen Hrange. apply jumps_within_by_index.
  rewrite makeContinuous_eq_ref. unfold jumps_within.
  destruct ring as [|p0 rest]; cbn [makeContinuous_ref lonDiffs]; [constructor|].
  pose proof (corrected_tail_near (Z.of_nat (length rest)) rest
                ltac:(cbn [length] in Hlen; lia)
                (lon p0) (lon p0) 0 0 ltac:(lia) ltac:(lia) ltac:(lia)
                (Hrange p0 (or_introl eq_refl))
                (fun q Hq => Hrange q (or_intror Hq))) as H.
  eapply Forall_impl; [apply H|].
  - pose proof (Hrange p0 (or_introl eq_refl)).
    apply Qabs_Qle_condition. unfold rounding_unit.
    assert (Hn : inject_Z 0 <= inject_Z (Z.of_nat (length rest)))
      by (rewrite <- Zle_Qle; lia).
    change (inject_Z 0) with 0 in *.
    change (1 # 2 ^ 53) with (1 # 9007199254740992). lra.
  - intros d Hd. cbn beta in Hd. eapply Qle_trans; [exact Hd|].
    unfold rounding_slack. cbn [length]. rewrite Nat2Z.inj_succ.
    apply rounding_slack_covers. lia.
Qed.

(** C1 (as stated) fails, in two ways. A raw jump of 1000 degrees is
    shifted by a single turn only, and the corrected ring still jumps by
    640 degrees. And with every longitude a binary64 number of
    [-180, 180], the last raw difference of [rounding_ring], 180 + 2^-46,
    rounds to 180 and is not shifted: the corrected ring is
    [170, 190, 270 - 2^-44, 450] and its last jump is above 180. *)
Lemma makeContinuous_jump_remains :
  (makeContinuous far_jump_ring = [(0, 0); (640, 0)]
   /\ ~ (forall i, (S i < length (makeContinuous far_jump_ring))%nat ->
           Qabs (lon (at_ (makeContinuous far_jump_ring) (S i))
                 - lon (at_ (makeContinuous far_jump_ring) i)) <= 180))
  /\ (binary64_ring rounding_ring
      /\ (forall p, In p rounding_ring -> -180 <= lon p <= 180)
      /\ makeContinuous rounding_ring
         = [(170, 0); (190, 0); (4749890231992319 # 17592186044416, 0); (450, 0)]
      /\ ~ (forall i, (S i < length (makeContinuous rounding_ring))%nat ->
              Qabs (lon (at_ (makeContinuous rounding_ring) (S i))
                    - lon (at_ (makeContinuous rounding_ring) i)) <= 180)).
Proof.
  split; [split|split; [|split; [|split]]].
  - vm_compute; reflexivity.
  - intros H. specialize (H 0%nat). vm_compute in H.
    apply H; [lia | reflexivity].
  - repeat constructor; vm_compute; reflexivity.
  - intros p Hp. simpl in Hp.
    destruct Hp as [<-|[<-|[<-|[<-|[]]]]]; split; vm_compute; discriminate.
  - vm_compute; reflexivity.
  - intros H. specialize (H 2%nat). vm_compute in H.
    apply H; [lia | reflexivity].
Qed.

(** C2: [makeContinuous] is the reference corrector: the first point is
    kept, a running offset starting at 0 is decreased by 360 when the raw
    consecutive difference exceeds 180 and increased by 360 when it is below
    -180, and is added to the longitude of every later point; latitudes and
    the length are kept, rings of fewer than two points are returned
    unchanged, and [[170,10],[-170,10],[170,-10]] is corrected to
    [[170,10],[190,10],[170,-10]]. *)
Theorem makeContinuous_reference :
  (forall ring,
      makeContinuous ring = makeContinuous_ref ring
      /\ length (makeContinuous ring) = length ring
      /\ map lat (makeContinuous ring) = map lat ring
      /\ head (makeContinuous ring) = head ring)
  /\ makeContinuous [] = []
  /\ (forall p, makeContinuous [p] = [p])
  /\ makeContinuous scenario_A_ring = [(170, 10); (190, 10); (170, -10)].
Proof.
  split; [|repeat split; vm_compute; reflexivity].
  intros ring. rewrite makeContinuous_eq_ref.
  destruct ring as [|p0 rest]; simpl; [repeat split|].
  rewrite corrected_tail_length, corrected_tail_lat. repeat split.
Qed.

(** ** The component *)

Section Properties.
Context {imports : Imports}.

(** *** What the marker effect and the setters leave alone *)

Ltac by_groups s :=
  unfold markerEffect; destruct (cityGroupRef s), (placeGroupRef s); reflexivity.

Lemma markerEffect_selected s : selected (markerEffect s) = selected s.
Proof. by_groups s. Qed.

Lemma markerEffect_zoom s : zoom (markerEffect s) = zoom s.
Proof. by_groups s. Qed.

Lemma markerEffect_layers s : layers (markerEffect s) = layers s.
Proof. by_groups s. Qed.

Lemma markerEffect_selectedLayerRef s :
  selectedLayerRef (markerEffect s) = selectedLayerRef s.
Proof. by_groups s. Qed.

Lemma setSelected_selected x s : selected (setSelected x s) = x.
Proof. unfold setSelected. now rewrite markerEffect_selected. Qed.

Lemma setSelected_layers x s : layers (setSelected x s) = layers s.
Proof. unfold setSelected. now rewrite markerEffect_layers. Qed.

Lemma setSelected_selectedLayerRef x s :
  selectedLayerRef (setSelected x s) = selectedLayerRef s.
Proof. unfold setSelected. now rewrite markerEffect_selectedLayerRef. Qed.

Lemma setSelected_zoom x s : zoom (setSelected x s) = zoom s.
Proof. unfold setSelected. now rewrite markerEffect_zoom. Qed.

Lemma resetSelectedLayer_selectedLayerRef s :
  selectedLayerRef (resetSelectedLayer s) = None.
Proof. unfold resetSelectedLayer. destruct (selectedLayerRef s) eqn:E; [reflexivity | exact E]. Qed.

Lemma resetSelectedLayer_layers s :
  layers (resetSelectedLayer s)
  = match selectedLayerRef s with
    | Some layer => alter (restyle restoreStyle) layer (layers s)
    | None => layers s
    end.
Proof. unfold resetSelectedLayer. now destruct (selectedLayerRef s). Qed.

Lemma resetSelectedLayer_selected s :
  selected (resetSelectedLayer s) = selected s.
Proof. unfold resetSelectedLayer. now destruct (selectedLayerRef s). Qed.

Lemma resetSelectedLayer_zoom s : zoom (resetSelectedLayer s) = zoom s.
Proof. unfold resetSelectedLayer. now destruct (selectedLayerRef s). Qed.

Create Rewrite HintDb wm.

Hint Rewrite
  markerEffect_selected markerEffect_zoom markerEffect_layers
  markerEffect_selectedLayerRef
  setSelected_selected setSelected_layers setSelected_selectedLayerRef
  setSelected_zoom
  resetSelectedLayer_selectedLayerRef resetSelectedLayer_layers
  resetSelectedLayer_selected resetSelectedLayer_zoom : wm.

(** *** Navigation *)

Lemma handleBack_from_place s pl :
  place (selected s) = Some pl ->
  handleBack s
  = setSelected {| country := country (selected s);
                   city := city (selected s); place := None |} s.
Proof. intros E. unfold handleBack. now rewrite E. Qed.

Lemma handleBack_from_city s ci :
  place (selected s) = None -> city (selected s) = Some ci ->
  handleBack s
  = setSelected {| country := country (selected s);
                   city := None; place := None |} s.
Proof. intros E1 E2. unfold handleBack. now rewrite E1, E2. Qed.

Lemma handleBack_from_country s :
  place (selected s) = None -> city (selected s) = None ->
  handleBack s = handleClose s.
Proof. intros E1 E2. unfold handleBack. now rewrite E1, E2. Qed.

(** The three cases of [handleBack], on the selection, the heap and the
    stored reference. *)
Lemma handleBack_levels (s : State) :
  (forall pl, place (selected s) = Some pl ->
     selected (handleBack s)
     = {| country := country (selected s); city := city (selected s);
          place := None |}
     /\ layers (handleBack s) = layers s
     /\ selectedLayerRef (handleBack s) = selectedLayerRef s)
  /\ (forall ci, place (selected s) = None -> city (selected s) = Some ci ->
     selected (handleBack s)
     = {| country := country (selected s); city := None; place := None |}
     /\ layers (handleBack s) = layers s
     /\ selectedLayerRef (handleBack s) = selectedLayerRef s)
  /\ (place (selected s) = None -> city (selected s) = None ->
     selected (handleBack s) = noSelection
     /\ selectedLayerRef (handleBack s) = None
     /\ layers (handleBack s) = layers (resetSelectedLayer s)).
Proof.
  repeat split.
  all: try (erewrite handleBack_from_place by eassumption).
  all: try (erewrite handleBack_from_city by eassumption).
  all: try (rewrite handleBack_from_country by assumption; unfold handleClose).
  all: autorewrite with wm; reflexivity.
Qed.

(** [resetSelectedLayer] on the heap: the stored drawable gets the fill
    opacity 0.08 and the stroke weight 1 and keeps everything else; the
    other drawables are not touched. *)
Lemma resetSelectedLayer_restores (s : State) :
  (forall layer p,
      selectedLayerRef s = Some layer -> layers s !! layer = Some p ->
      layers (resetSelectedLayer s) !! layer
      = Some {| options :=
                  {| fillColor := fillColor (options p); fillOpacity := 0.08;
                     color := color (options p); weight := 1 |};
                pathCountry := pathCountry p; pathTooltip := pathTooltip p;
                pathGeometry := pathGeometry p |})
  /\ (forall l, selectedLayerRef s <> Some l ->
        layers (resetSelectedLayer s) !! l = layers s !! l).
Proof.
  rewrite resetSelectedLayer_layers. split.
  - intros layer p -> Hp. rewrite list_lookup_alter_eq, Hp. reflexivity.
  - intros l Hl. destruct (selectedLayerRef s) as [layer|]; [|reflexivity].
    apply list_lookup_alter_ne. intros ->. now apply Hl.
Qed.

Lemma default_style_not_highlighted (p : Path) :
  fillOpacity (options p) = 0.08 -> ~ highlighted p.
Proof. intros E [H _]. rewrite E in H. discriminate H. Qed.

(** C6: [back()] un-nests one level: with a place selected it clears the
    place only; with a city and no place it clears the city and keeps the
    country; with a country only it clears the country, restores the default
    style of the highlighted drawable (the fill opacity 0.08 and the stroke
    weight 1 of the [style] option, every other drawable as it is) and
    clears the stored reference. In the first two cases no drawable and no
    reference is touched. *)
Theorem handleBack_one_level (s : State) :
  (forall pl, place (selected s) = Some pl ->
     selected (handleBack s)
     = {| country := country (selected s); city := city (selected s);
          place := None |}
     /\ layers (handleBack s) = layers s
     /\ selectedLayerRef (handleBack s) = selectedLayerRef s)
  /\ (forall ci, place (selected s) = None -> city (selected s) = Some ci ->
     selected (handleBack s)
     = {| country := country (selected s); city := None; place := None |}
     /\ layers (handleBack s) = layers s
     /\ selectedLayerRef (handleBack s) = selectedLayerRef s)
  /\ (place (selected s) = None -> city (selected s) = None ->
     selected (handleBack s) = noSelection
     /\ selectedLayerRef (handleBack s) = None
     /\ (forall layer p,
           selectedLayerRef s = Some layer -> layers s !! layer = Some p ->
           layers (handleBack s) !! layer
           = Some {| options :=
                       {| fillColor := fillColor (options p);
                          fillOpacity := 0.08;
                          color := color (options p); weight := 1 |};
                     pathCountry := pathCountry p;
                     pathTooltip := pathTooltip p;
                     pathGeometry := pathGeometry p |})
     /\ (forall l, selectedLayerRef s <> Some l ->
           layers (handleBack s) !! l = layers s !! l)).
Proof.
  destruct (handleBack_levels s) as (H1 & H2 & H3).
  split; [exact H1|]. split; [exact H2|].
  intros Hpl Hci. destruct (H3 Hpl Hci) as (Hsel & Href & Hl).
  rewrite Hl. split; [exact Hsel|]. split; [exact Href|].
  apply resetSelectedLayer_restores.
Qed.

(** C9: for an id that [countryMap] does not hold, [selectCountry] changes
    nothing: the selection, the stored reference and every drawable (the
    highlighted one included) are as before. *)
Theorem selectCountry_unknown_id (id : string) (layer : nat) (s : State) :
  countryMap !! id = None -> selectCountry id layer s = s.
Proof. intros E. unfold selectCountry. now rewrite E. Qed.

Lemma with_selected_same s : with_selected (selected s) s = s.
Proof. now destruct s. Qed.

Lemma markerEffect_idempotent s : markerEffect (markerEffect s) = markerEffect s.
Proof.
  destruct s as [sel z zr ref reg ls fr [cg|] [pg|]]; reflexivity.
Qed.

Lemma resetSelectedLayer_without_ref s :
  selectedLayerRef s = None -> resetSelectedLayer s = s.
Proof. intros E. unfold resetSelectedLayer. now rewrite E. Qed.

Lemma handleClose_idempotent s : handleClose (handleClose s) = handleClose s.
Proof.
  unfold handleClose at 1.
  rewrite resetSelectedLayer_without_ref
    by (unfold handleClose; now autorewrite with wm).
  unfold setSelected at 1.
  replace noSelection with (selected (handleClose s)) at 1
    by (unfold handleClose; now autorewrite with wm).
  rewrite with_selected_same. unfold handleClose, setSelected.
  apply markerEffect_idempotent.
Qed.

Lemma handleClose_nothing_selected s :
  selected s = noSelection -> selectedLayerRef s = None ->
  handleClose s = markerEffect s.
Proof.
  intros E1 E2. unfold handleClose.
  rewrite resetSelectedLayer_without_ref by assumption.
  unfold setSelected. now rewrite <- E1, with_selected_same.
Qed.

(** C5 (as amended): from a state with a place and its city selected,
    [back()] twice yields the country selection, city and place cleared and
    no drawable touched; a third [back()] yields the None selection, and it
    is on that call only that the country drawable is unhighlighted (it gets
    the default fill opacity 0.08 and stroke weight 1, and is not
    highlighted) and the stored reference cleared. *)
Theorem handleBack_three_levels (s : State) (pl : PlaceSubreddit)
    (ci : CitySubreddit) :
  place (selected s) = Some pl -> city (selected s) = Some ci ->
  let s1 := handleBack s in
  let s2 := handleBack s1 in
  let s3 := handleBack s2 in
  selected s2
  = {| country := country (selected s); city := None; place := None |}
  /\ (layers s1 = layers s /\ selectedLayerRef s1 = selectedLayerRef s)
  /\ (layers s2 = layers s /\ selectedLayerRef s2 = selectedLayerRef s)
  /\ selected s3 = noSelection
  /\ selectedLayerRef s3 = None
  /\ (forall layer p,
        selectedLayerRef s = Some layer -> layers s !! layer = Some p ->
        exists p3,
          layers s3 !! layer = Some p3
          /\ ~ highlighted p3
          /\ p3 = {| options :=
                       {| fillColor := fillColor (options p);
                          fillOpacity := 0.08;
                          color := color (options p); weight := 1 |};
                     pathCountry := pathCountry p;
                     pathTooltip := pathTooltip p;
                     pathGeometry := pathGeometry p |})
  /\ (forall l, selectedLayerRef s <> Some l -> layers s3 !! l = layers s !! l).
Proof.
  intros Hpl Hci s1 s2 s3.
  destruct (handleBack_levels s) as [H1 _].
  destruct (H1 pl Hpl) as (Hsel1 & Hl1 & Hr1). fold s1 in Hsel1, Hl1, Hr1.
  destruct (handleBack_levels s1) as (_ & H2 & _).
  destruct (H2 ci) as (Hsel2 & Hl2 & Hr2);
    [now rewrite Hsel1 | now rewrite Hsel1 |].
  fold s2 in Hsel2, Hl2, Hr2.
  destruct (handleBack_levels s2) as (_ & _ & H3).
  destruct H3 as (Hsel3 & Hr3 & Hl3);
    [now rewrite Hsel2 | now rewrite Hsel2 |].
  fold s3 in Hsel3, Hl3, Hr3.
  destruct (resetSelectedLayer_restores s2) as [Hstored Hothers].
  rewrite Hr2, Hr1, Hl2, Hl1 in Hstored, Hothers.
  rewrite Hsel2, Hsel1, Hl2, Hl1, Hr2, Hr1, Hl3.
  repeat split; try reflexivity; try assumption.
  intros layer p Href Hp. eexists. split; [exact (Hstored layer p Href Hp)|].
  split; [|reflexivity]. now apply default_style_not_highlighted.
Qed.

(** C10: the None selection with no stored reference is a fixpoint of
    [back()] and of [close()]: either leaves the selection at None, the
    reference empty and every drawable as it is (and the whole state as it
    is, once the marker effect has run); and [close()] is idempotent from
    any state. *)
Theorem nothing_selected_fixpoint (s : State) :
  (selected s = noSelection -> selectedLayerRef s = None ->
     (selected (handleBack s) = noSelection
      /\ selectedLayerRef (handleBack s) = None
      /\ layers (handleBack s) = layers s)
     /\ (selected (handleClose s) = noSelection
         /\ selectedLayerRef (handleClose s) = None
         /\ layers (handleClose s) = layers s)
     /\ (markerEffect s = s -> handleBack s = s /\ handleClose s = s))
  /\ handleClose (handleClose s) = handleClose s.
Proof.
  split; [|apply handleClose_idempotent].
  intros Hsel Href.
  assert (Hback : handleBack s = handleClose s)
    by (apply handleBack_from_country; now rewrite Hsel).
  rewrite Hback, (handleClose_nothing_selected s Hsel Href).
  autorewrite with wm. rewrite Hsel, Href.
  repeat split; auto.
Qed.

(** *** The marker plan *)

(** A loop that pushes one element per iteration is a [map]; a loop that
    runs an appending loop per iteration is a [flat_map]. *)
Lemma fold_left_push {A B} (f : A -> B) (l : list A) : forall acc,
  fold_left (fun acc x => acc ++ [f x]) l acc = acc ++ map f l.
Proof.
  induction l as [|x l IH]; intros acc; simpl.
  - now rewrite app_nil_r.
  - now rewrite IH, <- app_assoc.
Qed.

Lemma fold_left_append {A B} (body : list B -> A -> list B) (f : A -> list B)
    (l : list A) :
  (forall acc x, body acc x = acc ++ f x) ->
  forall acc, fold_left body l acc = acc ++ flat_map f l.
Proof.
  intros Hbody. induction l as [|x l IH]; intros acc; simpl.
  - now rewrite app_nil_r.
  - now rewrite IH, Hbody, <- app_assoc.
Qed.

Lemma cityLoop_planned z sel group :
  cityLoop z sel group = group ++ plannedCities z sel.
Proof.
  unfold cityLoop, plannedCities. apply fold_left_append.
  intros acc co. apply fold_left_push.
Qed.

Lemma placeLoop_planned z sel group :
  placeLoop z sel group = group ++ plannedPlaces z sel.
Proof.
  unfold placeLoop, plannedPlaces. apply fold_left_append.
  intros acc co. apply fold_left_append.
  intros acc' ci. destruct (city_places ci) as [places|].
  - apply fold_left_push.
  - now rewrite app_nil_r.
Qed.

Lemma map_flat_map {A B C} (g : B -> C) (f : A -> list B) (l : list A) :
  map g (flat_map f l) = flat_map (fun x => map g (f x)) l.
Proof.
  induction l as [|x l IH]; simpl; [reflexivity|].
  now rewrite map_app, IH.
Qed.

Lemma plannedCities_owners z sel :
  map onClick (plannedCities z sel) = allCities.
Proof.
  unfold plannedCities, allCities. rewrite map_flat_map.
  apply flat_map_ext. intros co. rewrite map_map. reflexivity.
Qed.

Lemma plannedPlaces_owners z sel :
  map onClick (plannedPlaces z sel) = allPlaces.
Proof.
  unfold plannedPlaces, allPlaces. rewrite map_flat_map.
  apply flat_map_ext. intros co. rewrite map_flat_map.
  apply flat_map_ext. intros ci.
  destruct (city_places ci); [rewrite map_map|]; reflexivity.
Qed.

Lemma labelMinSubs_T_city z : labelMinSubs z = T_city z.
Proof.
  unfold labelMinSubs, T_city.
  repeat match goal with
         | |- context [(?a >=? ?b)%Z] => destruct (Z.geb_spec a b)
         | |- context [(?a <=? ?b)%Z] => destruct (Z.leb_spec a b)
         | |- context [(?a <? ?b)%Z] => destruct (Z.ltb_spec a b)
         end; simpl; reflexivity || lia.
Qed.

Lemma placeLabelMin_T_place z : placeLabelMin z = T_place z.
Proof.
  unfold placeLabelMin, T_place.
  repeat match goal with
         | |- context [(?a >=? ?b)%Z] => destruct (Z.geb_spec a b)
         | |- context [(?a <=? ?b)%Z] => destruct (Z.leb_spec a b)
         | |- context [(?a <? ?b)%Z] => destruct (Z.ltb_spec a b)
         end; simpl; reflexivity || lia.
Qed.

Lemma cityMarker_label z sel co ci :
  labelOf (markerTooltip (cityMarker z sel co ci))
  = planned_label_of z (ClickCity co ci).
Proof.
  unfold cityMarker, planned_label_of, planned_label, labelOf; simpl.
  rewrite labelMinSubs_T_city.
  now destruct (geNum (city_subscribers ci) (T_city z)).
Qed.

Lemma placeMarker_label z sel co ci pl :
  labelOf (markerTooltip (placeMarker z sel co ci pl))
  = planned_label_of z (ClickPlace co ci pl).
Proof.
  unfold placeMarker, planned_label_of, planned_label, labelOf; simpl.
  rewrite placeLabelMin_T_place.
  now destruct (geNum (place_subscribers pl) (T_place z)).
Qed.

Lemma plannedCities_labels z sel :
  Forall (labelled_as_planned z) (plannedCities z sel).
Proof.
  apply List.Forall_forall. intros m Hm.
  apply in_flat_map in Hm as (co & _ & Hm).
  apply in_map_iff in Hm as (ci & <- & _).
  apply cityMarker_label.
Qed.

Lemma plannedPlaces_labels z sel :
  Forall (labelled_as_planned z) (plannedPlaces z sel).
Proof.
  apply List.Forall_forall. intros m Hm.
  apply in_flat_map in Hm as (co & _ & Hm).
  apply in_flat_map in Hm as (ci & _ & Hm).
  destruct (city_places ci); [|destruct Hm].
  apply in_map_iff in Hm as (pl & <- & _).
  apply placeMarker_label.
Qed.

Lemma markerEffect_groups s cg pg :
  cityGroupRef s = Some cg -> placeGroupRef s = Some pg ->
  cityGroupRef (markerEffect s)
  = Some (if (zoom s >=? 4)%Z then plannedCities (zoom s) (selected s) else [])
  /\ placeGroupRef (markerEffect s)
     = Some (if (zoom s >=? 10)%Z then plannedPlaces (zoom s) (selected s) else []).
Proof.
  intros Hc Hp. unfold markerEffect. rewrite Hc, Hp. simpl.
  rewrite cityLoop_planned, placeLoop_planned. now split.
Qed.

(** C3: the marker effect replaces both groups by the plan for the current
    zoom: one marker per city of the dataset if and only if zoom >= 4 (none
    below), one marker per place of a city that declares places if and only
    if zoom >= 10 (none below); the label of a city marker is the permanent
    name label if and only if its member count reaches [T_city zoom] (0 from
    10, 30000 in [8,10), 100000 in [6,8), unattainable below 6), the label
    of a place marker if and only if it reaches [T_place zoom] (0 from 14,
    3000 in [12,14), unattainable below 12); a marker below its threshold
    carries the hover-only label with the community identifier instead. *)
Theorem marker_plan (s : State) (cg pg : list CircleMarker) :
  cityGroupRef s = Some cg -> placeGroupRef s = Some pg ->
  exists cities places,
    cityGroupRef (markerEffect s) = Some cities
    /\ placeGroupRef (markerEffect s) = Some places
    /\ map onClick cities = (if (4 <=? zoom s)%Z then allCities else [])
    /\ map onClick places = (if (10 <=? zoom s)%Z then allPlaces else [])
    /\ Forall (labelled_as_planned (zoom s)) cities
    /\ Forall (labelled_as_planned (zoom s)) places.
Proof.
  intros Hc Hp. destruct (markerEffect_groups s cg pg Hc Hp) as [-> ->].
  rewrite !Z.geb_leb. do 2 eexists. do 2 (split; [reflexivity|]).
  destruct (4 <=? zoom s)%Z, (10 <=? zoom s)%Z; simpl;
    rewrite ?plannedCities_owners, ?plannedPlaces_owners;
    repeat split;
    auto using plannedCities_labels, plannedPlaces_labels.
Qed.

(** *** The highlighted drawable *)

Lemma restore_not_highlighted p : ~ highlighted (restyle restoreStyle p).
Proof. intros [_ Hw]. vm_compute in Hw. discriminate. Qed.

Lemma hover_not_highlighted p : ~ highlighted (restyle hoverStyle p).
Proof. intros [_ Hw]. vm_compute in Hw. discriminate. Qed.

Lemma highlight_highlighted p : highlighted (restyle highlightStyle p).
Proof. split; reflexivity. Qed.

Lemma countryStyle_not_highlighted c p :
  options p = countryStyle c -> ~ highlighted p.
Proof.
  intros E [_ Hw]. rewrite E in Hw.
  destruct c; vm_compute in Hw; discriminate.
Qed.

(** The drawables after the optional restore of [selectCountry]: none but
    [layer] can be highlighted. *)
Lemma unhighlighted_but ref ls layer l p :
  highlight_inv ref ls ->
  (match ref with
   | Some old =>
       if bool_decide (old <> layer)
       then alter (restyle restoreStyle) old ls else ls
   | None => ls
   end) !! l = Some p ->
  highlighted p -> l = layer.
Proof.
  intros [Hinv _] Hl Hp. destruct ref as [old|].
  - case_bool_decide as Hne.
    + destruct (decide (old = l)) as [->|Hol].
      * rewrite list_lookup_alter in Hl. rewrite decide_True in Hl by done.
        destruct (ls !! l); simplify_eq/=.
        now apply restore_not_highlighted in Hp.
      * rewrite list_lookup_alter_ne in Hl by done.
        apply (Hinv l p Hl) in Hp. congruence.
    + apply (Hinv l p Hl) in Hp. congruence.
  - apply (Hinv l p Hl) in Hp. discriminate.
Qed.

Lemma heap_move_inv ref ls ref' ls' :
  highlight_inv ref ls -> heap_move ref ls ref' ls' -> highlight_inv ref' ls'.
Proof.
  intros Hinv Hmove. pose proof Hinv as [Hhl Hin].
  destruct Hmove as [|news Hnews|l f Hne Hf| |layer Hlayer].
  - exact Hinv.
  - split.
    + intros l p Hl. apply lookup_app_Some in Hl as [Hl|[Hge Hl]].
      * now apply Hhl.
      * split.
        -- intros Hp. eapply Forall_lookup_1 in Hnews; [|exact Hl]. done.
        -- intros Href. apply Hin in Href. lia.
    + intros l Hl. rewrite length_app. apply Hin in Hl. lia.
  - split.
    + intros l' p Hl. destruct (decide (l = l')) as [->|Hll].
      * rewrite list_lookup_alter, decide_True in Hl by done.
        destruct (ls !! l'); simplify_eq/=. split; [|done].
        intros Hp. now apply Hf in Hp.
      * rewrite list_lookup_alter_ne in Hl by done. now apply Hhl.
    + intros l' Hl. rewrite length_alter. now apply Hin.
  - split; [|discriminate].
    intros l p Hl. split; [|discriminate]. intros Hp. exfalso.
    destruct ref as [old|].
    + destruct (decide (old = l)) as [->|Hol].
      * rewrite list_lookup_alter, decide_True in Hl by done.
        destruct (ls !! l); simplify_eq/=.
        now apply restore_not_highlighted in Hp.
      * rewrite list_lookup_alter_ne in Hl by done.
        apply (Hhl l p Hl) in Hp. congruence.
    + apply (Hhl l p Hl) in Hp. discriminate.
  - split.
    + intros l p Hl. destruct (decide (layer = l)) as [->|Hll].
      * rewrite list_lookup_alter, decide_True in Hl by done.
        split; [done|]. intros _.
        destruct (_ !! l); simplify_eq/=. apply highlight_highlighted.
      * rewrite list_lookup_alter_ne in Hl by done. split.
        -- intros Hp. pose proof (unhighlighted_but _ _ _ _ _ Hinv Hl Hp).
           congruence.
        -- congruence.
    + intros l [= <-]. rewrite length_alter.
      destruct ref as [old|]; [case_bool_decide|]; rewrite ?length_alter; done.
Qed.

(** *** What each handler does to the selection, the reference and the heap *)

Lemma selectCountry_known id layer s co :
  countryMap !! id = Some co ->
  selected (selectCountry id layer s)
  = {| country := Some co; city := None; place := None |}
  /\ selectedLayerRef (selectCountry id layer s) = Some layer
  /\ layers (selectCountry id layer s)
     = alter (restyle highlightStyle) layer
         (match selectedLayerRef s with
          | Some old =>
              if bool_decide (old <> layer)
              then alter (restyle restoreStyle) old (layers s) else layers s
          | None => layers s
          end).
Proof.
  intros E. unfold selectCountry, selectCountry_body, exec. rewrite E. simpl.
  autorewrite with wm. simpl. repeat split.
  unfold unhighlightPrevious.
  destruct (selectedLayerRef s); [case_bool_decide|]; reflexivity.
Qed.

Lemma setZoom_fields z s :
  selected (setZoom z s) = selected s
  /\ selectedLayerRef (setZoom z s) = selectedLayerRef s
  /\ layers (setZoom z s) = layers s.
Proof.
  unfold setZoom. destruct (z =? zoom s)%Z; autorewrite with wm; auto.
Qed.

Lemma addFeature_fields s f :
  selected (addFeature s f) = selected s
  /\ selectedLayerRef (addFeature s f) = selectedLayerRef s
  /\ cityGroupRef (addFeature s f) = cityGroupRef s
  /\ placeGroupRef (addFeature s f) = placeGroupRef s
  /\ exists p,
       layers (addFeature s f) = layers s ++ [p] /\ ~ highlighted p.
Proof.
  unfold addFeature, onEachFeature.
  destruct (countryMap !! feature_id f) as [co|] eqn:E; simpl.
  - repeat split; try reflexivity.
    eexists. split.
    + replace (length (layers s)) with (length (layers s) + 0)%nat by lia.
      rewrite alter_app_r. reflexivity.
    + now apply (countryStyle_not_highlighted (Some co)).
  - repeat split; try reflexivity.
    eexists. split; [reflexivity|].
    now apply (countryStyle_not_highlighted None).
Qed.

Lemma geoLoaded_fields raw s :
  selected (geoLoaded raw s) = selected s
  /\ selectedLayerRef (geoLoaded raw s) = selectedLayerRef s
  /\ cityGroupRef (geoLoaded raw s) = cityGroupRef s
  /\ placeGroupRef (geoLoaded raw s) = placeGroupRef s
  /\ exists news,
       layers (geoLoaded raw s) = layers s ++ news
       /\ Forall (fun p => ~ highlighted p) news.
Proof.
  unfold geoLoaded. generalize (fixAntimeridian raw) as fc.
  intros fc. revert s. induction fc as [|f fc IH]; intros s; simpl.
  - repeat split; try reflexivity. exists []. now rewrite app_nil_r.
  - destruct (IH (addFeature s f)) as (-> & -> & -> & -> & news & -> & Hnews).
    destruct (addFeature_fields s f) as (-> & -> & -> & -> & p & -> & Hp).
    repeat split; try reflexivity.
    exists (p :: news). rewrite <- app_assoc. split; [reflexivity|].
    now constructor.
Qed.

Lemma onPath_cases handler path s :
  onPath handler path s = s
  \/ exists p co,
       layers s !! path = Some p /\ pathCountry p = Some co
       /\ onPath handler path s = handler co path s.
Proof.
  unfold onPath. destruct (layers s !! path) as [p|] eqn:E; [|now left].
  destruct (pathCountry p) as [co|] eqn:Ec; [|now left].
  right. now exists p, co.
Qed.

Lemma selectCountry_heap_move id layer s :
  (layer < length (layers s))%nat ->
  heap_move (selectedLayerRef s) (layers s)
    (selectedLayerRef (selectCountry id layer s))
    (layers (selectCountry id layer s)).
Proof.
  intros Hlt. destruct (countryMap !! id) as [co|] eqn:E.
  - destruct (selectCountry_known id layer s co E) as (_ & -> & ->).
    now constructor.
  - unfold selectCountry. rewrite E. constructor.
Qed.

Lemma handleClose_heap_move s :
  heap_move (selectedLayerRef s) (layers s)
    (selectedLayerRef (handleClose s)) (layers (handleClose s)).
Proof. unfold handleClose. autorewrite with wm. constructor. Qed.

Lemma handleBack_heap_move s :
  heap_move (selectedLayerRef s) (layers s)
    (selectedLayerRef (handleBack s)) (layers (handleBack s)).
Proof.
  unfold handleBack.
  destruct (place (selected s)); [|destruct (city (selected s))];
    autorewrite with wm; constructor.
Qed.

Lemma markerClick_fields m s :
  selectedLayerRef (markerClick m s) = selectedLayerRef s
  /\ layers (markerClick m s) = layers s.
Proof.
  unfold markerClick, selectCity, selectPlace.
  destruct (onClick m); autorewrite with wm; auto.
Qed.

Lemma step_heap_move s e :
  heap_move (selectedLayerRef s) (layers s)
    (selectedLayerRef (step s e)) (layers (step s e)).
Proof.
  destruct e as [fc|l|l|l|k|k|k|k|k|k| | | |key|z]; simpl.
  - destruct (geoLoaded_fields fc s) as (_ & -> & _ & _ & news & -> & Hnews).
    now constructor.
  - destruct (onPath_cases (fun _ => pathMouseOver) l s) as [->|(p & co & Hl & _ & ->)];
      [constructor|].
    unfold pathMouseOver. case_bool_decide; simpl; [|constructor].
    constructor; [done | apply hover_not_highlighted].
  - destruct (onPath_cases (fun _ => pathMouseOut) l s) as [->|(p & co & Hl & _ & ->)];
      [constructor|].
    unfold pathMouseOut. case_bool_decide; simpl; [|constructor].
    constructor; [done | apply restore_not_highlighted].
  - destruct (onPath_cases pathClick l s) as [->|(p & co & Hl & _ & ->)];
      [constructor|].
    apply selectCountry_heap_move. eapply lookup_lt_Some, Hl.
  - unfold onMarker. destruct (cityGroupRef s) as [ms|]; [|constructor].
    destruct (ms !! k) as [m|]; [|constructor].
    destruct (markerClick_fields m s) as [-> ->]. constructor.
  - constructor.
  - constructor.
  - unfold onMarker. destruct (placeGroupRef s) as [ms|]; [|constructor].
    destruct (ms !! k) as [m|]; [|constructor].
    destruct (markerClick_fields m s) as [-> ->]. constructor.
  - destruct (panelCities (selected s) !! k) as [ci|]; [|constructor].
    unfold onCityClick. destruct (country (selected s)); [|constructor].
    unfold selectCity. autorewrite with wm. constructor.
  - destruct (panelPlaces (selected s) !! k) as [pl|]; [|constructor].
    unfold onPlaceClick.
    destruct (country (selected s)); [|constructor].
    destruct (city (selected s)); [|constructor].
    unfold selectPlace. autorewrite with wm. constructor.
  - apply handleBack_heap_move.
  - apply handleClose_heap_move.
  - destruct (country (selected s)); [apply handleClose_heap_move|constructor].
  - case_bool_decide; [apply handleBack_heap_move|constructor].
  - destruct (setZoom_fields z (with_zoomRef z s)) as (_ & -> & ->). constructor.
Qed.

Lemma mounted_highlight_inv :
  highlight_inv (selectedLayerRef mounted) (layers mounted).
Proof. split; [intros l p Hl; destruct l; discriminate | discriminate]. Qed.

Lemma run_snoc events e s : run (events ++ [e]) s = step (run events s) e.
Proof. unfold run. now rewrite fold_left_app. Qed.

Lemma run_highlight_inv events s :
  highlight_inv (selectedLayerRef s) (layers s) ->
  highlight_inv (selectedLayerRef (run events s)) (layers (run events s)).
Proof.
  intros Hs. induction events as [|e events IH] using rev_ind; [exact Hs|].
  rewrite run_snoc. eapply heap_move_inv; [exact IH | apply step_heap_move].
Qed.





(** The events that leave the selection and the stored reference alone. *)
Lemma step_passive s e :
  match e with
  | GeoLoaded _ | PathMouseOver _ | PathMouseOut _
  | PlaceMarkerOver _ | PlaceMarkerOut _ | ZoomEnd _ => True
  | _ => False
  end ->
  selected (step s e) = selected s
  /\ selectedLayerRef (step s e) = selectedLayerRef s.
Proof.
  destruct e as [fc|l|l|l|k|k|k|k|k|k| | | |key|z]; simpl; try tauto; intros _.
  - destruct (geoLoaded_fields fc s) as (-> & -> & _). auto.
  - destruct (onPath_cases (fun _ => pathMouseOver) l s) as [->|(p & co & _ & _ & ->)];
      [auto|].
    unfold pathMouseOver. case_bool_decide; auto.
  - destruct (onPath_cases (fun _ => pathMouseOut) l s) as [->|(p & co & _ & _ & ->)];
      [auto|].
    unfold pathMouseOut. case_bool_decide; auto.
  - destruct (setZoom_fields z (with_zoomRef z s)) as (-> & -> & _). auto.
Qed.








(** *** The nesting of the selection *)

Lemma insertDesc_In {A} (subs : A -> Z) x y (l : list A) :
  In y (insertDesc subs x l) -> y = x \/ In y l.
Proof.
  induction l as [|z l IH]; simpl.
  - intros [<-|[]]. now left.
  - destruct (subs x <? subs z)%Z; simpl.
    + intros [<-|Hy]; [right; now left|].
      destruct (IH Hy) as [->|Hl]; [now left | right; now right].
    + intros [<-|Hy]; [now left | now right].
Qed.

Lemma sortDesc_In {A} (subs : A -> Z) y (l : list A) :
  In y (sortDesc subs l) -> In y l.
Proof.
  induction l as [|x l IH]; simpl; [tauto|].
  intros Hy. apply insertDesc_In in Hy as [->|Hy]; [now left | right; auto].
Qed.

Lemma lookup_In {A} (l : list A) k x : l !! k = Some x -> In x l.
Proof. intros Hk. eapply list_elem_of_In, list_elem_of_lookup_2, Hk. Qed.

Lemma panelCities_lookup sel k ci :
  panelCities sel !! k = Some ci ->
  city sel = None /\ place sel = None
  /\ exists co, country sel = Some co /\ In ci (country_cities co).
Proof.
  unfold panelCities.
  destruct (city sel), (place sel), (country sel) as [co|]; try discriminate.
  destruct (0 <? length (country_cities co))%nat; [|discriminate].
  intros Hk. repeat split. exists co. split; [reflexivity|].
  eapply sortDesc_In, lookup_In, Hk.
Qed.

Lemma panelPlaces_lookup sel k pl :
  panelPlaces sel !! k = Some pl ->
  place sel = None
  /\ exists ci places,
       city sel = Some ci /\ city_places ci = Some places /\ In pl places.
Proof.
  unfold panelPlaces.
  destruct (city sel) as [ci|], (place sel); try discriminate.
  destruct (city_places ci) as [places|] eqn:E; [|discriminate].
  destruct (0 <? length places)%nat; [|discriminate].
  intros Hk. split; [reflexivity|]. exists ci, places.
  split; [reflexivity|]. split; [exact E|].
  eapply sortDesc_In, lookup_In, Hk.
Qed.

Lemma allCities_parents : Forall parents_ok allCities.
Proof.
  apply List.Forall_forall. intros o Ho.
  apply in_flat_map in Ho as (co & Hco & Ho).
  apply in_map_iff in Ho as (ci & <- & Hci). now split.
Qed.

Lemma allPlaces_parents : Forall parents_ok allPlaces.
Proof.
  apply List.Forall_forall. intros o Ho.
  apply in_flat_map in Ho as (co & Hco & Ho).
  apply in_flat_map in Ho as (ci & Hci & Ho).
  destruct (city_places ci) as [places|] eqn:E; [|destruct Ho].
  apply in_map_iff in Ho as (pl & <- & Hpl).
  repeat split; try assumption. now exists places.
Qed.

Lemma owners_ok (ms : list CircleMarker) owners :
  map onClick ms = owners -> Forall parents_ok owners ->
  Forall (fun m => parents_ok (onClick m)) ms.
Proof. intros <- Hall. apply (proj1 (List.Forall_map onClick parents_ok ms) Hall). Qed.

Lemma markerEffect_groups_ok s :
  group_ok (cityGroupRef s) -> group_ok (placeGroupRef s) ->
  group_ok (cityGroupRef (markerEffect s)) /\ group_ok (placeGroupRef (markerEffect s)).
Proof.
  intros Hc Hp.
  destruct (cityGroupRef s) as [cg|] eqn:Ec, (placeGroupRef s) as [pg|] eqn:Ep.
  - destruct (markerEffect_groups s cg pg Ec Ep) as [-> ->].
    split; intros ms [= <-].
    + destruct (zoom s >=? 4)%Z; [|constructor].
      eapply owners_ok; [apply plannedCities_owners | apply allCities_parents].
    + destruct (zoom s >=? 10)%Z; [|constructor].
      eapply owners_ok; [apply plannedPlaces_owners | apply allPlaces_parents].
  - unfold markerEffect. rewrite Ec, Ep. rewrite Ec, Ep. now split.
  - unfold markerEffect. rewrite Ec. rewrite Ec, Ep. now split.
  - unfold markerEffect. rewrite Ec. rewrite Ec, Ep. now split.
Qed.

Lemma nested_spelled sel :
  nested sel
  <-> (forall pl, place sel = Some pl ->
         exists co ci places,
           country sel = Some co /\ city sel = Some ci
           /\ In ci (country_cities co)
           /\ city_places ci = Some places /\ In pl places)
      /\ (forall ci, city sel = Some ci ->
            exists co, country sel = Some co /\ In ci (country_cities co)).
Proof.
  unfold nested.
  destruct (place sel) as [pl|], (city sel) as [ci|], (country sel) as [co|];
    (split;
     [ intros Hn; split; intros x Heq; simplify_eq; try contradiction;
       try (destruct Hn as [(places & Hplaces & Hpl) Hci]);
       eauto 10
     | intros [H1 H2];
       try (destruct (H1 _ eq_refl) as (? & ? & ? & ? & ? & ? & ? & ?));
       try (destruct (H2 _ eq_refl) as (? & ? & ?));
       simplify_eq; eauto ]).
Qed.

Lemma setSelected_nesting x s :
  nested x -> known_country x ->
  group_ok (cityGroupRef s) -> group_ok (placeGroupRef s) ->
  nesting_inv (setSelected x s).
Proof.
  intros Hx Hk Hc Hp. unfold nesting_inv. rewrite setSelected_selected.
  split; [exact Hx|]. split; [exact Hk|].
  unfold setSelected. now apply markerEffect_groups_ok.
Qed.

Lemma unhighlightPrevious_groups layer s :
  cityGroupRef (unhighlightPrevious layer s) = cityGroupRef s
  /\ placeGroupRef (unhighlightPrevious layer s) = placeGroupRef s.
Proof.
  unfold unhighlightPrevious.
  destruct (selectedLayerRef s); [case_bool_decide|]; now split.
Qed.

Lemma resetSelectedLayer_groups s :
  cityGroupRef (resetSelectedLayer s) = cityGroupRef s
  /\ placeGroupRef (resetSelectedLayer s) = placeGroupRef s.
Proof. unfold resetSelectedLayer. destruct (selectedLayerRef s); now split. Qed.

Lemma selectCountry_nesting id layer s :
  nesting_inv s -> nesting_inv (selectCountry id layer s).
Proof.
  intros (Hn & Hk & Hc & Hp). unfold selectCountry.
  destruct (countryMap !! id) as [co|] eqn:E; [|now repeat split].
  unfold exec, selectCountry_body. simpl.
  destruct (unhighlightPrevious_groups layer s) as [Ec Ep].
  apply setSelected_nesting; simpl; rewrite ?Ec, ?Ep;
    [exact I | | assumption | assumption].
  intros co' [= <-]. right. now exists id.
Qed.

Lemma markerClick_nesting m s :
  parents_ok (onClick m) -> nesting_inv s -> nesting_inv (markerClick m s).
Proof.
  intros Hm (Hn & Hk & Hc & Hp). unfold markerClick.
  destruct (onClick m) as [co ci|co ci pl]; simpl in Hm.
  - destruct Hm as [Hco Hci].
    apply setSelected_nesting; [exact Hci | | assumption | assumption].
    intros co' [= <-]. now left.
  - destruct Hm as (Hco & Hci & Hpl).
    apply setSelected_nesting; [now split | | assumption | assumption].
    intros co' [= <-]. now left.
Qed.

Lemma onMarker_nesting group k s :
  group_ok group -> nesting_inv s -> nesting_inv (onMarker group k s).
Proof.
  intros Hg Hinv. unfold onMarker.
  destruct group as [ms|]; [|exact Hinv].
  destruct (ms !! k) as [m|] eqn:Hk; [|exact Hinv].
  apply markerClick_nesting; [|exact Hinv].
  exact (Forall_lookup_1 _ _ _ _ (Hg ms eq_refl) Hk).
Qed.

Lemma onPlaceHover_nesting f k s :
  (forall m, onClick (f m) = onClick m) ->
  nesting_inv s -> nesting_inv (onPlaceHover f k s).
Proof.
  intros Hf (Hn & Hk & Hc & Hp). repeat split; try assumption.
  simpl. intros ms Hms.
  destruct (placeGroupRef s) as [pg|]; [|discriminate]. injection Hms as <-.
  apply Forall_alter; [now apply Hp|].
  intros m _ Hm. now rewrite Hf.
Qed.

Lemma markerMouseOver_onClick m : onClick (markerMouseOver m) = onClick m.
Proof. unfold markerMouseOver. now destruct (hover m) as [[r a]|]. Qed.

Lemma markerMouseOut_onClick m : onClick (markerMouseOut m) = onClick m.
Proof. unfold markerMouseOut. now destruct (hover m) as [[r a]|]. Qed.

Lemma nested_without_place sel :
  nested sel ->
  nested {| country := country sel; city := city sel; place := None |}.
Proof.
  unfold nested. simpl.
  destruct (place sel), (city sel), (country sel); tauto.
Qed.

Lemma nested_without_city sel :
  nested {| country := country sel; city := None; place := None |}.
Proof. exact I. Qed.

Lemma handleClose_nesting s : nesting_inv s -> nesting_inv (handleClose s).
Proof.
  intros (Hn & Hk & Hc & Hp). unfold handleClose.
  destruct (resetSelectedLayer_groups s) as [Ec Ep].
  apply setSelected_nesting; rewrite ?Ec, ?Ep;
    [exact I | | assumption | assumption].
  intros co [=].
Qed.

Lemma handleBack_nesting s : nesting_inv s -> nesting_inv (handleBack s).
Proof.
  intros Hinv. pose proof Hinv as (Hn & Hk & Hc & Hp). unfold handleBack.
  destruct (place (selected s)) eqn:Epl; [|destruct (city (selected s)) eqn:Eci].
  - apply setSelected_nesting;
      [now apply nested_without_place | exact Hk | assumption | assumption].
  - apply setSelected_nesting; [exact I | exact Hk | assumption | assumption].
  - now apply handleClose_nesting.
Qed.

Lemma step_nesting_inv s e : nesting_inv s -> nesting_inv (step s e).
Proof.
  intros Hinv. pose proof Hinv as (Hn & Hk & Hc & Hp).
  destruct e as [fc|l|l|l|k|k|k|k|k|k| | | |key|z]; simpl.
  - destruct (geoLoaded_fields fc s) as (Es & _ & Ec & Ep & _).
    unfold nesting_inv. now rewrite Es, Ec, Ep.
  - destruct (onPath_cases (fun _ => pathMouseOver) l s) as [->|(p & co & _ & _ & ->)];
      [exact Hinv|].
    unfold pathMouseOver. case_bool_decide; exact Hinv.
  - destruct (onPath_cases (fun _ => pathMouseOut) l s) as [->|(p & co & _ & _ & ->)];
      [exact Hinv|].
    unfold pathMouseOut. case_bool_decide; exact Hinv.
  - destruct (onPath_cases pathClick l s) as [->|(p & co & _ & _ & ->)];
      [exact Hinv|].
    now apply selectCountry_nesting.
  - now apply onMarker_nesting.
  - apply onPlaceHover_nesting; [apply markerMouseOver_onClick | exact Hinv].
  - apply onPlaceHover_nesting; [apply markerMouseOut_onClick | exact Hinv].
  - now apply onMarker_nesting.
  - destruct (panelCities (selected s) !! k) as [ci|] eqn:Ek; [|exact Hinv].
    apply panelCities_lookup in Ek as (_ & _ & co & Eco & Hci).
    unfold onCityClick, selectCity. rewrite Eco.
    apply setSelected_nesting; [exact Hci | | assumption | assumption].
    intros co' [= <-]. now apply Hk.
  - destruct (panelPlaces (selected s) !! k) as [pl|] eqn:Ek; [|exact Hinv].
    apply panelPlaces_lookup in Ek as (Epl & ci & places & Eci & Eplaces & Hpl).
    unfold onPlaceClick, selectPlace. rewrite Eci.
    destruct (country (selected s)) as [co|] eqn:Eco; [|exact Hinv].
    apply setSelected_nesting; [ | | assumption | assumption].
    + unfold nested in Hn. rewrite Epl, Eci, Eco in Hn.
      simpl. split; [now exists places | exact Hn].
    + intros co' [= <-]. now apply Hk.
  - now apply handleBack_nesting.
  - now apply handleClose_nesting.
  - destruct (country (selected s)); [now apply handleClose_nesting | exact Hinv].
  - case_bool_decide; [now apply handleBack_nesting | exact Hinv].
  - unfold setZoom. simpl. destruct (z =? zoom s)%Z; [exact Hinv|].
    unfold nesting_inv. rewrite markerEffect_selected. simpl.
    split; [exact Hn|]. split; [exact Hk|].
    now apply markerEffect_groups_ok.
Qed.

Lemma mounted_nesting_inv : nesting_inv mounted.
Proof.
  repeat split; try exact I.
  - intros co [=].
  - intros ms [= <-]. constructor.
  - intros ms [= <-]. constructor.
Qed.

Lemma run_nesting_inv events s :
  nesting_inv s -> nesting_inv (run events s).
Proof.
  intros Hs. induction events as [|e events IH] using rev_ind; [exact Hs|].
  rewrite run_snoc. now apply step_nesting_inv.
Qed.

(** C8: in every state reached from the mounted component by events of
    the rendering surface and the panel, a selected place comes with a
    selected city that declares it and a selected country that owns that
    city, a selected city comes with a selected country that owns it, and
    the selected country is one of the dataset. *)
Theorem selection_nested (events : list Event) :
  let sel := selected (run events mounted) in
  (forall pl, place sel = Some pl ->
     exists co ci places,
       country sel = Some co /\ city sel = Some ci
       /\ In ci (country_cities co)
       /\ city_places ci = Some places /\ In pl places)
  /\ (forall ci, city sel = Some ci ->
        exists co, country sel = Some co /\ In ci (country_cities co))
  /\ (forall co, country sel = Some co ->
        In co countrySubreddits \/ exists id, countryMap !! id = Some co).
Proof.
  intros sel.
  destruct (run_nesting_inv events mounted mounted_nesting_inv)
    as (Hn & Hk & _).
  fold sel in Hn, Hk. split; [|split; [|exact Hk]].
  - intros pl Hpl. apply nested_spelled in Hn as [Hn _]. now apply Hn.
  - intros ci Hci. apply nested_spelled in Hn as [_ Hn]. now apply Hn.
Qed.

(** *** The selected marker *)

Lemma cityIsActive_iff sel co ci :
  cityIsActive sel co ci = true
  <-> exists co' ci',
        country sel = Some co' /\ city sel = Some ci'
        /\ country_id co' = country_id co /\ city_name ci' = city_name ci.
Proof.
  unfold cityIsActive. rewrite andb_true_iff, !bool_decide_eq_true.
  destruct (country sel) as [co'|], (city sel) as [ci'|]; simpl;
    split; try (intros [? ?]; discriminate);
    try (intros (? & ? & ? & ? & _); discriminate).
  - intros [[= Hci] [= Hco]]. now exists co', ci'.
  - intros (? & ? & [= <-] & [= <-] & -> & ->). now split.
Qed.

(** The country of a place marker is not compared. *)
Lemma placeIsActive_iff sel ci pl :
  placeIsActive sel ci pl = true
  <-> exists ci' pl',
        city sel = Some ci' /\ place sel = Some pl'
        /\ city_name ci' = city_name ci /\ place_name pl' = place_name pl.
Proof.
  unfold placeIsActive. rewrite andb_true_iff, !bool_decide_eq_true.
  destruct (city sel) as [ci'|], (place sel) as [pl'|]; simpl;
    split; try (intros [? ?]; discriminate);
    try (intros (? & ? & ? & ? & _); discriminate).
  - intros [[= Hpl] [= Hci]]. now exists ci', pl'.
  - intros (? & ? & [= <-] & [= <-] & -> & ->). now split.
Qed.

Lemma cityMarker_radius z sel co ci :
  radius (cityMarker z sel co ci)
  = if cityIsActive sel co ci then cityRadius ci + 3 else cityRadius ci.
Proof. reflexivity. Qed.

Lemma placeMarker_radius z sel co ci pl :
  radius (placeMarker z sel co ci pl)
  = if placeIsActive sel ci pl then placeRadius pl + 3 else placeRadius pl.
Proof. reflexivity. Qed.

Lemma cityMarker_drawn_selected z sel co ci :
  drawn_selected (cityMarker z sel co ci) <-> cityIsActive sel co ci = true.
Proof.
  unfold drawn_selected, cityMarker. simpl.
  destruct (cityIsActive sel co ci); split; try done.
  intros [[=] _].
Qed.

Lemma placeMarker_drawn_selected z sel co ci pl :
  drawn_selected (placeMarker z sel co ci pl)
  <-> placeIsActive sel ci pl = true.
Proof.
  unfold drawn_selected, placeMarker. simpl.
  destruct (placeIsActive sel ci pl); split; try done.
  intros [[=] _].
Qed.

(** *** The markers follow the state *)

Lemma marker_move_sync s s' :
  markers_in_sync s -> marker_move s s' -> markers_in_sync s'.
Proof.
  intros (Hc & places & Hp & Howners & Hlabels) Hmove.
  destruct Hmove as [s0 Ec Ep|s' Ez Es Ec Ep|f k Hf].
  - rewrite <- Ec in Hc. rewrite <- Ep in Hp.
    destruct (markerEffect_groups s0 _ _ Hc Hp) as [Hc' Hp'].
    unfold markers_in_sync. rewrite markerEffect_zoom, markerEffect_selected.
    split; [exact Hc'|]. eexists. split; [exact Hp'|].
    destruct (zoom s0 >=? 10)%Z.
    + split; [apply plannedPlaces_owners | apply plannedPlaces_labels].
    + split; [reflexivity | constructor].
  - unfold markers_in_sync. rewrite Ez, Es, Ec, Ep.
    split; [exact Hc|]. now exists places.
  - unfold markers_in_sync. simpl. split; [exact Hc|].
    rewrite Hp. simpl. eexists. split; [reflexivity|]. split.
    + rewrite <- Howners. clear - Hf. revert k.
      induction places as [|m places IH]; intros [|k]; simpl; try reflexivity.
      * now rewrite (proj1 (Hf m)).
      * f_equal. apply IH.
    + apply Forall_alter; [exact Hlabels|].
      intros m _ Hm. unfold labelled_as_planned in *.
      destruct (Hf m) as [-> ->]. exact Hm.
Qed.

Lemma setSelected_marker_move x s s0 :
  cityGroupRef s0 = cityGroupRef s -> placeGroupRef s0 = placeGroupRef s ->
  marker_move s (setSelected x s0).
Proof. intros Ec Ep. unfold setSelected. now constructor. Qed.

Lemma geoLoaded_zoom raw s : zoom (geoLoaded raw s) = zoom s.
Proof.
  unfold geoLoaded. generalize (fixAntimeridian raw) as fc.
  intros fc. revert s. induction fc as [|f fc IH]; intros s; simpl.
  - reflexivity.
  - rewrite IH. unfold addFeature, onEachFeature.
    now destruct (countryMap !! feature_id f).
Qed.

Lemma handleClose_marker_move s : marker_move s (handleClose s).
Proof.
  unfold handleClose. destruct (resetSelectedLayer_groups s) as [Ec Ep].
  now apply setSelected_marker_move.
Qed.

Lemma handleBack_marker_move s : marker_move s (handleBack s).
Proof.
  unfold handleBack.
  destruct (place (selected s)); [|destruct (city (selected s))];
    try (now apply setSelected_marker_move).
  apply handleClose_marker_move.
Qed.

Lemma marker_move_refl s : marker_move s s.
Proof. now apply markers_kept. Qed.

Lemma onMarker_marker_move group k s : marker_move s (onMarker group k s).
Proof.
  unfold onMarker. destruct group as [ms|]; [|apply marker_move_refl].
  destruct (ms !! k) as [m|]; [|apply marker_move_refl].
  unfold markerClick, selectCity, selectPlace.
  destruct (onClick m); now apply setSelected_marker_move.
Qed.

Lemma step_marker_move s e : marker_move s (step s e).
Proof.
  destruct e as [fc|l|l|l|k|k|k|k|k|k| | | |key|z]; simpl.
  - destruct (geoLoaded_fields fc s) as (Es & _ & Ec & Ep & _).
    apply markers_kept; auto using geoLoaded_zoom.
  - destruct (onPath_cases (fun _ => pathMouseOver) l s) as [->|(p & co & _ & _ & ->)];
      [apply marker_move_refl|].
    unfold pathMouseOver. case_bool_decide; now apply markers_kept.
  - destruct (onPath_cases (fun _ => pathMouseOut) l s) as [->|(p & co & _ & _ & ->)];
      [apply marker_move_refl|].
    unfold pathMouseOut. case_bool_decide; now apply markers_kept.
  - destruct (onPath_cases pathClick l s) as [->|(p & co & _ & _ & ->)];
      [apply marker_move_refl|].
    unfold pathClick, selectCountry.
    destruct (countryMap !! country_id co); [|apply marker_move_refl].
    unfold exec, selectCountry_body. simpl.
    destruct (unhighlightPrevious_groups l s) as [Ec Ep].
    now apply setSelected_marker_move.
  - apply onMarker_marker_move.
  - apply markers_hovered. intros m. unfold markerMouseOver.
    now destruct (hover m) as [[r a]|].
  - apply markers_hovered. intros m. unfold markerMouseOut.
    now destruct (hover m) as [[r a]|].
  - apply onMarker_marker_move.
  - destruct (panelCities (selected s) !! k); [|apply marker_move_refl].
    unfold onCityClick, selectCity.
    destruct (country (selected s)); [|apply marker_move_refl].
    now apply setSelected_marker_move.
  - destruct (panelPlaces (selected s) !! k); [|apply marker_move_refl].
    unfold onPlaceClick, selectPlace.
    destruct (country (selected s)); [|apply marker_move_refl].
    destruct (city (selected s)); [|apply marker_move_refl].
    now apply setSelected_marker_move.
  - apply handleBack_marker_move.
  - apply handleClose_marker_move.
  - destruct (country (selected s));
      [apply handleClose_marker_move | apply marker_move_refl].
  - case_bool_decide; [apply handleBack_marker_move | apply marker_move_refl].
  - unfold setZoom. simpl. destruct (z =? zoom s)%Z.
    + now apply markers_kept.
    + now apply markers_rebuilt.
Qed.

(** At every settled state the markers are the plan for the current zoom
    and selection: none is stale. *)
Lemma run_markers_in_sync events : markers_in_sync (run events mounted).
Proof.
  induction events as [|e events IH] using rev_ind.
  - split; [reflexivity|]. exists []. repeat split. constructor.
  - rewrite run_snoc. eapply marker_move_sync; [exact IH|apply step_marker_move].
Qed.

(** When the table is keyed by the identifiers of its countries, the
    selected country has the identifier of the highlighted drawable's
    country. *)
Lemma highlight_matches_selection_id s :
  (forall id co, countryMap !! id = Some co -> country_id co = id) ->
  highlight_matches_selection s ->
  forall l p, layers s !! l = Some p -> highlighted p ->
    country_id <$> country (selected s) = country_id <$> pathCountry p.
Proof.
  intros Hkey Hm l p Hl Hp.
  destruct (Hm l p Hl Hp) as (co & co' & -> & Hmap & ->). simpl.
  now rewrite (Hkey _ _ Hmap).
Qed.

Lemma highlightedb_spec p : highlightedb p = true <-> highlighted p.
Proof.
  unfold highlightedb, highlighted.
  now rewrite andb_true_iff, !Qeq_bool_iff.
Qed.

End Properties.

(** ** Scenarios *)

Lemma makeContinuous_continuous_witness :
  (Z.of_nat (length rounding_ring) <= 2 ^ 32)%Z
  /\ (forall p, In p rounding_ring -> -180 <= lon p <= 180)
  /\ Qabs (lon (at_ (makeContinuous rounding_ring) 3)
           - lon (at_ (makeContinuous rounding_ring) 2))
     <= 180 + rounding_slack (length rounding_ring).
Proof.
  assert (Hlen : (Z.of_nat (length rounding_ring) <= 2 ^ 32)%Z)
    by (vm_compute; discriminate).
  assert (Hrange : forall p, In p rounding_ring -> -180 <= lon p <= 180).
  { intros p Hp. simpl in Hp.
    destruct Hp as [<-|[<-|[<-|[<-|[]]]]]; split; vm_compute; discriminate. }
  split; [exact Hlen|]. split; [exact Hrange|].
  apply (makeContinuous_continuous rounding_ring Hlen Hrange 2%nat).
  vm_compute. lia.
Defined.

Lemma marker_plan_witness :
  exists cities places,
    cityGroupRef (markerEffect (imports := demoImports) (with_zoom 11 mounted))
    = Some cities
    /\ placeGroupRef (markerEffect (imports := demoImports) (with_zoom 11 mounted))
       = Some places
    /\ map onClick cities
       = [ClickCity france paris; ClickCity france lyon;
          ClickCity germany berlin]
    /\ map onClick places = [ClickPlace france paris montmartre]
    /\ Forall (labelled_as_planned 11) cities
    /\ Forall (labelled_as_planned 11) places.
Proof.
  apply (marker_plan (imports := demoImports) (with_zoom 11 mounted) [] []);
    reflexivity.
Defined.


(** C5 (as stated) fails: with Montmartre selected, two [back()] leave
    France selected; the selection is not None. *)
Lemma handleBack_twice_keeps_country :
  place (selected montmartreSelected) = Some montmartre
  /\ selected
       (handleBack (imports := demoImports)
          (handleBack (imports := demoImports) montmartreSelected))
     = {| country := Some france; city := None; place := None |}
  /\ selected
       (handleBack (imports := demoImports)
          (handleBack (imports := demoImports) montmartreSelected))
     <> noSelection.
Proof.
  split; [reflexivity|]. split; [reflexivity|].
  intros H. vm_compute in H. discriminate H.
Qed.

Lemma handleBack_three_levels_witness :
  let s := montmartreSelected in
  let s1 := handleBack (imports := demoImports) s in
  let s2 := handleBack (imports := demoImports) s1 in
  let s3 := handleBack (imports := demoImports) s2 in
  place (selected s) = Some montmartre
  /\ city (selected s) = Some paris
  /\ selectedLayerRef s = Some 0%nat
  /\ map highlightedb (layers s) = [true; false; false]
  /\ map highlightedb (layers s1) = [true; false; false]
  /\ map highlightedb (layers s2) = [true; false; false]
  /\ selected s2 = {| country := Some france; city := None; place := None |}
  /\ selected s3 = noSelection
  /\ selectedLayerRef s3 = None
  /\ exists p3,
       layers s3 !! 0%nat = Some p3
       /\ ~ highlighted p3
       /\ options p3 = countryStyle (Some france).
Proof.
  intros s s1 s2 s3.
  pose proof (handleBack_three_levels (imports := demoImports) s
                montmartre paris eq_refl eq_refl)
    as (Hsel2 & [Hl1 _] & [Hl2 _] & Hsel3 & Href3 & Hstored & _).
  fold s1 in Hl1. fold s1 s2 in Hl2, Hsel2. fold s1 s2 s3 in Hsel3, Href3, Hstored.
  split; [reflexivity|]. split; [reflexivity|]. split; [reflexivity|].
  split; [vm_compute; reflexivity|].
  split; [rewrite Hl1; vm_compute; reflexivity|].
  split; [rewrite Hl2; vm_compute; reflexivity|].
  split; [exact Hsel2|]. split; [exact Hsel3|]. split; [exact Href3|].
  destruct (Hstored 0%nat _ eq_refl eq_refl) as (p3 & Hp3 & Hnot & ->).
  eexists. split; [exact Hp3|]. split; [exact Hnot|]. reflexivity.
Defined.

Lemma handleBack_one_level_witness :
  (place (selected montmartreSelected) = Some montmartre
   /\ selected (handleBack (imports := demoImports) montmartreSelected)
      = {| country := Some france; city := Some paris; place := None |}
   /\ map highlightedb
        (layers (handleBack (imports := demoImports) montmartreSelected))
      = [true; false; false])
  /\ (place (selected (run (imports := demoImports) [PanelBack] montmartreSelected))
      = None
      /\ city (selected (run (imports := demoImports) [PanelBack] montmartreSelected))
         = Some paris
      /\ selected
           (handleBack (imports := demoImports)
              (run (imports := demoImports) [PanelBack] montmartreSelected))
         = {| country := Some france; city := None; place := None |}
      /\ map highlightedb
           (layers
              (handleBack (imports := demoImports)
                 (run (imports := demoImports) [PanelBack] montmartreSelected)))
         = [true; false; false])
  /\ (place (selected franceSelected) = None
      /\ city (selected franceSelected) = None
      /\ selectedLayerRef franceSelected = Some 0%nat
      /\ map highlightedb (layers franceSelected) = [true; false; false]
      /\ selected (handleBack (imports := demoImports) franceSelected)
         = noSelection
      /\ selectedLayerRef (handleBack (imports := demoImports) franceSelected)
         = None
      /\ map options (layers (handleBack (imports := demoImports) franceSelected))
         = [countryStyle (Some france); countryStyle (Some germany);
            countryStyle None]).
Proof.
  split; [|split].
  - pose proof (proj1 (handleBack_one_level (imports := demoImports)
                         montmartreSelected) montmartre eq_refl)
      as (Hsel & Hl & _).
    split; [reflexivity|]. split; [exact Hsel|].
    rewrite Hl. vm_compute. reflexivity.
  - pose proof (proj1 (proj2 (handleBack_one_level (imports := demoImports)
                                (run (imports := demoImports) [PanelBack]
                                   montmartreSelected)))
                  paris eq_refl eq_refl)
      as (Hsel & Hl & _).
    split; [reflexivity|]. split; [reflexivity|]. split; [exact Hsel|].
    rewrite Hl. vm_compute. reflexivity.
  - pose proof (proj2 (proj2 (handleBack_one_level (imports := demoImports)
                                franceSelected)) eq_refl eq_refl)
      as (Hsel & Href & Hstored & Hothers).
    split; [reflexivity|]. split; [reflexivity|]. split; [reflexivity|].
    split; [vm_compute; reflexivity|].
    split; [exact Hsel|]. split; [exact Href|].
    pose proof (Hstored 0%nat _ eq_refl eq_refl) as H0.
    pose proof (Hothers 1%nat ltac:(discriminate)) as H1.
    pose proof (Hothers 2%nat ltac:(discriminate)) as H2.
    pose proof (Hothers 3%nat ltac:(discriminate)) as H3.
    destruct (layers (handleBack (imports := demoImports) franceSelected))
      as [|p0 [|p1 [|p2 [|p3 rest]]]]; try discriminate.
    injection H0 as ->. injection H1 as ->. injection H2 as ->.
    reflexivity.
Defined.

Lemma selection_nested_witness :
  (place (selected montmartreSelected) = Some montmartre
   /\ exists co ci places,
        country (selected montmartreSelected) = Some co
        /\ city (selected montmartreSelected) = Some ci
        /\ In ci (country_cities co)
        /\ city_places ci = Some places /\ In montmartre places)
  /\ (city (selected montmartreSelected) = Some paris
      /\ exists co,
           country (selected montmartreSelected) = Some co
           /\ In paris (country_cities co))
  /\ (country (selected montmartreSelected) = Some france
      /\ (In france (countrySubreddits (Imports := demoImports))
          \/ exists id, countryMap (Imports := demoImports) !! id = Some france)).
Proof.
  pose proof (selection_nested (imports := demoImports) montmartreEvents)
    as (Hplace & Hcity & Hcountry).
  split; [|split].
  - split; [reflexivity|]. apply (Hplace montmartre eq_refl).
  - split; [reflexivity|]. apply (Hcity paris eq_refl).
  - split; [reflexivity|]. apply (Hcountry france eq_refl).
Defined.

Lemma selectCountry_unknown_id_witness :
  countryMap (Imports := demoImports) !! "999" = None
  /\ selectCountry (imports := demoImports) "999" 1 franceSelected
     = franceSelected.
Proof.
  split; [reflexivity|].
  apply (selectCountry_unknown_id (imports := demoImports) "999" 1
           franceSelected eq_refl).
Defined.

Lemma nothing_selected_fixpoint_witness :
  selected mounted = noSelection /\ selectedLayerRef mounted = None
  /\ handleBack (imports := demoImports) mounted = mounted
  /\ handleClose (imports := demoImports) mounted = mounted.
Proof.
  split; [reflexivity|]. split; [reflexivity|].
  apply (proj1 (nothing_selected_fixpoint (imports := demoImports) mounted)
           eq_refl eq_refl).
  reflexivity.
Defined.

(** C7 (where the code departs from it): with two countries that each have
    a city "London" with a place "Soho", and Soho of London, United Kingdom
    selected, the marker of Soho of London, Canada is drawn as the selected
    marker too, 3 units larger and in the highlight colours, although its
    entity is not the selected one: [placeIsActive] compares the names of
    the place and of the city, not the country, which [cityIsActive] does
    compare. *)
Theorem namesake_place_marker_highlighted (log10 : Z -> Q) :
  let s := sohoUKSelected log10 in
  selected s
  = {| country := Some unitedKingdom; city := Some londonUK;
       place := Some sohoUK |}
  /\ exists m0 m,
       placeGroupRef s = Some [m0; m]
       /\ onClick m0 = ClickPlace unitedKingdom londonUK sohoUK
       /\ onClick m = ClickPlace canada londonON sohoON
       /\ ~ owner_selected (selected s) (onClick m)
       /\ drawn_selected m0 /\ drawn_selected m
       /\ radius m = placeRadius (imports := twoLondons log10) sohoON + 3.
Proof.
  intros s. split; [reflexivity|].
  exists (placeMarker (imports := twoLondons log10) 14 (selected s)
            unitedKingdom londonUK sohoUK),
         (placeMarker (imports := twoLondons log10) 14 (selected s)
            canada londonON sohoON).
  do 3 (split; [reflexivity|]). split; [|split; [|split]].
  - intros [Hco _]. discriminate Hco.
  - split; reflexivity.
  - split; reflexivity.
  - reflexivity.
Qed.

(** The city markers of the same dataset: only the selected London is
    drawn as selected. *)
Lemma namesake_city_marker_plain (log10 : Z -> Q) :
  map (fun m => (onClick m, bool_decide (fillColor (markerOptions m) = "#FFD700")))
    (default [] (cityGroupRef (sohoUKSelected log10)))
  = [(ClickCity unitedKingdom londonUK, true);
     (ClickCity canada londonON, false)].
Proof. reflexivity. Qed.

(** The highlight along the scenario: Germany hovered, France selected,
    Germany left, Germany selected, France hovered, then cancel. *)
Example demoEvents_highlights :
  map (fun n => map highlightedb
                  (layers (run (imports := demoImports) (take n demoEvents) mounted)))
    [3; 4; 5; 6; 7]%nat
  = [[true; false; false]; [true; false; false]; [false; true; false];
     [false; true; false]; [false; false; false]].
Proof. vm_compute. reflexivity. Qed.

(* ================================================================== *)
(** * Further properties *)
(* ================================================================== *)

(** ** The corrector moves points by whole turns only *)

Lemma Qplus_0_r_eq (x : Q) : x + 0 = x.
Proof.
  destruct x as [n d]. unfold Qplus. simpl.
  now rewrite Z.mul_1_r, Z.add_0_r, Pos.mul_1_r.
Qed.

Lemma add64_zero (x : Q) : binary64 x -> add64 x 0 = x.
Proof. intros Hx. unfold add64. now rewrite Qplus_0_r_eq. Qed.

Lemma corrected_tail_turns rest : forall prev (k b : Z),
  (Z.abs k <= b)%Z -> (b + Z.of_nat (length rest) <= 2 ^ 32)%Z ->
  Forall2 shifted_by_turns rest
    (corrected_tail prev (inject_Z (360 * k)) rest).
Proof.
  induction rest as [|p rest IH]; intros prev k b Hk Hb;
    cbn [corrected_tail]; [constructor|].
  cbn [length] in Hb. rewrite Nat2Z.inj_succ in Hb.
  destruct (next_offset_turns (360 * k) (sub64 (lon p) prev))
    as (z' & -> & Hcase); [lia|].
  assert (Hk' : exists k', z' = (360 * k')%Z /\ (Z.abs k' <= b + 1)%Z).
  { destruct Hcase as [[-> _]|[[-> _]|[-> _]]];
      [exists (k - 1)%Z | exists (k + 1)%Z | exists k]; lia. }
  destruct Hk' as (k' & -> & Hk').
  constructor.
  - split; [reflexivity|]. now exists k'.
  - apply (IH _ k' (b + 1)%Z); lia.
Qed.

(** X1: [makeContinuous] moves every point east or west by a whole number
    of turns of 360 degrees, and leaves its latitude alone: each output
    longitude is the binary64 sum of the input longitude and [360 k], for an
    integer [k]. *)
Theorem makeContinuous_whole_turns (ring : list Position) :
  (Z.of_nat (length ring) <= 2 ^ 32)%Z ->
  binary64_ring ring ->
  Forall2 shifted_by_turns ring (makeContinuous ring).
Proof.
  intros Hlen Hring. rewrite makeContinuous_eq_ref.
  destruct ring as [|p0 rest]; cbn [makeContinuous_ref]; [constructor|].
  apply Forall_cons_iff in Hring as [Hp0 _]. cbn [length] in Hlen.
  constructor.
  - split; [reflexivity|]. exists 0%Z. symmetry. now apply add64_zero.
  - apply (corrected_tail_turns rest (lon p0) 0 0); lia.
Qed.

(** ** Rings that do not cross are left as they are *)

Lemma next_offset_small (x prev : Q) :
  Qabs (x - prev) <= 180 -> next_offset 0 (sub64 x prev) = 0.
Proof.
  intros Hd. apply Qabs_Qle_condition in Hd as [Hlo Hhi].
  unfold next_offset, sub64.
  assert (Hgt : Qgtb (round64 (x - prev)) 180 = false).
  { apply Qgtb_false. apply (round64_le_Z _ 180); [reflexivity | exact Hhi]. }
  assert (Hlt : Qltb (round64 (x - prev)) (-180) = false).
  { apply Qltb_false. apply (round64_ge_Z _ (-180)); [reflexivity | exact Hlo]. }
  now rewrite Hgt, Hlt.
Qed.

Lemma corrected_tail_fixed rest : forall prev,
  binary64_ring rest ->
  Forall (fun d => Qabs d <= 180) (jumps prev rest) ->
  corrected_tail prev 0 rest = rest.
Proof.
  induction rest as [|p rest IH]; intros prev Hb Hj;
    cbn [corrected_tail jumps] in *; [reflexivity|].
  apply Forall_cons_iff in Hj as [Hd Hj].
  apply Forall_cons_iff in Hb as [Hp Hb].
  rewrite (next_offset_small _ _ Hd), (add64_zero _ Hp), (IH _ Hb Hj).
  now destruct p.
Qed.

Lemma makeContinuous_fixed ring :
  binary64_ring ring -> continuous ring -> makeContinuous ring = ring.
Proof.
  intros Hb Hc. rewrite makeContinuous_eq_ref.
  destruct ring as [|p0 rest]; simpl; [reflexivity|].
  apply Forall_cons_iff in Hb as [_ Hb].
  f_equal. now apply corrected_tail_fixed.
Qed.

(** X2: a ring none of whose consecutive longitudes are more than 180
    apart is returned with the very same coordinates. *)
Theorem makeContinuous_leaves_continuous_ring (ring : list Position) :
  binary64_ring ring ->
  (forall i, (S i < length ring)%nat ->
     Qabs (lon (at_ ring (S i)) - lon (at_ ring i)) <= 180) ->
  makeContinuous ring = ring.
Proof.
  intros Hb Hc. now apply makeContinuous_fixed; [|apply continuous_by_index].
Qed.

(** ** Correcting twice *)

Lemma corrected_tail_binary64 rest : forall prev offset,
  binary64_ring (corrected_tail prev offset rest).
Proof.
  induction rest as [|p rest IH]; intros prev offset; cbn [corrected_tail];
    constructor; [apply round64_idempotent | apply IH].
Qed.

Lemma makeContinuous_binary64 ring :
  binary64_ring ring -> binary64_ring (makeContinuous ring).
Proof.
  intros Hb. rewrite makeContinuous_eq_ref.
  destruct ring as [|p0 rest]; cbn [makeContinuous_ref]; [constructor|].
  apply Forall_cons_iff in Hb as [Hp0 _].
  constructor; [exact Hp0 | apply corrected_tail_binary64].
Qed.

(** X3: correcting twice is correcting once, whenever the first correction
    left no two consecutive longitudes more than 180 apart. *)
Theorem makeContinuous_idempotent (ring : list Position) :
  binary64_ring ring ->
  (forall i, (S i < length (makeContinuous ring))%nat ->
     Qabs (lon (at_ (makeContinuous ring) (S i))
           - lon (at_ (makeContinuous ring) i)) <= 180) ->
  makeContinuous (makeContinuous ring) = makeContinuous ring.
Proof.
  intros Hb Hc. apply makeContinuous_fixed.
  - now apply makeContinuous_binary64.
  - now apply continuous_by_index.
Qed.

(** Where a rounding left a consecutive difference above 180, the second
    correction shifts again: the last point of [rounding_ring] goes from
    450 back to 90. *)
Lemma makeContinuous_twice_rounding_ring :
  map lon (makeContinuous rounding_ring)
  = [170; 190; 4749890231992319 # 17592186044416; 450]
  /\ map lon (makeContinuous (makeContinuous rounding_ring))
     = [170; 190; 4749890231992319 # 17592186044416; 90].
Proof. split; vm_compute; reflexivity. Qed.

(** ** Features keep their identity and their shape *)

Lemma makeContinuous_skeleton ring :
  ringSkeleton (makeContinuous ring) = ringSkeleton ring.
Proof.
  unfold ringSkeleton. rewrite makeContinuous_eq_ref.
  rewrite <- !(map_map lat (fun y => (0, y))). f_equal.
  destruct ring as [|p0 rest]; simpl; [reflexivity|].
  now rewrite corrected_tail_lat.
Qed.

Lemma fixGeom_skeleton geom : skeleton (fixGeom geom) = skeleton geom.
Proof.
  destruct geom as [cs|cs|]; simpl; [| |reflexivity]; f_equal.
  - rewrite map_map. apply map_ext. intros r. apply makeContinuous_skeleton.
  - rewrite map_map. apply map_ext. intros poly. rewrite map_map.
    apply map_ext. intros r. apply makeContinuous_skeleton.
Qed.

Lemma map_fixed {A} (f : A -> A) (l : list A) :
  (forall x, In x l -> f x = x) -> map f l = l.
Proof.
  induction l as [|x l IH]; intros Hf; simpl; [reflexivity|].
  rewrite Hf by now left. f_equal. apply IH. intros y Hy. apply Hf. now right.
Qed.

Lemma fixGeom_fixed geom :
  (forall ring, In ring (ringsOf geom) -> binary64_ring ring /\ continuous ring) ->
  fixGeom geom = geom.
Proof.
  destruct geom as [cs|cs|]; simpl; intros Hc; [| |reflexivity]; f_equal.
  - apply map_fixed. intros r Hr. now apply makeContinuous_fixed; apply Hc.
  - apply map_fixed. intros poly Hpoly. apply map_fixed. intros r Hr.
    assert (Hin : In r (concat cs)) by (apply in_concat; now exists poly).
    now apply makeContinuous_fixed; apply Hc.
Qed.

(** X4: [fixAntimeridian] keeps the features, in order, with their ids and
    the shape of their geometries (kind, rings, points per ring,
    latitudes); and a collection none of whose rings jumps by more than 180
    degrees is returned as it is. *)
Theorem fixAntimeridian_keeps_features (fc : list Feature) :
  map (fun f => (feature_id f, skeleton (feature_geometry f))) (fixAntimeridian fc)
  = map (fun f => (feature_id f, skeleton (feature_geometry f))) fc
  /\ ((forall f ring,
         In f fc -> In ring (ringsOf (feature_geometry f)) ->
         binary64_ring ring /\ continuous ring) ->
      fixAntimeridian fc = fc).
Proof.
  unfold fixAntimeridian. split.
  - rewrite map_map. apply map_ext. intros f. simpl.
    now rewrite fixGeom_skeleton.
  - intros Hc. apply map_fixed. intros [id geom] Hf. simpl. f_equal.
    apply fixGeom_fixed. intros ring Hring. exact (Hc _ _ Hf Hring).
Qed.

Lemma crossing_ring_binary64 : binary64_ring crossing_ring.
Proof. repeat constructor; vm_compute; reflexivity. Qed.

Lemma makeContinuous_whole_turns_witness :
  (Z.of_nat (length crossing_ring) <= 2 ^ 32)%Z
  /\ binary64_ring crossing_ring
  /\ Forall2 shifted_by_turns crossing_ring
       [(178, 65); (179, 66); (181, 66); (182, 65); (179, 64); (178, 65)].
Proof.
  assert (Hlen : (Z.of_nat (length crossing_ring) <= 2 ^ 32)%Z)
    by (vm_compute; discriminate).
  split; [exact Hlen|]. split; [exact crossing_ring_binary64|].
  exact (makeContinuous_whole_turns crossing_ring Hlen crossing_ring_binary64).
Defined.

Lemma makeContinuous_leaves_continuous_ring_witness :
  binary64_ring plain_ring
  /\ (forall i, (S i < length plain_ring)%nat ->
        Qabs (lon (at_ plain_ring (S i)) - lon (at_ plain_ring i)) <= 180)
  /\ makeContinuous plain_ring = plain_ring.
Proof.
  assert (Hb : binary64_ring plain_ring)
    by (repeat constructor; vm_compute; reflexivity).
  assert (H : forall i, (S i < length plain_ring)%nat ->
     Qabs (lon (at_ plain_ring (S i)) - lon (at_ plain_ring i)) <= 180).
  { intros i Hi. vm_compute in Hi.
    do 4 (destruct i as [|i]; [vm_compute; discriminate|]). lia. }
  split; [exact Hb|]. split; [exact H|].
  apply (makeContinuous_leaves_continuous_ring plain_ring Hb H).
Defined.

Lemma makeContinuous_idempotent_witness :
  binary64_ring crossing_ring
  /\ (forall i, (S i < length (makeContinuous crossing_ring))%nat ->
        Qabs (lon (at_ (makeContinuous crossing_ring) (S i))
              - lon (at_ (makeContinuous crossing_ring) i)) <= 180)
  /\ makeContinuous (makeContinuous crossing_ring) = makeContinuous crossing_ring.
Proof.
  assert (H : forall i, (S i < length (makeContinuous crossing_ring))%nat ->
     Qabs (lon (at_ (makeContinuous crossing_ring) (S i))
           - lon (at_ (makeContinuous crossing_ring) i)) <= 180).
  { intros i Hi. vm_compute in Hi.
    do 5 (destruct i as [|i]; [vm_compute; discriminate|]). lia. }
  split; [exact crossing_ring_binary64|]. split; [exact H|].
  apply (makeContinuous_idempotent crossing_ring crossing_ring_binary64 H).
Defined.

Lemma fixAntimeridian_keeps_features_witness :
  (forall f ring,
      In f demoFeatures -> In ring (ringsOf (feature_geometry f)) ->
      binary64_ring ring /\ continuous ring)
  /\ fixAntimeridian demoFeatures = demoFeatures.
Proof.
  assert (H : forall f ring,
      In f demoFeatures -> In ring (ringsOf (feature_geometry f)) ->
      binary64_ring ring /\ continuous ring).
  { intros f ring Hf Hring. simpl in Hf.
    destruct Hf as [<-|[<-|[<-|[]]]]; simpl in Hring;
      try (destruct Hring as [<-|[]]); try (destruct Hring);
      (split; [repeat constructor; vm_compute; reflexivity|]);
      unfold continuous, jumps_within; simpl;
      repeat constructor; vm_compute; discriminate. }
  split; [exact H|].
  apply (proj2 (fixAntimeridian_keeps_features demoFeatures) H).
Defined.

(** ** The drawables under every event *)

Section Surface.
Context {imports : Imports}.

Lemma markerEffect_rest s :
  front (markerEffect s) = front s
  /\ countryLayersRef (markerEffect s) = countryLayersRef s
  /\ zoomRef (markerEffect s) = zoomRef s.
Proof.
  unfold markerEffect. destruct (cityGroupRef s), (placeGroupRef s); auto.
Qed.

Lemma setSelected_rest x s :
  front (setSelected x s) = front s
  /\ countryLayersRef (setSelected x s) = countryLayersRef s
  /\ zoomRef (setSelected x s) = zoomRef s.
Proof. unfold setSelected. apply (markerEffect_rest (with_selected x s)). Qed.

Lemma setSelected_kept x s : surface_move s (setSelected x s).
Proof.
  destruct (setSelected_rest x s) as (Hf & Hr & _).
  apply surface_kept; auto using setSelected_selectedLayerRef, setSelected_layers.
Qed.

Lemma surface_move_refl s : surface_move s s.
Proof. now apply surface_kept. Qed.

Lemma resetSelectedLayer_rest s :
  front (resetSelectedLayer s) = front s
  /\ countryLayersRef (resetSelectedLayer s) = countryLayersRef s
  /\ zoomRef (resetSelectedLayer s) = zoomRef s.
Proof. unfold resetSelectedLayer. destruct (selectedLayerRef s); auto. Qed.

Lemma handleClose_surface s : surface_move s (handleClose s).
Proof.
  unfold handleClose.
  destruct (setSelected_rest noSelection (resetSelectedLayer s)) as (Hf & Hr & _).
  destruct (resetSelectedLayer_rest s) as (Hf' & Hr' & _).
  apply surface_reset.
  - now rewrite setSelected_selectedLayerRef, resetSelectedLayer_selectedLayerRef.
  - now rewrite setSelected_layers, resetSelectedLayer_layers.
  - congruence.
  - congruence.
Qed.

Lemma handleBack_surface s : surface_move s (handleBack s).
Proof.
  unfold handleBack.
  destruct (place (selected s)); [|destruct (city (selected s))];
    try apply setSelected_kept.
  apply handleClose_surface.
Qed.

Lemma onMarker_surface group k s : surface_move s (onMarker group k s).
Proof.
  unfold onMarker. destruct group as [ms|]; [|apply surface_move_refl].
  destruct (ms !! k) as [m|]; [|apply surface_move_refl].
  unfold markerClick, selectCity, selectPlace.
  destruct (onClick m); apply setSelected_kept.
Qed.

Lemma unhighlightPrevious_rest layer s :
  front (unhighlightPrevious layer s) = front s
  /\ countryLayersRef (unhighlightPrevious layer s) = countryLayersRef s.
Proof.
  unfold unhighlightPrevious.
  destruct (selectedLayerRef s); [case_bool_decide|]; auto.
Qed.

Lemma pathClick_surface co l p s :
  layers s !! l = Some p -> pathCountry p = Some co ->
  surface_move s (pathClick co l s).
Proof.
  intros Hl Hco. unfold pathClick.
  destruct (countryMap !! country_id co) as [co'|] eqn:E;
    [|unfold selectCountry; rewrite E; apply surface_move_refl].
  destruct (selectCountry_known _ l s _ E) as (_ & Href & Hlayers).
  assert (front (selectCountry (country_id co) l s) = front s
          /\ countryLayersRef (selectCountry (country_id co) l s)
             = countryLayersRef s) as [Hf Hr].
  { unfold selectCountry, exec, selectCountry_body. rewrite E. simpl.
    match goal with
    | |- context [setSelected ?x ?t] =>
        destruct (setSelected_rest x t) as (-> & -> & _)
    end.
    simpl. apply unhighlightPrevious_rest. }
  now apply (surface_selected s _ l p co co').
Qed.

(** Every event but the arrival of the geometry is one move. *)
Lemma step_surface_move s e :
  match e with GeoLoaded _ => False | _ => True end ->
  surface_move s (step s e).
Proof.
  destruct e as [fc|l|l|l|k|k|k|k|k|k| | | |key|z]; simpl; intros He;
    try contradiction.
  - destruct (onPath_cases (fun _ => pathMouseOver) l s) as [->|(p & co & Hl & Hco & ->)];
      [apply surface_move_refl|].
    apply (surface_over s _ l p co Hl Hco);
      unfold pathMouseOver; case_bool_decide; reflexivity.
  - destruct (onPath_cases (fun _ => pathMouseOut) l s) as [->|(p & co & Hl & Hco & ->)];
      [apply surface_move_refl|].
    apply (surface_out s _ l p co Hl Hco);
      unfold pathMouseOut; case_bool_decide; reflexivity.
  - destruct (onPath_cases pathClick l s) as [->|(p & co & Hl & Hco & ->)];
      [apply surface_move_refl|].
    now apply (pathClick_surface co l p).
  - apply onMarker_surface.
  - now apply surface_kept.
  - now apply surface_kept.
  - apply onMarker_surface.
  - destruct (panelCities (selected s) !! k); [|apply surface_move_refl].
    unfold onCityClick, selectCity.
    destruct (country (selected s)); [|apply surface_move_refl].
    apply setSelected_kept.
  - destruct (panelPlaces (selected s) !! k); [|apply surface_move_refl].
    unfold onPlaceClick, selectPlace.
    destruct (country (selected s)); [|apply surface_move_refl].
    destruct (city (selected s)); [|apply surface_move_refl].
    apply setSelected_kept.
  - apply handleBack_surface.
  - apply handleClose_surface.
  - destruct (country (selected s));
      [apply handleClose_surface | apply surface_move_refl].
  - case_bool_decide; [apply handleBack_surface | apply surface_move_refl].
  - unfold setZoom. simpl. destruct (z =? zoom s)%Z.
    + now apply surface_kept.
    + destruct (markerEffect_rest (with_zoom z (with_zoomRef z s))) as (Hf & Hr & _).
      apply surface_kept;
        rewrite ?markerEffect_selectedLayerRef, ?markerEffect_layers; auto.
Qed.

(** One feature of the geometry load is one move. *)
Lemma addFeature_surface_move s f : surface_move s (addFeature s f).
Proof.
  apply (surface_added s _ f); unfold addFeature, onEachFeature, drawableOf, registered;
    destruct (countryMap !! feature_id f) as [co|]; simpl; try reflexivity.
  replace (length (layers s)) with (length (layers s) + 0)%nat at 1 by lia.
  now rewrite alter_app_r.
Qed.

(** A property of states that every move keeps holds along every run. *)
Lemma run_surface_inv (P : State -> Prop) :
  (forall s s', surface_move s s' -> P s -> P s') ->
  forall s, P s -> forall events, P (run events s).
Proof.
  intros Hmove s Hs events.
  induction events as [|e events IH] using rev_ind; [exact Hs|].
  rewrite run_snoc.
  destruct e as [fc| | | | | | | | | | | | | |];
    try (eapply Hmove; [apply step_surface_move; exact I | exact IH]).
  simpl. unfold geoLoaded. generalize (fixAntimeridian fc) as features.
  generalize dependent (run events s). clear - Hmove.
  intros s Hs features. revert s Hs.
  induction features as [|f features IHf]; intros s Hs; simpl; [exact Hs|].
  apply IHf. eapply Hmove; [apply addFeature_surface_move | exact Hs].
Qed.

(** *** A restyle keeps the country of every drawable *)

Lemma restyle_countries f i (ls : list Path) l :
  pathCountry <$> alter (restyle f) i ls !! l = pathCountry <$> ls !! l.
Proof.
  destruct (decide (i = l)) as [->|Hne].
  - rewrite list_lookup_alter, decide_True by done. now destruct (ls !! l).
  - now rewrite list_lookup_alter_ne.
Qed.

Lemma restored_countries ref (ls : list Path) l :
  pathCountry <$>
    (match ref with
     | Some old => alter (restyle restoreStyle) old ls
     | None => ls
     end) !! l
  = pathCountry <$> ls !! l.
Proof. destruct ref; [apply restyle_countries | reflexivity]. Qed.

Lemma unhighlighted_countries ref layer (ls : list Path) l :
  pathCountry <$>
    (match ref with
     | Some old =>
         if bool_decide (old <> layer)
         then alter (restyle restoreStyle) old ls else ls
     | None => ls
     end) !! l
  = pathCountry <$> ls !! l.
Proof.
  destruct ref; [case_bool_decide|]; try reflexivity. apply restyle_countries.
Qed.

(** A move other than the arrival of a feature keeps the registry and the
    country of the drawable at every index. *)
Lemma surface_move_countries s s' :
  surface_move s s' ->
  (exists f, layers s' = layers s ++ [drawableOf f]
             /\ countryLayersRef s'
                = registered f (length (layers s)) (countryLayersRef s))
  \/ (countryLayersRef s' = countryLayersRef s
      /\ forall l, pathCountry <$> layers s' !! l = pathCountry <$> layers s !! l).
Proof.
  intros [Href Hl Hf Hr|f Href Hl Hf Hr|l p co Hp Hco Href Hl Hf Hr
         |l p co Hp Hco Href Hl Hf Hr|Href Hl Hf Hr
         |l p co co' Hp Hco Hmap Href Hl Hf Hr].
  - right. split; [exact Hr|]. intros l. now rewrite Hl.
  - left. now exists f.
  - right. split; [exact Hr|]. intros l'. rewrite Hl.
    case_bool_decide; [apply restyle_countries | reflexivity].
  - right. split; [exact Hr|]. intros l'. rewrite Hl.
    case_bool_decide; [apply restyle_countries | reflexivity].
  - right. split; [exact Hr|]. intros l'. rewrite Hl. apply restored_countries.
  - right. split; [exact Hr|]. intros l'. rewrite Hl, restyle_countries.
    apply unhighlighted_countries.
Qed.

Lemma lookup_country (ls : list Path) l co :
  pathCountry <$> ls !! l = Some (Some co)
  <-> exists p, ls !! l = Some p /\ pathCountry p = Some co.
Proof.
  destruct (ls !! l) as [p|]; simpl; split.
  - intros [= E]. now exists p.
  - intros (p' & [= <-] & ->). reflexivity.
  - discriminate.
  - intros (p' & [=] & _).
Qed.

(** *** The registry *)

Lemma registry_inv_countries s :
  registry_inv s
  <-> (forall key layer, countryLayersRef s !! key = Some layer ->
         exists co, pathCountry <$> layers s !! layer = Some (Some co)
                    /\ (key = country_id co \/ key = strippedId (country_id co)))
      /\ (forall layer co,
            pathCountry <$> layers s !! layer = Some (Some co) ->
            is_Some (countryLayersRef s !! country_id co)
            /\ is_Some (countryLayersRef s !! strippedId (country_id co))).
Proof.
  unfold registry_inv. split; intros [H1 H2]; split.
  - intros key layer Hk. destruct (H1 key layer Hk) as (p & co & Hp & Hco & Hkey).
    exists co. split; [|exact Hkey]. apply lookup_country. now exists p.
  - intros layer co Hl. apply lookup_country in Hl as (p & Hp & Hco).
    now apply (H2 layer p co).
  - intros key layer Hk. destruct (H1 key layer Hk) as (co & Hl & Hkey).
    apply lookup_country in Hl as (p & Hp & Hco). now exists p, co.
  - intros layer p co Hp Hco. apply (H2 layer co). apply lookup_country.
    now exists p.
Qed.

Lemma surface_move_registry s s' :
  surface_move s s' -> registry_inv s -> registry_inv s'.
Proof.
  intros Hmove Hinv. apply registry_inv_countries.
  apply registry_inv_countries in Hinv as [H1 H2].
  destruct (surface_move_countries s s' Hmove) as [(f & Hl & Hr)|[Hr Hl]].
  - rewrite Hl, Hr. unfold registered, drawableOf.
    assert (Hold : forall layer co,
               pathCountry <$> layers s !! layer = Some (Some co) ->
               forall d, pathCountry <$> (layers s ++ [d]) !! layer
                         = Some (Some co)).
    { intros layer co Hlayer d. rewrite lookup_app_l; [exact Hlayer|].
      destruct (layers s !! layer) eqn:E; [|discriminate].
      eapply lookup_lt_Some, E. }
    destruct (countryMap !! feature_id f) as [co|] eqn:E; split.
    + intros key layer Hk.
      destruct (decide (strippedId (country_id co) = key)) as [<-|Hne1].
      { rewrite lookup_insert_eq in Hk. injection Hk as <-.
        exists co. split; [|now right].
        now rewrite list_lookup_middle. }
      rewrite lookup_insert_ne in Hk by done.
      destruct (decide (country_id co = key)) as [<-|Hne2].
      { rewrite lookup_insert_eq in Hk. injection Hk as <-.
        exists co. split; [|now left].
        now rewrite list_lookup_middle. }
      rewrite lookup_insert_ne in Hk by done.
      destruct (H1 key layer Hk) as (co0 & Hlayer & Hkey).
      exists co0. split; [now apply Hold | exact Hkey].
    + intros layer co0 Hlayer.
      assert (Hcase : pathCountry <$> layers s !! layer = Some (Some co0)
                      \/ co0 = co).
      { destruct (decide (layer < length (layers s))%nat) as [Hlt|Hge].
        - left. now rewrite lookup_app_l in Hlayer.
        - right. rewrite lookup_app_r in Hlayer by lia.
          destruct (layer - length (layers s))%nat as [|n]; simpl in Hlayer.
          + now injection Hlayer as <-.
          + discriminate Hlayer. }
      destruct Hcase as [Hlayer0| ->].
      * destruct (H2 layer co0 Hlayer0) as [Hid Hst].
        split; rewrite !lookup_insert_is_Some'; auto.
      * split; rewrite !lookup_insert_is_Some'; auto.
    + intros key layer Hk. destruct (H1 key layer Hk) as (co0 & Hlayer & Hkey).
      exists co0. split; [now apply Hold | exact Hkey].
    + intros layer co0 Hlayer. apply (H2 layer co0).
      destruct (decide (layer < length (layers s))%nat) as [Hlt|Hge].
      * now rewrite lookup_app_l in Hlayer.
      * rewrite lookup_app_r in Hlayer by lia.
        destruct (layer - length (layers s))%nat as [|n];
          simpl in Hlayer; discriminate Hlayer.
  - rewrite Hr. split.
    + intros key layer Hk. rewrite Hl. now apply H1.
    + intros layer co Hlayer. rewrite Hl in Hlayer. now apply (H2 layer co).
Qed.

Lemma mounted_registry_inv : registry_inv mounted.
Proof.
  split.
  - intros key layer Hk. simpl in Hk. now rewrite lookup_empty in Hk.
  - intros layer p co Hp. destruct layer; discriminate.
Qed.

(** X7: in every state the component reaches, each entry of
    [countryLayersRef] leads to a drawable of a country that has the key as
    its id, as written or stripped of its leading zeros, and the country of
    every registered drawable is in the registry under both spellings. *)
Theorem registry_leads_to_drawables (events : list Event) :
  registry_inv (run events mounted).
Proof.
  apply (run_surface_inv registry_inv).
  - apply surface_move_registry.
  - apply mounted_registry_inv.
Qed.

(** *** The styles *)

Lemma drawableOf_style_ok f : style_ok (drawableOf f).
Proof.
  unfold style_ok, drawableOf. simpl.
  destruct (countryMap !! feature_id f); simpl; repeat split. now left.
Qed.

Lemma restyle_style_ok fo w p :
  is_Some (pathCountry p) -> style_ok p ->
  (fo = 0.08 /\ w = 1) \/ (fo = 0.3 /\ w = 1.5) \/ (fo = 0.2 /\ w = 2) ->
  style_ok (restyle (setStyle fo w) p).
Proof.
  intros [co Hco] (Hfill & Hcol & _) Hstyle. unfold style_ok. simpl.
  rewrite Hco in *. repeat split; assumption.
Qed.

Lemma alter_style_ok fo w l (ls : list Path) :
  Forall style_ok ls ->
  (forall p, ls !! l = Some p -> is_Some (pathCountry p)) ->
  (fo = 0.08 /\ w = 1) \/ (fo = 0.3 /\ w = 1.5) \/ (fo = 0.2 /\ w = 2) ->
  Forall style_ok (alter (restyle (setStyle fo w)) l ls).
Proof.
  intros Hall Hl Hstyle. apply Forall_alter; [exact Hall|].
  intros p Hp Hok. apply restyle_style_ok; auto.
Qed.

Lemma stored_registered_countries s :
  stored_registered s
  <-> forall l, selectedLayerRef s = Some l ->
        exists co, pathCountry <$> layers s !! l = Some (Some co)
                   /\ is_Some (countryMap !! country_id co).
Proof.
  unfold stored_registered. split; intros H l Hl.
  - destruct (H l Hl) as (p & co & Hp & Hco & Hmap). exists co.
    split; [|exact Hmap]. apply lookup_country. now exists p.
  - destruct (H l Hl) as (co & Hp & Hmap).
    apply lookup_country in Hp as (p & Hp & Hco). now exists p, co.
Qed.

Lemma restored_style_ok ref (ls : list Path) :
  Forall style_ok ls ->
  (forall l p, ref = Some l -> ls !! l = Some p -> is_Some (pathCountry p)) ->
  Forall style_ok
    (match ref with
     | Some old => alter (restyle restoreStyle) old ls
     | None => ls
     end).
Proof.
  intros Hall Href. destruct ref as [old|]; [|exact Hall].
  apply alter_style_ok; [exact Hall | intros p; now apply Href | now left].
Qed.

Lemma unhighlighted_style_ok ref layer (ls : list Path) :
  Forall style_ok ls ->
  (forall l p, ref = Some l -> ls !! l = Some p -> is_Some (pathCountry p)) ->
  Forall style_ok
    (match ref with
     | Some old =>
         if bool_decide (old <> layer)
         then alter (restyle restoreStyle) old ls else ls
     | None => ls
     end).
Proof.
  intros Hall Href. destruct ref as [old|]; [|exact Hall].
  case_bool_decide; [|exact Hall].
  apply alter_style_ok; [exact Hall | intros p; now apply Href | now left].
Qed.

Lemma surface_move_styles s s' :
  surface_move s s' ->
  Forall style_ok (layers s) /\ stored_registered s ->
  Forall style_ok (layers s') /\ stored_registered s'.
Proof.
  intros Hmove [Hall Hstored].
  assert (Href : forall l p, selectedLayerRef s = Some l ->
                   layers s !! l = Some p -> is_Some (pathCountry p)).
  { intros l p Hl Hp. destruct (Hstored l Hl) as (p' & co & Hp' & Hco & _).
    rewrite Hp in Hp'. injection Hp' as <-. now exists co. }
  split.
  - destruct Hmove as [_ Hl _ _|f _ Hl _ _|l p co Hp Hco _ Hl _ _
                      |l p co Hp Hco _ Hl _ _|_ Hl _ _
                      |l p co co' Hp Hco Hmap _ Hl _ _]; rewrite Hl.
    + exact Hall.
    + apply Forall_app. split; [exact Hall|].
      constructor; [apply drawableOf_style_ok | constructor].
    + case_bool_decide; [|exact Hall].
      apply (alter_style_ok 0.3 1.5); [exact Hall| |auto].
      intros p' Hp'. rewrite Hp in Hp'. injection Hp' as <-. now exists co.
    + case_bool_decide; [|exact Hall].
      apply (alter_style_ok 0.08 1); [exact Hall| |auto].
      intros p' Hp'. rewrite Hp in Hp'. injection Hp' as <-. now exists co.
    + now apply restored_style_ok.
    + apply (alter_style_ok 0.2 2); [now apply unhighlighted_style_ok| |auto].
      intros p' Hp'.
      assert (Hc : pathCountry <$> Some p' = pathCountry <$> layers s !! l)
        by (rewrite <- Hp'; apply unhighlighted_countries).
      rewrite Hp in Hc. simpl in Hc. injection Hc as ->. now exists co.
  - apply (proj2 (stored_registered_countries s')).
    pose proof (proj1 (stored_registered_countries s) Hstored) as Hview.
    clear Hstored. rename Hview into Hstored.
    destruct Hmove as [Hr Hl _ _|f Hr Hl _ _|l p co Hp Hco Hr Hl _ _
                      |l p co Hp Hco Hr Hl _ _|Hr Hl _ _
                      |l p co co' Hp Hco Hmap Hr Hl _ _];
      rewrite Hr, Hl.
    + exact Hstored.
    + intros l Hsel. destruct (Hstored l Hsel) as (co & Hc & Hmap).
      exists co. split; [|exact Hmap].
      rewrite lookup_app_l; [exact Hc|].
      destruct (layers s !! l) eqn:E; [|discriminate]. eapply lookup_lt_Some, E.
    + intros l' Hsel. destruct (Hstored l' Hsel) as (co0 & Hc & Hmap).
      exists co0. split; [|exact Hmap].
      case_bool_decide; [now rewrite restyle_countries | exact Hc].
    + intros l' Hsel. destruct (Hstored l' Hsel) as (co0 & Hc & Hmap).
      exists co0. split; [|exact Hmap].
      case_bool_decide; [now rewrite restyle_countries | exact Hc].
    + discriminate.
    + intros l' [= <-]. exists co. split; [|now exists co'].
      rewrite restyle_countries, unhighlighted_countries, Hp. simpl.
      now rewrite Hco.
Qed.

(** X8: in every state the component reaches, a drawable has the colours
    it was created with; the drawable of a feature outside the dataset
    stays invisible (opacity 0, weight 0); the drawable of a feature of the
    dataset carries the default, the hover or the highlight opacity and
    weight, and nothing else. *)
Theorem drawables_keep_their_styles (events : list Event) :
  Forall style_ok (layers (run events mounted)).
Proof.
  apply (run_surface_inv
           (fun s => Forall style_ok (layers s) /\ stored_registered s)).
  - apply surface_move_styles.
  - split; [constructor | discriminate].
Qed.

Lemma run_stored_registered events : stored_registered (run events mounted).
Proof.
  apply (run_surface_inv
           (fun s => Forall style_ok (layers s) /\ stored_registered s)).
  - apply surface_move_styles.
  - split; [constructor | discriminate].
Qed.

(** *** The arrival of the geometry *)

Lemma addFeature_drawable s f :
  layers (addFeature s f) = layers s ++ [drawableOf f]
  /\ front (addFeature s f) = front s ++ [length (layers s)].
Proof.
  unfold addFeature, onEachFeature, drawableOf.
  destruct (countryMap !! feature_id f) as [co|]; simpl; split; try reflexivity.
  replace (length (layers s)) with (length (layers s) + 0)%nat at 1 by lia.
  now rewrite alter_app_r.
Qed.

Lemma fold_addFeature features : forall s,
  layers (fold_left addFeature features s)
  = layers s ++ map drawableOf features
  /\ front (fold_left addFeature features s)
     = front s ++ seq (length (layers s)) (length features).
Proof.
  induction features as [|f features IH]; intros s; simpl.
  - now rewrite !app_nil_r.
  - destruct (IH (addFeature s f)) as [-> ->].
    destruct (addFeature_drawable s f) as [-> ->].
    rewrite length_app, <- !app_assoc. simpl.
    now rewrite Nat.add_1_r.
Qed.

Lemma onPath_unregistered handler l p s :
  layers s !! l = Some p -> pathCountry p = None -> onPath handler l s = s.
Proof. intros Hl Hp. unfold onPath. now rewrite Hl, Hp. Qed.

(** X6: when the geometry arrives, every feature gets one drawable, in
    order and on top of the earlier ones, with its corrected geometry; the
    earlier drawables, the selection and the stored reference are as
    before; and on the drawable of a feature whose id [countryMap] does not
    hold, a click or a hover changes nothing. *)
Theorem geoLoaded_draws_every_feature (raw : list Feature) (s : State) :
  let s' := geoLoaded raw s in
  layers s' = layers s ++ map drawableOf (fixAntimeridian raw)
  /\ front s' = front s ++ seq (length (layers s)) (length raw)
  /\ selected s' = selected s
  /\ selectedLayerRef s' = selectedLayerRef s
  /\ (forall i f,
        raw !! i = Some f -> countryMap !! feature_id f = None ->
        let l := (length (layers s) + i)%nat in
        step s' (PathClick l) = s'
        /\ step s' (PathMouseOver l) = s'
        /\ step s' (PathMouseOut l) = s').
Proof.
  intros s'. destruct (fold_addFeature (fixAntimeridian raw) s) as [Hl Hf].
  fold (geoLoaded raw s) in Hl, Hf. fold s' in Hl, Hf.
  destruct (geoLoaded_fields raw s) as (Hsel & Href & _).
  split; [exact Hl|]. split.
  { rewrite Hf. unfold fixAntimeridian. now rewrite length_map. }
  split; [exact Hsel|]. split; [exact Href|].
  intros i f Hi Hunknown l.
  assert (Hp : layers s' !! l
               = Some (drawableOf
                         {| feature_id := feature_id f;
                            feature_geometry := fixGeom (feature_geometry f) |})).
  { rewrite Hl. unfold l. rewrite lookup_app_r by lia.
    replace (length (layers s) + i - length (layers s))%nat with i by lia.
    unfold fixAntimeridian. change (map ?g ?x) with (g <$> x).
    now rewrite !list_lookup_fmap, Hi. }
  assert (Hc : pathCountry
                 (drawableOf
                    {| feature_id := feature_id f;
                       feature_geometry := fixGeom (feature_geometry f) |})
               = None) by exact Hunknown.
  simpl. repeat split; now apply (onPath_unregistered _ l _ s' Hp Hc).
Qed.

(** *** The stacking order *)

Lemma bringToFront_permutation (l : nat) (fr : list nat) :
  NoDup fr -> l ∈ fr -> filter (fun h => h <> l) fr ++ [l] ≡ₚ fr.
Proof.
  induction fr as [|h fr IH]; intros Hnd Hin.
  - now apply elem_of_nil in Hin.
  - apply NoDup_cons in Hnd as [Hh Hnd].
    destruct (decide (h = l)) as [->|Hne].
    + rewrite filter_cons_False by (intros Hneq; now apply Hneq).
      assert (Hsame : filter (fun h => h <> l) fr = fr).
      { clear - Hh. induction fr as [|x fr IH]; [reflexivity|].
        apply not_elem_of_cons in Hh as [Hx Hfr].
        rewrite filter_cons_True by congruence. now rewrite IH. }
      rewrite Hsame. symmetry. apply Permutation_cons_append.
    + rewrite filter_cons_True by exact Hne. simpl. constructor.
      apply IH; [exact Hnd|]. apply elem_of_cons in Hin as [Heq|Hin]; congruence.
Qed.

Lemma surface_move_front s s' :
  surface_move s s' ->
  front s ≡ₚ seq 0 (length (layers s)) ->
  front s' ≡ₚ seq 0 (length (layers s')).
Proof.
  intros Hmove Hperm.
  destruct Hmove as [_ Hl Hf _|f _ Hl Hf _|l p co Hp Hco _ Hl Hf _
                    |l p co Hp Hco _ Hl Hf _|_ Hl Hf _
                    |l p co co' Hp Hco Hmap _ Hl Hf _]; rewrite Hl, Hf.
  - exact Hperm.
  - rewrite length_app. simpl. rewrite seq_app. simpl. now rewrite Hperm.
  - assert (Hlen : length (if bool_decide (selectedLayerRef s <> Some l)
                           then alter (restyle hoverStyle) l (layers s)
                           else layers s) = length (layers s))
      by (case_bool_decide; now rewrite ?length_alter).
    rewrite Hlen, <- Hperm. apply bringToFront_permutation.
    + rewrite Hperm. apply NoDup_ListNoDup, seq_NoDup.
    + rewrite Hperm. apply list_elem_of_In, in_seq.
      apply lookup_lt_Some in Hp. lia.
  - case_bool_decide; now rewrite ?length_alter.
  - destruct (selectedLayerRef s); now rewrite ?length_alter.
  - rewrite length_alter.
    destruct (selectedLayerRef s); [case_bool_decide|]; now rewrite ?length_alter.
Qed.

(** X9: in every state the component reaches, the stacking order holds
    every drawable exactly once; and a hover over a registered drawable
    leaves it on top. *)
Theorem stacking_order_complete (events : list Event) :
  let s := run events mounted in
  front s ≡ₚ seq 0 (length (layers s))
  /\ (forall l p co,
        layers s !! l = Some p -> pathCountry p = Some co ->
        last (front (step s (PathMouseOver l))) = Some l).
Proof.
  intros s. split.
  - apply (run_surface_inv (fun s => front s ≡ₚ seq 0 (length (layers s)))).
    + apply surface_move_front.
    + reflexivity.
  - intros l p co Hl Hco. simpl. unfold onPath. rewrite Hl, Hco.
    unfold pathMouseOver, bringToFront. case_bool_decide; simpl; apply last_snoc.
Qed.

(** *** The stored drawable and the selection *)

Lemma markerClick_country m s : is_Some (country (selected (markerClick m s))).
Proof.
  unfold markerClick, selectCity, selectPlace.
  destruct (onClick m); rewrite setSelected_selected; now eexists.
Qed.

Lemma step_stored_selected s e :
  (forall l, selectedLayerRef s = Some l -> is_Some (country (selected s))) ->
  forall l, selectedLayerRef (step s e) = Some l ->
    is_Some (country (selected (step s e))).
Proof.
  intros Hinv.
  assert (Hkeep : forall s', selected s' = selected s ->
            selectedLayerRef s' = selectedLayerRef s ->
            forall l, selectedLayerRef s' = Some l ->
              is_Some (country (selected s'))).
  { intros s' -> ->. exact Hinv. }
  assert (Hclose : forall l, selectedLayerRef (handleClose s) = Some l ->
            is_Some (country (selected (handleClose s)))).
  { intros l. unfold handleClose.
    rewrite setSelected_selectedLayerRef, resetSelectedLayer_selectedLayerRef.
    discriminate. }
  assert (Hback : forall l, selectedLayerRef (handleBack s) = Some l ->
            is_Some (country (selected (handleBack s)))).
  { unfold handleBack.
    destruct (place (selected s)); [|destruct (city (selected s))];
      try exact Hclose;
      intros l; rewrite setSelected_selectedLayerRef, setSelected_selected;
      apply Hinv. }
  destruct e as [fc|l0|l0|l0|k|k|k|k|k|k| | | |key|z].
  1-3,6-7,15:
    match goal with
    | |- forall l, selectedLayerRef (step ?s ?e) = _ -> _ =>
        destruct (step_passive s e I) as [Hsel Href];
        exact (Hkeep _ Hsel Href)
    end.
  - simpl.
    destruct (onPath_cases pathClick l0 s) as [->|(p & co & _ & _ & ->)];
      [exact Hinv|].
    unfold pathClick.
    destruct (countryMap !! country_id co) as [co'|] eqn:E;
      [|unfold selectCountry; now rewrite E].
    destruct (selectCountry_known _ l0 s _ E) as (-> & _ & _).
    intros l _. now eexists.
  - simpl. unfold onMarker. destruct (cityGroupRef s) as [ms|]; [|exact Hinv].
    destruct (ms !! k) as [m|]; [|exact Hinv].
    intros l _. apply markerClick_country.
  - simpl. unfold onMarker. destruct (placeGroupRef s) as [ms|]; [|exact Hinv].
    destruct (ms !! k) as [m|]; [|exact Hinv].
    intros l _. apply markerClick_country.
  - simpl. destruct (panelCities (selected s) !! k); [|exact Hinv].
    unfold onCityClick, selectCity.
    destruct (country (selected s)) eqn:Eco; [|rewrite <- Eco in Hinv; exact Hinv].
    intros l _. rewrite setSelected_selected. now eexists.
  - simpl. destruct (panelPlaces (selected s) !! k); [|exact Hinv].
    unfold onPlaceClick, selectPlace.
    destruct (country (selected s)) eqn:Eco; [|rewrite <- Eco in Hinv; exact Hinv].
    destruct (city (selected s)); [|rewrite <- Eco in Hinv; exact Hinv].
    intros l _. rewrite setSelected_selected. now eexists.
  - exact Hback.
  - exact Hclose.
  - simpl. destruct (country (selected s)) eqn:Eco;
      [exact Hclose | rewrite <- Eco in Hinv; exact Hinv].
  - simpl. case_bool_decide; [exact Hback | exact Hinv].
Qed.

Lemma run_stored_selected events :
  forall l, selectedLayerRef (run events mounted) = Some l ->
    is_Some (country (selected (run events mounted))).
Proof.
  induction events as [|e events IH] using rev_ind; [discriminate|].
  rewrite run_snoc. now apply step_stored_selected.
Qed.

(** X10: after any sequence of events whatsoever, clicks on markers and
    on the panel included, a drawable is highlighted exactly when it is the
    stored one, so no two are; the stored drawable is a registered one whose
    country id [countryMap] holds; and while a drawable is stored, some
    country is selected. *)
Theorem highlight_under_every_event (events : list Event) :
  let s := run events mounted in
  highlight_is_stored s
  /\ no_two_highlighted s
  /\ stored_registered s
  /\ (forall l, selectedLayerRef s = Some l -> is_Some (country (selected s))).
Proof.
  intros s.
  pose proof (run_highlight_inv events mounted mounted_highlight_inv) as [Hhl _].
  fold s in Hhl. split; [exact Hhl|]. split; [|split].
  - intros l1 l2 p1 p2 H1 H2 Hp1 Hp2.
    apply (Hhl l1 p1 H1) in Hp1. apply (Hhl l2 p2 H2) in Hp2. congruence.
  - apply run_stored_registered.
  - apply run_stored_selected.
Qed.

(** X11: [close()] in any state the component reaches leaves nothing
    selected, no stored reference and no drawable highlighted; and so does
    [back()] when no city is selected. *)
Theorem handleClose_unhighlights_all (events : list Event) :
  let s := run events mounted in
  (selected (handleClose s) = noSelection
   /\ selectedLayerRef (handleClose s) = None
   /\ forall l p, layers (handleClose s) !! l = Some p -> ~ highlighted p)
  /\ (place (selected s) = None -> city (selected s) = None ->
      selected (handleBack s) = noSelection
      /\ selectedLayerRef (handleBack s) = None
      /\ forall l p, layers (handleBack s) !! l = Some p -> ~ highlighted p).
Proof.
  intros s.
  assert (Hclose : selected (handleClose s) = noSelection
   /\ selectedLayerRef (handleClose s) = None
   /\ forall l p, layers (handleClose s) !! l = Some p -> ~ highlighted p).
  { pose proof (run_highlight_inv (events ++ [PanelClose]) mounted
                  mounted_highlight_inv) as [Hhl _].
    rewrite run_snoc in Hhl. simpl in Hhl. fold s in Hhl.
    assert (Href : selectedLayerRef (handleClose s) = None).
    { unfold handleClose.
      now rewrite setSelected_selectedLayerRef,
        resetSelectedLayer_selectedLayerRef. }
    split; [unfold handleClose; apply setSelected_selected|].
    split; [exact Href|].
    intros l p Hl Hp. apply (Hhl l p Hl) in Hp. congruence. }
  split; [exact Hclose|].
  intros Hpl Hci. now rewrite handleBack_from_country.
Qed.

(** X12: a click on a city or place marker, or on a button of the panel's
    lists, changes the selection and the markers only: every drawable, the
    stored reference, the stacking order, the registry and the zoom are as
    before, so the highlight stays where it was. *)
Theorem drillDown_leaves_drawables (s : State) (e : Event) :
  drillDown e = true ->
  layers (step s e) = layers s
  /\ selectedLayerRef (step s e) = selectedLayerRef s
  /\ front (step s e) = front s
  /\ countryLayersRef (step s e) = countryLayersRef s
  /\ zoom (step s e) = zoom s.
Proof.
  intros He.
  assert (Hset : forall x,
            layers (setSelected x s) = layers s
            /\ selectedLayerRef (setSelected x s) = selectedLayerRef s
            /\ front (setSelected x s) = front s
            /\ countryLayersRef (setSelected x s) = countryLayersRef s
            /\ zoom (setSelected x s) = zoom s).
  { intros x. destruct (setSelected_rest x s) as (Hf & Hr & _).
    rewrite setSelected_layers, setSelected_selectedLayerRef, setSelected_zoom.
    auto. }
  assert (Hmarker : forall group k,
            layers (onMarker group k s) = layers s
            /\ selectedLayerRef (onMarker group k s) = selectedLayerRef s
            /\ front (onMarker group k s) = front s
            /\ countryLayersRef (onMarker group k s) = countryLayersRef s
            /\ zoom (onMarker group k s) = zoom s).
  { intros group k. unfold onMarker. destruct group as [ms|]; [|auto].
    destruct (ms !! k) as [m|]; [|auto].
    unfold markerClick, selectCity, selectPlace. destruct (onClick m); apply Hset. }
  destruct e; try discriminate He; simpl.
  - apply Hmarker.
  - apply Hmarker.
  - destruct (panelCities (selected s) !! k); [|auto].
    unfold onCityClick, selectCity. destruct (country (selected s)); [|auto].
    apply Hset.
  - destruct (panelPlaces (selected s) !! k); [|auto].
    unfold onPlaceClick, selectPlace.
    destruct (country (selected s)); [|auto].
    destruct (city (selected s)); [|auto].
    apply Hset.
Qed.

(** *** The zoom ref *)

Lemma geoLoaded_zoomRef raw s : zoomRef (geoLoaded raw s) = zoomRef s.
Proof.
  unfold geoLoaded. generalize (fixAntimeridian raw) as fc.
  intros fc. revert s. induction fc as [|f fc IH]; intros s; simpl.
  - reflexivity.
  - rewrite IH. unfold addFeature, onEachFeature.
    now destruct (countryMap !! feature_id f).
Qed.

Lemma setSelected_zooms x s :
  zoom (setSelected x s) = zoom s /\ zoomRef (setSelected x s) = zoomRef s.
Proof.
  split; [apply setSelected_zoom | apply (setSelected_rest x s)].
Qed.

Lemma handleClose_zooms s :
  zoom (handleClose s) = zoom s /\ zoomRef (handleClose s) = zoomRef s.
Proof.
  unfold handleClose.
  destruct (setSelected_zooms noSelection (resetSelectedLayer s)) as [-> ->].
  split; [apply resetSelectedLayer_zoom | apply (resetSelectedLayer_rest s)].
Qed.

Lemma handleBack_zooms s :
  zoom (handleBack s) = zoom s /\ zoomRef (handleBack s) = zoomRef s.
Proof.
  unfold handleBack.
  destruct (place (selected s)); [|destruct (city (selected s))];
    try apply setSelected_zooms.
  apply handleClose_zooms.
Qed.

Lemma step_zooms s e :
  match e with ZoomEnd _ => False | _ => True end ->
  zoom (step s e) = zoom s /\ zoomRef (step s e) = zoomRef s.
Proof.
  destruct e as [fc|l|l|l|k|k|k|k|k|k| | | |key|z]; simpl; intros He;
    try contradiction.
  - split; [apply geoLoaded_zoom | apply geoLoaded_zoomRef].
  - destruct (onPath_cases (fun _ => pathMouseOver) l s) as [->|(p & co & _ & _ & ->)];
      [auto|].
    unfold pathMouseOver. case_bool_decide; auto.
  - destruct (onPath_cases (fun _ => pathMouseOut) l s) as [->|(p & co & _ & _ & ->)];
      [auto|].
    unfold pathMouseOut. case_bool_decide; auto.
  - destruct (onPath_cases pathClick l s) as [->|(p & co & _ & _ & ->)];
      [auto|].
    unfold pathClick, selectCountry.
    destruct (countryMap !! country_id co); [|auto].
    unfold exec, selectCountry_body. simpl.
    match goal with
    | |- context [setSelected ?x ?t] =>
        destruct (setSelected_zooms x t) as [-> ->]
    end.
    simpl. unfold unhighlightPrevious.
    destruct (selectedLayerRef s); [case_bool_decide|]; auto.
  - unfold onMarker. destruct (cityGroupRef s) as [ms|]; [|auto].
    destruct (ms !! k) as [m|]; [|auto].
    unfold markerClick, selectCity, selectPlace.
    destruct (onClick m); apply setSelected_zooms.
  - auto.
  - auto.
  - unfold onMarker. destruct (placeGroupRef s) as [ms|]; [|auto].
    destruct (ms !! k) as [m|]; [|auto].
    unfold markerClick, selectCity, selectPlace.
    destruct (onClick m); apply setSelected_zooms.
  - destruct (panelCities (selected s) !! k); [|auto].
    unfold onCityClick, selectCity. destruct (country (selected s)); [|auto].
    apply setSelected_zooms.
  - destruct (panelPlaces (selected s) !! k); [|auto].
    unfold onPlaceClick, selectPlace.
    destruct (country (selected s)); [|auto].
    destruct (city (selected s)); [|auto].
    apply setSelected_zooms.
  - apply handleBack_zooms.
  - apply handleClose_zooms.
  - destruct (country (selected s)); [apply handleClose_zooms | auto].
  - case_bool_decide; [apply handleBack_zooms | auto].
Qed.

(** X13: [zoomRef] holds the value of the [zoom] state in every state the
    component reaches, and after a [zoomend] at level [z] both are [z]. *)
Theorem zoomRef_mirrors_zoom (events : list Event) :
  zoomRef (run events mounted) = zoom (run events mounted)
  /\ forall z, zoom (step (run events mounted) (ZoomEnd z)) = z
               /\ zoomRef (step (run events mounted) (ZoomEnd z)) = z.
Proof.
  assert (Hzoom : forall s z, zoom (step s (ZoomEnd z)) = z
                              /\ zoomRef (step s (ZoomEnd z)) = z).
  { intros s z. simpl. unfold setZoom. simpl.
    destruct (z =? zoom s)%Z eqn:E.
    - apply Z.eqb_eq in E. now split.
    - rewrite markerEffect_zoom.
      destruct (markerEffect_rest (with_zoom z (with_zoomRef z s))) as (_ & _ & ->).
      now split. }
  split; [|apply Hzoom].
  induction events as [|e events IH] using rev_ind; [reflexivity|].
  rewrite run_snoc.
  destruct e as [| | | | | | | | | | | | | |z];
    try (match goal with
         | |- zoomRef (step ?s ?e) = _ =>
             destruct (step_zooms s e I) as [-> ->]; exact IH
         end).
  destruct (Hzoom (run events mounted) z) as [-> ->]. reflexivity.
Qed.

End Surface.

(** ** The markers *)

Section Markers.
Context {imports : Imports}.

Lemma builtCities_planned z sel :
  builtCities z sel = if (z >=? 4)%Z then plannedCities z sel else [].
Proof. unfold builtCities. now rewrite cityLoop_planned. Qed.

Lemma builtPlaces_planned z sel :
  builtPlaces z sel = if (z >=? 10)%Z then plannedPlaces z sel else [].
Proof. unfold builtPlaces. now rewrite placeLoop_planned. Qed.

(** X18: in every state the component reaches, the city group is exactly
    what the effect builds for the current zoom and selection, and the place
    group stands for the same places, with the same labels, as what the
    effect builds (hovering changes radius and style only): no marker of an
    earlier zoom or selection is left. *)
Theorem markers_never_stale (events : list Event) :
  let s := run events mounted in
  cityGroupRef s = Some (builtCities (zoom s) (selected s))
  /\ exists places,
       placeGroupRef s = Some places
       /\ map onClick places = map onClick (builtPlaces (zoom s) (selected s))
       /\ Forall (labelled_as_planned (zoom s)) places.
Proof.
  intros s.
  destruct (run_markers_in_sync events) as (Hc & places & Hp & Howners & Hlabels).
  fold s in Hc, Hp, Howners, Hlabels.
  rewrite builtCities_planned, builtPlaces_planned.
  split; [exact Hc|]. exists places. split; [exact Hp|].
  split; [|exact Hlabels].
  rewrite Howners. destruct (zoom s >=? 10)%Z; [|reflexivity].
  now rewrite plannedPlaces_owners.
Qed.

(** X14: a city marker is never smaller than 4 and a place marker never
    smaller than 10, whatever the member count; a hovered place marker has
    the radius [r + 4], larger than it has otherwise, selected or not. *)
Theorem marker_radius_bounds z sel co ci pl :
  4 <= radius (cityMarker z sel co ci)
  /\ 10 <= radius (placeMarker z sel co ci pl)
  /\ radius (markerMouseOver (placeMarker z sel co ci pl)) = placeRadius pl + 4
  /\ radius (placeMarker z sel co ci pl)
     < radius (markerMouseOver (placeMarker z sel co ci pl)).
Proof.
  pose proof (Q.le_max_l 4 (log10 (city_subscribers ci) * 2)) as Hc.
  pose proof (Q.le_max_l 10 ((log10 (place_subscribers pl) - 2) * 4)) as Hp.
  fold (cityRadius ci) in Hc. fold (placeRadius pl) in Hp.
  rewrite cityMarker_radius, placeMarker_radius.
  unfold markerMouseOver. simpl.
  destruct (cityIsActive sel co ci), (placeIsActive sel ci pl);
    repeat split; try reflexivity; lra.
Qed.

Lemma geNum_labelMinSubs_mono z z' n :
  (z <= z')%Z ->
  geNum n (labelMinSubs z) = true -> geNum n (labelMinSubs z') = true.
Proof.
  intros Hz. unfold labelMinSubs.
  repeat match goal with
         | |- context [(?a >=? ?b)%Z] => destruct (Z.geb_spec a b)
         end; simpl; rewrite ?Z.leb_le; try lia; try discriminate.
Qed.

Lemma geNum_placeLabelMin_mono z z' n :
  (z <= z')%Z ->
  geNum n (placeLabelMin z) = true -> geNum n (placeLabelMin z') = true.
Proof.
  intros Hz. unfold placeLabelMin.
  repeat match goal with
         | |- context [(?a >=? ?b)%Z] => destruct (Z.geb_spec a b)
         end; simpl; rewrite ?Z.leb_le; try lia; try discriminate.
Qed.

(** X15: zooming in never removes a marker and never turns a permanent
    label into a hover-only one: the entities shown at a zoom level are
    shown, in the same order, at every higher level, and a label that is
    permanent at a level is permanent at every higher level. *)
Theorem zooming_in_only_adds (z z' : Z) (sel : Selected) :
  (z <= z')%Z ->
  map onClick (builtCities z sel) `prefix_of` map onClick (builtCities z' sel)
  /\ map onClick (builtPlaces z sel) `prefix_of` map onClick (builtPlaces z' sel)
  /\ (forall co ci,
        permanent (markerTooltip (cityMarker z sel co ci)) = true ->
        permanent (markerTooltip (cityMarker z' sel co ci)) = true)
  /\ (forall co ci pl,
        permanent (markerTooltip (placeMarker z sel co ci pl)) = true ->
        permanent (markerTooltip (placeMarker z' sel co ci pl)) = true).
Proof.
  intros Hz. rewrite !builtCities_planned, !builtPlaces_planned.
  split; [|split; [|split]].
  - destruct (Z.geb_spec z 4); [|apply prefix_nil].
    destruct (Z.geb_spec z' 4); [|lia].
    now rewrite !plannedCities_owners.
  - destruct (Z.geb_spec z 10); [|apply prefix_nil].
    destruct (Z.geb_spec z' 10); [|lia].
    now rewrite !plannedPlaces_owners.
  - intros co ci. unfold cityMarker. simpl.
    pose proof (geNum_labelMinSubs_mono z z' (city_subscribers ci) Hz) as Hm.
    destruct (geNum (city_subscribers ci) (labelMinSubs z)); [|discriminate].
    now rewrite Hm.
  - intros co ci pl. unfold placeMarker. simpl.
    pose proof (geNum_placeLabelMin_mono z z' (place_subscribers pl) Hz) as Hm.
    destruct (geNum (place_subscribers pl) (placeLabelMin z)); [|discriminate].
    now rewrite Hm.
Qed.

(** *** Hovering a place marker *)

Lemma markerMouseOut_after_over m :
  markerMouseOut (markerMouseOver m) = markerMouseOut m.
Proof.
  unfold markerMouseOut, markerMouseOver.
  destruct (hover m) as [[r a]|] eqn:E; simpl; rewrite E; reflexivity.
Qed.

Lemma placeMarker_hover_round_trip z sel co ci pl :
  markerMouseOut (markerMouseOver (placeMarker z sel co ci pl))
  = placeMarker z sel co ci pl.
Proof.
  rewrite markerMouseOut_after_over.
  unfold markerMouseOut, placeMarker. simpl.
  now destruct (placeIsActive sel ci pl).
Qed.

Lemma builtPlaces_are_placeMarkers z sel :
  Forall (fun m => markerMouseOut (markerMouseOver m) = m) (builtPlaces z sel).
Proof.
  rewrite builtPlaces_planned. destruct (z >=? 10)%Z; [|constructor].
  apply List.Forall_forall. intros m Hm.
  apply in_flat_map in Hm as (co & _ & Hm).
  apply in_flat_map in Hm as (ci & _ & Hm).
  destruct (city_places ci); [|destruct Hm].
  apply in_map_iff in Hm as (pl & <- & _).
  apply placeMarker_hover_round_trip.
Qed.

(** X17: leaving a place marker undoes entering it: on a marker as the
    effect built it, hover-exit after hover-enter gives back the marker,
    with the radius and weight of its selection state; in any state,
    hover-enter then hover-exit is as hover-exit alone; and right after the
    effect has run, hover-enter then hover-exit on any place marker gives
    back the whole state. *)
Theorem place_hover_round_trip :
  (forall z sel co ci pl,
      markerMouseOut (markerMouseOver (placeMarker z sel co ci pl))
      = placeMarker z sel co ci pl)
  /\ (forall s k,
        step (step s (PlaceMarkerOver k)) (PlaceMarkerOut k)
        = step s (PlaceMarkerOut k))
  /\ (forall s k,
        is_Some (cityGroupRef s) -> is_Some (placeGroupRef s) ->
        step (step (markerEffect s) (PlaceMarkerOver k)) (PlaceMarkerOut k)
        = markerEffect s).
Proof.
  split; [apply placeMarker_hover_round_trip|].
  assert (Hcompose : forall k (ms : list CircleMarker),
            alter markerMouseOut k (alter markerMouseOver k ms)
            = alter (fun m => markerMouseOut (markerMouseOver m)) k ms).
  { intros k ms. apply list_alter_alter_eq. }
  split.
  - intros s k. simpl. unfold onPlaceHover. simpl.
    destruct (placeGroupRef s) as [ms|]; simpl; [|reflexivity].
    unfold with_groups. simpl. rewrite Hcompose.
    rewrite (list_alter_ext _ markerMouseOut ms ms k);
      [reflexivity | intros m _; apply markerMouseOut_after_over | reflexivity].
  - intros s k [cg Hc] [pg Hp]. simpl.
    unfold markerEffect. rewrite Hc, Hp. unfold onPlaceHover, with_groups. simpl.
    rewrite Hcompose.
    fold (builtCities (zoom s) (selected s)).
    fold (builtPlaces (zoom s) (selected s)).
    assert (Hid : alter (fun m => markerMouseOut (markerMouseOver m)) k
                    (builtPlaces (zoom s) (selected s))
                  = builtPlaces (zoom s) (selected s)).
    { pose proof (builtPlaces_are_placeMarkers (zoom s) (selected s)) as Hall.
      revert k. induction Hall as [|m ms Hm _ IH]; intros [|k]; simpl;
        try reflexivity.
      - now rewrite Hm.
      - f_equal. apply IH. }
    rewrite Hid. reflexivity.
Qed.

(** *** One selected city marker *)

Lemma plannedCities_keys z sel :
  map cityKey (plannedCities z sel)
  = flat_map
      (fun co => map (fun ci => (country_id co, city_name ci)) (country_cities co))
      countrySubreddits.
Proof.
  unfold plannedCities. rewrite map_flat_map.
  apply flat_map_ext. intros co. now rewrite map_map.
Qed.

Lemma NoDup_keys (countries : list CountrySubreddit) :
  NoDup (map country_id countries) ->
  (forall co, In co countries -> NoDup (map city_name (country_cities co))) ->
  NoDup (flat_map
           (fun co => map (fun ci => (country_id co, city_name ci))
                        (country_cities co))
           countries).
Proof.
  induction countries as [|co countries IH]; intros Hids Hnames; simpl.
  - constructor.
  - apply NoDup_cons in Hids as [Hid Hids].
    apply NoDup_app. split; [|split].
    + assert (Hinj : Inj (=) (=) (pair (B := string) (country_id co)))
        by (intros x y [= ->]; reflexivity).
      rewrite <- (map_map city_name (pair (country_id co))).
      apply (NoDup_fmap_2 (pair (country_id co))).
      apply Hnames. now left.
    + intros [id name] Hhere Hthere.
      apply list_elem_of_In, in_map_iff in Hhere as (ci & [= <- <-] & _).
      apply list_elem_of_In, in_flat_map in Hthere as (co' & Hco' & Hin).
      apply in_map_iff in Hin as (ci' & [= Hsame _] & _).
      apply Hid. rewrite <- Hsame.
      apply list_elem_of_In, in_map. exact Hco'.
    + apply IH; [exact Hids|]. intros co' Hco'. apply Hnames. now right.
Qed.

Lemma plannedCities_selected_key z sel m :
  In m (plannedCities z sel) -> drawn_selected m ->
  Some (fst (cityKey m)) = country_id <$> country sel
  /\ Some (snd (cityKey m)) = city_name <$> city sel.
Proof.
  intros Hm Hdrawn.
  apply in_flat_map in Hm as (co & _ & Hm).
  apply in_map_iff in Hm as (ci & <- & _).
  apply cityMarker_drawn_selected in Hdrawn.
  unfold cityIsActive in Hdrawn.
  apply andb_true_iff in Hdrawn as [Hci Hco].
  apply bool_decide_eq_true in Hci, Hco. now split.
Qed.

(** X16: when country ids are unique in the dataset and city names are
    unique within each country, at most one city marker is drawn as the
    selected one; and when a city of the dataset is selected under its
    country, its marker is there at zoom 4 and above, drawn as selected and
    3 larger than its baseline. *)
Theorem one_city_marker_selected (z : Z) (sel : Selected) :
  unique_cities ->
  (forall i j mi mj,
      builtCities z sel !! i = Some mi -> builtCities z sel !! j = Some mj ->
      drawn_selected mi -> drawn_selected mj -> i = j)
  /\ (forall co ci,
        (4 <= z)%Z -> In co countrySubreddits -> In ci (country_cities co) ->
        country sel = Some co -> city sel = Some ci ->
        exists i m,
          builtCities z sel !! i = Some m
          /\ onClick m = ClickCity co ci
          /\ drawn_selected m
          /\ radius m = cityRadius ci + 3).
Proof.
  intros [Hids Hnames]. rewrite builtCities_planned. split.
  - intros i j mi mj Hi Hj Hdi Hdj.
    destruct (z >=? 4)%Z; [|destruct i; discriminate].
    pose proof (NoDup_keys countrySubreddits Hids Hnames) as Hnd.
    rewrite <- (plannedCities_keys z sel) in Hnd.
    assert (Hki : map cityKey (plannedCities z sel) !! i = Some (cityKey mi))
      by (change (map cityKey ?l) with (cityKey <$> l);
          now rewrite list_lookup_fmap, Hi).
    assert (Hkj : map cityKey (plannedCities z sel) !! j = Some (cityKey mj))
      by (change (map cityKey ?l) with (cityKey <$> l);
          now rewrite list_lookup_fmap, Hj).
    destruct (plannedCities_selected_key z sel mi
                (lookup_In _ _ _ Hi) Hdi) as [Hi1 Hi2].
    destruct (plannedCities_selected_key z sel mj
                (lookup_In _ _ _ Hj) Hdj) as [Hj1 Hj2].
    assert (Hsame : cityKey mi = cityKey mj).
    { destruct (cityKey mi), (cityKey mj). simpl in *. congruence. }
    rewrite Hsame in Hki. exact (NoDup_lookup _ _ _ _ Hnd Hki Hkj).
  - intros co ci Hz Hco Hci Hsco Hsci.
    destruct (Z.geb_spec z 4); [|lia].
    assert (Hin : In (cityMarker z sel co ci) (plannedCities z sel)).
    { apply in_flat_map. exists co. split; [exact Hco|]. now apply in_map. }
    apply list_elem_of_In, list_elem_of_lookup_1 in Hin as [i Hi].
    assert (Hactive : cityIsActive sel co ci = true).
    { apply cityIsActive_iff. now exists co, ci. }
    exists i, (cityMarker z sel co ci). split; [exact Hi|].
    split; [reflexivity|]. split.
    + now apply cityMarker_drawn_selected.
    + now rewrite cityMarker_radius, Hactive.
Qed.

End Markers.

(** ** The stripped spelling of an id *)

Lemma stripLeadingZeros_other c rest :
  c <> "0"%char -> stripLeadingZeros (String c rest) = String c rest.
Proof.
  intros Hc. destruct c as [[] [] [] [] [] [] [] []];
    try reflexivity; now contradiction Hc.
Qed.

Lemma stripLeadingZeros_head id :
  stripLeadingZeros id = ""
  \/ exists c rest, stripLeadingZeros id = String c rest /\ c <> "0"%char.
Proof.
  induction id as [|c rest IH]; [now left|].
  destruct (Ascii.ascii_dec c "0") as [->|Hc]; [exact IH|].
  right. exists c, rest. split; [now apply stripLeadingZeros_other | exact Hc].
Qed.

(** X5: the stripped spelling of an id is never empty; it is "0" or does
    not begin with a zero; stripping it again changes nothing; and an id
    that does not begin with a zero, and is not empty, is its own stripped
    spelling. *)
Theorem strippedId_canonical (id : string) :
  strippedId id <> ""
  /\ (strippedId id = "0" \/ forall rest, strippedId id <> String "0" rest)
  /\ strippedId (strippedId id) = strippedId id
  /\ (id <> "" -> (forall rest, id <> String "0" rest) -> strippedId id = id).
Proof.
  unfold strippedId at 1 2 3 5 6.
  destruct (stripLeadingZeros_head id) as [E|(c & rest & E & Hc)]; rewrite E.
  - rewrite bool_decide_true by reflexivity.
    repeat split; try discriminate; try (now left).
    intros Hne Hzero. destruct id as [|c rest]; [now contradiction Hne|].
    destruct (Ascii.ascii_dec c "0") as [->|Hc]; [now contradiction (Hzero rest)|].
    rewrite stripLeadingZeros_other in E by exact Hc. discriminate E.
  - rewrite bool_decide_false by discriminate.
    split; [discriminate|]. split; [|split].
    + right. intros rest' [= -> _]. now apply Hc.
    + unfold strippedId. rewrite stripLeadingZeros_other by exact Hc.
      now rewrite bool_decide_false by discriminate.
    + intros Hne Hzero. destruct id as [|c' rest']; [now contradiction Hne|].
      destruct (Ascii.ascii_dec c' "0") as [->|Hc'];
        [now contradiction (Hzero rest')|].
      unfold strippedId. rewrite stripLeadingZeros_other by exact Hc'.
      now rewrite bool_decide_false by discriminate.
Qed.

Lemma strippedId_canonical_witness :
  "250" <> "" /\ (forall rest, "250" <> String "0" rest)
  /\ strippedId "250" = "250".
Proof.
  assert (H1 : "250" <> "") by discriminate.
  assert (H2 : forall rest, "250" <> String "0" rest) by (intros rest; discriminate).
  split; [exact H1|]. split; [exact H2|].
  apply (proj2 (proj2 (proj2 (strippedId_canonical "250"))) H1 H2).
Defined.

(** ** The lists of the panel *)

Lemma insertDesc_perm {A} (subs : A -> Z) x (l : list A) :
  insertDesc subs x l ≡ₚ x :: l.
Proof.
  induction l as [|y l IH]; simpl; [reflexivity|].
  destruct (subs x <? subs y)%Z; [|reflexivity].
  rewrite IH. apply Permutation_swap.
Qed.

Lemma insertDesc_sorted {A} (subs : A -> Z) x (l : list A) :
  StronglySorted (fun a b => (subs b <= subs a)%Z) l ->
  StronglySorted (fun a b => (subs b <= subs a)%Z) (insertDesc subs x l).
Proof.
  induction l as [|y l IH]; intros Hs; simpl.
  - repeat constructor.
  - apply StronglySorted_inv in Hs as [Hs Hy].
    destruct (Z.ltb_spec (subs x) (subs y)).
    + constructor; [now apply IH|].
      apply List.Forall_forall. intros z Hz.
      apply insertDesc_In in Hz as [->|Hz]; [lia|].
      apply (proj1 (List.Forall_forall _ _) Hy z Hz).
    + constructor; [now constructor|].
      constructor; [lia|].
      apply List.Forall_forall. intros z Hz.
      pose proof (proj1 (List.Forall_forall _ _) Hy z Hz). simpl in *. lia.
Qed.

Lemma insertDesc_stable {A} (subs : A -> Z) (n : Z) x (l : list A) :
  filter (fun a => subs a = n) (insertDesc subs x l)
  = filter (fun a => subs a = n) (x :: l).
Proof.
  induction l as [|y l IH]; simpl; [reflexivity|].
  destruct (Z.ltb_spec (subs x) (subs y)); [|reflexivity].
  destruct (decide (subs y = n)) as [Hy|Hy], (decide (subs x = n)) as [Hx|Hx];
    try lia.
  - rewrite (filter_cons_True _ y) by exact Hy.
    rewrite IH, (filter_cons_False _ x) by exact Hx.
    rewrite (filter_cons_False _ x) by exact Hx.
    now rewrite (filter_cons_True _ y) by exact Hy.
  - rewrite (filter_cons_False _ y) by exact Hy.
    rewrite IH, !(filter_cons_True _ x) by exact Hx.
    now rewrite (filter_cons_False _ y) by exact Hy.
  - rewrite (filter_cons_False _ y) by exact Hy.
    rewrite IH, !(filter_cons_False _ x) by exact Hx.
    now rewrite (filter_cons_False _ y) by exact Hy.
Qed.

Lemma sortDesc_perm {A} (subs : A -> Z) (l : list A) : sortDesc subs l ≡ₚ l.
Proof.
  induction l as [|x l IH]; simpl; [reflexivity|].
  now rewrite insertDesc_perm, IH.
Qed.

(** X19: the buttons of a list are the items, every one once, in
    descending order of member count, and items with the same member count
    keep the order they have in the dataset. *)
Theorem sortDesc_stable_sort {A} (subs : A -> Z) (l : list A) :
  sortDesc subs l ≡ₚ l
  /\ StronglySorted (fun a b => (subs b <= subs a)%Z) (sortDesc subs l)
  /\ forall n, filter (fun a => subs a = n) (sortDesc subs l)
               = filter (fun a => subs a = n) l.
Proof.
  induction l as [|x l (Hperm & Hsorted & Hstable)]; simpl.
  - split; [reflexivity|]. split; [constructor | reflexivity].
  - split; [|split].
    + apply (sortDesc_perm subs (x :: l)).
    + now apply insertDesc_sorted.
    + intros n. rewrite insertDesc_stable.
      destruct (decide (subs x = n)) as [Hx|Hx].
      * rewrite !(filter_cons_True _ x) by exact Hx. now rewrite Hstable.
      * rewrite !(filter_cons_False _ x) by exact Hx. apply Hstable.
Qed.

(** X20: the panel never shows its two lists together, and shows none
    while a place is selected; the "Cities" list holds the cities of the
    selected country, every one once, and the "Neighborhoods" list the
    places of the selected city. *)
Theorem panel_lists (sel : Selected) :
  (panelCities sel = [] \/ panelPlaces sel = [])
  /\ (is_Some (place sel) -> panelCities sel = [] /\ panelPlaces sel = [])
  /\ (forall co, country sel = Some co -> city sel = None -> place sel = None ->
        panelCities sel ≡ₚ country_cities co)
  /\ (forall ci places,
        city sel = Some ci -> place sel = None -> city_places ci = Some places ->
        panelPlaces sel ≡ₚ places).
Proof.
  unfold panelCities, panelPlaces. split; [|split; [|split]].
  - destruct (city sel), (place sel); auto.
  - intros [pl ->]. destruct (city sel); auto.
  - intros co -> -> ->.
    destruct (country_cities co) as [|ci cities] eqn:E; [reflexivity|].
    simpl Nat.ltb. cbv iota. apply sortDesc_perm.
  - intros ci places -> -> ->.
    destruct places as [|pl places]; [reflexivity|].
    simpl Nat.ltb. cbv iota. apply sortDesc_perm.
Qed.

(** ** The header of the panel *)

Section Panel.
Context {imports : Imports}.

(** X21: in every state the component reaches, the panel is open exactly
    when it has an entity to show; the label of its back button is defined;
    and that label is the name of the entity the panel shows after
    [back()], or "World" when [back()] leaves nothing selected. *)
Theorem back_label_names_the_target (events : list Event) :
  let s := run events mounted in
  (isOpen (selected s) = true <-> is_Some (active (selected s)))
  /\ backLabel (selected s)
     = Some (match active (selected (handleBack s)) with
             | Some e => entity_name e
             | None => "World"
             end).
Proof.
  intros s.
  destruct (run_nesting_inv events mounted mounted_nesting_inv) as (Hn & _).
  fold s in Hn. unfold nested in Hn. unfold isOpen, active, backLabel.
  destruct (place (selected s)) as [pl|] eqn:Epl;
    [|destruct (city (selected s)) as [ci|] eqn:Eci].
  - rewrite (handleBack_from_place s pl Epl), setSelected_selected. simpl.
    destruct (city (selected s)) as [ci|]; [|contradiction].
    destruct (country (selected s)) as [co|]; [|contradiction].
    simpl. split; [|reflexivity]. split; [now eexists | reflexivity].
  - rewrite (handleBack_from_city s ci Epl Eci), setSelected_selected. simpl.
    destruct (country (selected s)) as [co|]; [|contradiction].
    simpl. split; [|reflexivity]. split; [now eexists | reflexivity].
  - rewrite (handleBack_from_country s Epl Eci).
    unfold handleClose. rewrite setSelected_selected. simpl.
    split; [|reflexivity].
    destruct (country (selected s)); simpl; split; try done;
      intros [e He]; discriminate He.
Qed.

End Panel.

(** ** Further scenarios *)

Lemma geoLoaded_draws_every_feature_witness :
  demoFeatures !! 2%nat
  = Some {| feature_id := "010"; feature_geometry := OtherGeometry |}
  /\ countryMap (Imports := demoImports) !! "010" = None
  /\ step (imports := demoImports)
       (geoLoaded (imports := demoImports) demoFeatures mounted)
       (PathClick (length (layers mounted) + 2))
     = geoLoaded (imports := demoImports) demoFeatures mounted.
Proof.
  assert (H1 : demoFeatures !! 2%nat
               = Some {| feature_id := "010"; feature_geometry := OtherGeometry |})
    by reflexivity.
  assert (H2 : countryMap (Imports := demoImports) !! "010" = None)
    by (vm_compute; reflexivity).
  split; [exact H1|]. split; [exact H2|].
  pose proof (geoLoaded_draws_every_feature (imports := demoImports)
                demoFeatures mounted) as (_ & _ & _ & _ & H).
  exact (proj1 (H 2%nat _ H1 H2)).
Defined.

Lemma stacking_order_complete_witness :
  layers franceSelected !! 1%nat <> None
  /\ last (front (step (imports := demoImports) franceSelected (PathMouseOver 1)))
     = Some 1%nat.
Proof.
  split; [discriminate|].
  pose proof (stacking_order_complete (imports := demoImports)
                [GeoLoaded demoFeatures; PathClick 0]) as [_ H].
  eapply H; reflexivity.
Defined.

Lemma highlight_under_every_event_witness :
  selectedLayerRef montmartreSelected = Some 0%nat
  /\ is_Some (country (selected montmartreSelected)).
Proof.
  split; [reflexivity|].
  pose proof (highlight_under_every_event (imports := demoImports)
                montmartreEvents) as (_ & _ & _ & H).
  apply (H 0%nat eq_refl).
Defined.

Lemma handleClose_unhighlights_all_witness :
  place (selected franceSelected) = None
  /\ city (selected franceSelected) = None
  /\ selected (handleBack (imports := demoImports) franceSelected) = noSelection.
Proof.
  split; [reflexivity|]. split; [reflexivity|].
  pose proof (handleClose_unhighlights_all (imports := demoImports)
                [GeoLoaded demoFeatures; PathClick 0]) as [_ H].
  apply (H eq_refl eq_refl).
Defined.

Lemma drillDown_leaves_drawables_witness :
  drillDown (PanelCityClick 0) = true
  /\ layers (step (imports := demoImports) franceSelected (PanelCityClick 0))
     = layers franceSelected
  /\ selectedLayerRef
       (step (imports := demoImports) franceSelected (PanelCityClick 0))
     = Some 0%nat.
Proof.
  split; [reflexivity|].
  pose proof (drillDown_leaves_drawables (imports := demoImports)
                franceSelected (PanelCityClick 0) eq_refl) as (H1 & H2 & _).
  split; [exact H1 | exact H2].
Defined.

Lemma zooming_in_only_adds_witness :
  (5 <= 11)%Z
  /\ map onClick (builtPlaces (H := demoImports) 5 noSelection)
     `prefix_of` map onClick (builtPlaces (H := demoImports) 11 noSelection).
Proof.
  assert (H : (5 <= 11)%Z) by lia.
  split; [exact H|].
  apply (zooming_in_only_adds (imports := demoImports) 5 11 noSelection H).
Defined.

Lemma one_city_marker_selected_witness :
  unique_cities (H := demoImports)
  /\ exists i m,
       builtCities (H := demoImports) 11 (selected montmartreSelected) !! i = Some m
       /\ onClick m = ClickCity france paris
       /\ drawn_selected m
       /\ radius m = cityRadius (imports := demoImports) paris + 3.
Proof.
  assert (H : unique_cities (H := demoImports)).
  { split.
    - apply (bool_decide_unpack _). vm_compute. exact I.
    - intros co Hco. simpl in Hco.
      destruct Hco as [<-|[<-|[]]];
        apply (bool_decide_unpack _); vm_compute; exact I. }
  split; [exact H|].
  apply (proj2 (one_city_marker_selected (imports := demoImports) 11
                  (selected montmartreSelected) H) france paris).
  - lia.
  - now left.
  - now left.
  - reflexivity.
  - reflexivity.
Defined.

Lemma place_hover_round_trip_witness :
  is_Some (cityGroupRef montmartreSelected)
  /\ is_Some (placeGroupRef montmartreSelected)
  /\ step (imports := demoImports)
       (step (imports := demoImports)
          (markerEffect (imports := demoImports) montmartreSelected)
          (PlaceMarkerOver 0))
       (PlaceMarkerOut 0)
     = markerEffect (imports := demoImports) montmartreSelected.
Proof.
  assert (H1 : is_Some (cityGroupRef montmartreSelected))
    by (vm_compute; eexists; reflexivity).
  assert (H2 : is_Some (placeGroupRef montmartreSelected))
    by (vm_compute; eexists; reflexivity).
  split; [exact H1|]. split; [exact H2|].
  apply (proj2 (proj2 (place_hover_round_trip (imports := demoImports)))
           montmartreSelected 0%nat H1 H2).
Defined.

Lemma panel_lists_witness :
  country (selected franceSelected) = Some france
  /\ city (selected franceSelected) = None
  /\ place (selected franceSelected) = None
  /\ panelCities (selected franceSelected) ≡ₚ [paris; lyon].
Proof.
  split; [reflexivity|]. split; [reflexivity|]. split; [reflexivity|].
  apply (proj1 (proj2 (proj2 (panel_lists (selected franceSelected))))
           france eq_refl eq_refl eq_refl).
Defined.

Lemma back_label_names_the_target_witness :
  backLabel (selected montmartreSelected) = Some "Paris"
  /\ isOpen (selected montmartreSelected) = true.
Proof.
  pose proof (back_label_names_the_target (imports := demoImports)
                montmartreEvents) as [Hopen Hlabel].
  split; [exact Hlabel|].
  apply (proj2 Hopen). now eexists.
Defined.

(** ** Selecting, and going back *)

Section Selecting.
Context {imports : Imports}.

Lemma markerEffect_after_effect x t :
  markerEffect (with_selected x (markerEffect t))
  = markerEffect (with_selected x t).
Proof. destruct t as [sel z zr ref reg ls fr [cg|] [pg|]]; reflexivity. Qed.

Lemma with_selected_twice x y s :
  with_selected y (with_selected x s) = with_selected y s.
Proof. reflexivity. Qed.

Lemma setSelected_settled s :
  markerEffect s = s -> setSelected (selected s) s = s.
Proof. intros Hs. unfold setSelected. now rewrite with_selected_same. Qed.

Lemma setSelected_twice x y s :
  setSelected y (setSelected x s) = setSelected y s.
Proof.
  unfold setSelected. now rewrite markerEffect_after_effect, with_selected_twice.
Qed.

(** X23: [back()] undoes a drill-down: from a state in which the marker
    effect has run, selecting a city of the selected country and going back
    gives the state again, and so does selecting a place of the selected
    city and going back. *)
Theorem handleBack_undoes_drill_down (s : State) :
  markerEffect s = s ->
  (forall co ci,
      selected s = {| country := Some co; city := None; place := None |} ->
      handleBack (selectCity co ci s) = s)
  /\ (forall co ci pl,
        selected s = {| country := Some co; city := Some ci; place := None |} ->
        handleBack (selectPlace co ci pl s) = s).
Proof.
  intros Hs. split.
  - intros co ci Hsel. unfold selectCity.
    rewrite (handleBack_from_city _ ci)
      by (now rewrite setSelected_selected).
    rewrite setSelected_selected, setSelected_twice. simpl.
    rewrite <- Hsel. now apply setSelected_settled.
  - intros co ci pl Hsel. unfold selectPlace.
    rewrite (handleBack_from_place _ pl)
      by (now rewrite setSelected_selected).
    rewrite setSelected_selected, setSelected_twice. simpl.
    rewrite <- Hsel. now apply setSelected_settled.
Qed.

Lemma restyle_twice f (ls : list Path) l :
  (forall p, restyle f (restyle f p) = restyle f p) ->
  alter (restyle f) l (alter (restyle f) l ls) = alter (restyle f) l ls.
Proof.
  intros Hf. rewrite list_alter_alter_eq.
  apply list_alter_ext; [|reflexivity]. intros p _. apply Hf.
Qed.

(** X22: a second click on the drawable of the selected country changes
    nothing: [selectCountry] with the same id and drawable is idempotent. *)
Theorem selectCountry_idempotent (id : string) (layer : nat) (s : State) :
  selectCountry id layer (selectCountry id layer s) = selectCountry id layer s.
Proof.
  unfold selectCountry. destruct (countryMap !! id) as [co|] eqn:E;
    [|reflexivity].
  unfold exec, selectCountry_body. simpl.
  set (x := {| country := Some co; city := None; place := None |}).
  set (t := styleLayer highlightStyle layer
              (with_selectedLayerRef (Some layer)
                 (unhighlightPrevious layer s))).
  assert (Hprev : unhighlightPrevious layer (setSelected x t) = setSelected x t).
  { unfold unhighlightPrevious. rewrite setSelected_selectedLayerRef. simpl.
    now rewrite bool_decide_false by (intros Hne; now apply Hne). }
  rewrite Hprev.
  assert (Hstyle : styleLayer highlightStyle layer
                     (with_selectedLayerRef (Some layer) (setSelected x t))
                   = setSelected x t).
  { unfold setSelected.
    assert (Ht : styleLayer highlightStyle layer
                   (with_selectedLayerRef (Some layer) t) = t).
    { unfold t, styleLayer, with_selectedLayerRef, with_layers. simpl.
      now rewrite restyle_twice by reflexivity. }
    rewrite <- Ht at 2.
    destruct t as [sel z zr ref reg ls fr [cg|] [pg|]]; reflexivity. }
  rewrite Hstyle. apply setSelected_twice.
Qed.

(** X24: a click on a registered drawable whose country id [countryMap]
    holds, in any state the component reaches, selects that country alone
    (no city, no place), stores the drawable, and leaves it highlighted and
    no other drawable highlighted. *)
Theorem click_selects_the_country (events : list Event) (l : nat) (p : Path)
    (co co' : CountrySubreddit) :
  let s := run events mounted in
  layers s !! l = Some p -> pathCountry p = Some co ->
  countryMap !! country_id co = Some co' ->
  let s' := step s (PathClick l) in
  selected s' = {| country := Some co'; city := None; place := None |}
  /\ selectedLayerRef s' = Some l
  /\ forall l' p', layers s' !! l' = Some p' -> (highlighted p' <-> l' = l).
Proof.
  intros s Hl Hco Hmap s'.
  pose proof (run_highlight_inv (events ++ [PathClick l]) mounted
                mounted_highlight_inv) as [Hhl _].
  rewrite run_snoc in Hhl. fold s in Hhl. fold s' in Hhl.
  assert (Hs' : s' = selectCountry (country_id co) l s).
  { unfold s'. simpl. unfold onPath. now rewrite Hl, Hco. }
  destruct (selectCountry_known _ l s _ Hmap) as (Hsel & Href & _).
  rewrite <- Hs' in Hsel, Href.
  split; [exact Hsel|]. split; [exact Href|].
  intros l' p' Hl'. rewrite (Hhl l' p' Hl'), Href.
  split; [now intros [= ->] | now intros ->].
Qed.

End Selecting.

Lemma handleBack_undoes_drill_down_witness :
  markerEffect (imports := demoImports) franceSelected = franceSelected
  /\ handleBack (imports := demoImports)
       (selectCity (imports := demoImports) france paris franceSelected)
     = franceSelected.
Proof.
  assert (H : markerEffect (imports := demoImports) franceSelected
              = franceSelected) by reflexivity.
  split; [exact H|].
  apply (proj1 (handleBack_undoes_drill_down (imports := demoImports)
                  franceSelected H) france paris eq_refl).
Defined.

Lemma click_selects_the_country_witness :
  selected (step (imports := demoImports) franceSelected (PathClick 1))
  = {| country := Some germany; city := None; place := None |}
  /\ selectedLayerRef (step (imports := demoImports) franceSelected (PathClick 1))
     = Some 1%nat.
Proof.
  pose proof (click_selects_the_country (imports := demoImports)
                [GeoLoaded demoFeatures; PathClick 0] 1%nat
                (drawableOf (H := demoImports)
                   {| feature_id := "276";
                      feature_geometry :=
                        Polygon [[(6, 51); (14, 54); (13, 47); (6, 51)]] |})
                germany germany eq_refl eq_refl eq_refl) as (H1 & H2 & _).
  split; [exact H1 | exact H2].
Defined.
